(** * primi_composti: the game engine of the prime/composite card game

    A shallow embedding of [Player.py], [GameState.py], [Game.py] and the
    counters of [Statistics.py].

    Modelling decisions, in one place:
    - Python integers are [Z]; [//] and [%] are [Z.div] and [Z.modulo]
      (both round towards minus infinity, as Python does) and raise
      [ZeroDivisionError] on a zero divisor.
    - A Python [set]/[frozenset] of cards is a [gset Z].  The order in which
      Python iterates over a set is an implementation detail of the
      interpreter; it is the section variable [iter], about which the proofs
      only assume that it enumerates the elements of the set once each.
      (The order is taken to depend on the elements only, not on the
      history of insertions and removals.)
    - A Python [dict] keyed by frozensets is an association list in insertion
      order with unique keys ([dict_set]).
    - [float("-inf")] and [float("+inf")] are the two extra points of [num];
      every other number handled by the search is an integer.  Adding an
      integer to an infinity converts the integer to a double, which raises
      [OverflowError] when it does not fit.
    - [util.is_prime] is not among the sources; it is the section variable
      [is_prime].
    - The random generator is an oracle: [rand.shuffle] is a function
      [shuffle] on lists and [rand.choice] picks the element at index
      [r mod len] for a natural number [r] supplied by the caller.
    - Raised exceptions and [sys.exit] are the [Err] results of [result]. *)

From stdpp Require Import base decidable option list sets gmap sorting strings.
From Stdlib Require Import ZArith Lia.

Local Open Scope Z_scope.

(** ** Errors *)

Inductive error : Set :=
| SystemExit
| ZeroDivisionError
| IndexError
| ValueError
| UnboundLocalError
| OverflowError
| OutOfFuel.

Inductive result (T : Type) : Type :=
| Ok (x : T)
| Err (e : error).
Arguments Ok {T} x.
Arguments Err {T} e.

#[global] Instance result_ret : MRet result := λ T x, Ok x.
#[global] Instance result_bind : MBind result :=
  λ T U f m, match m with Ok x => f x | Err e => Err e end.

Fixpoint foldM {S T : Type} (f : S → T → result S) (s : S) (l : list T)
  : result S :=
  match l with
  | [] => Ok s
  | x :: l' => s' ← f s x; foldM f s' l'
  end.

(** ** Numbers of the search: integers and the two float infinities *)

Inductive num : Set :=
| NegInf
| Int (z : Z)
| PosInf.

#[global] Instance num_eq_dec : EqDecision num.
Proof. solve_decision. Defined.

(** [float(v)] for an integer [v]: the nearest double, ties to even, and
    [OverflowError] when that is beyond the largest double
    [2^1024 - 2^971]; so exactly when [|v| >= 2^1024 - 2^970]. *)
Definition DBL_OVERFLOW : Z := 2 ^ 1024 - 2 ^ 970.

Definition fits_double (v : Z) : bool := Z.abs v <? DBL_OVERFLOW.

(** The value of [x + v] and of [x - v] for an integer [v], when there is
    one: integers add exactly, and an infinity absorbs a double. *)
Definition num_plus (x : num) (v : Z) : num :=
  match x with
  | Int z => Int (z + v)
  | _ => x
  end.

Definition num_minus (x : num) (v : Z) : num :=
  match x with
  | Int z => Int (z - v)
  | _ => x
  end.

(** [x + v] and [x - v] for an integer [v].  When [x] is a float infinity
    the integer is converted to a double first, which raises
    [OverflowError] when it does not fit. *)
Definition num_add (x : num) (v : Z) : result num :=
  match x with
  | Int z => Ok (Int (z + v))
  | _ => if fits_double v then Ok x else Err OverflowError
  end.

Definition num_sub (x : num) (v : Z) : result num :=
  match x with
  | Int z => Ok (Int (z - v))
  | _ => if fits_double v then Ok x else Err OverflowError
  end.

(** [x < y] *)
Definition num_ltb (x y : num) : bool :=
  match x, y with
  | NegInf, NegInf => false
  | NegInf, _ => true
  | Int a, Int b => a <? b
  | Int _, PosInf => true
  | _, _ => false
  end.

(** [x <= y] *)
Definition num_leb (x y : num) : bool := negb (num_ltb y x).

(** Python's [max(a, b)] returns [a] unless [b > a]; [min(a, b)] returns
    [a] unless [b < a]. *)
Definition num_max (a b : num) : num := if num_ltb a b then b else a.
Definition num_min (a b : num) : num := if num_ltb b a then b else a.

(** ** Python list helpers *)

(** [l.pop(l.index(c))]: drop the first occurrence. *)
Fixpoint remove_first (c : Z) (l : list Z) : list Z :=
  match l with
  | [] => []
  | x :: l' => if decide (x = c) then l' else x :: remove_first c l'
  end.

(** [l[-1]] guarded by [len(l) != 0], with the sentinel [-1]. *)
Definition last_or_minus1 (l : list Z) : Z :=
  match last l with
  | Some x => x
  | None => -1
  end.

(** [list(range(lo, hi))] *)
Definition py_range (lo hi : Z) : list Z :=
  map (λ i : nat, lo + Z.of_nat i) (seq 0 (Z.to_nat (hi - lo))).

(** [l.pop()] *)
Definition list_pop (l : list Z) : result (Z * list Z) :=
  match last l with
  | Some x => Ok (x, removelast l)
  | None => Err IndexError
  end.

(** [a // b] *)
Definition floordiv (a b : Z) : result Z :=
  if decide (b = 0) then Err ZeroDivisionError else Ok (a / b).

(** The pairs [(l[i], l[j])] for [i < j], in the order of the two nested
    [range] loops. *)
Fixpoint index_pairs (l : list Z) : list (Z * Z) :=
  match l with
  | [] => []
  | c1 :: l' => map (pair c1) l' ++ index_pairs l'
  end.

(** ** Dictionaries keyed by frozensets *)

Definition dict : Type := list (gset Z * Z).

(** [d[k] = v]: an existing key keeps its position. *)
Fixpoint dict_set (k : gset Z) (v : Z) (d : dict) : dict :=
  match d with
  | [] => [(k, v)]
  | (k', v') :: d' =>
      if decide (k' = k) then (k', v) :: d' else (k', v') :: dict_set k v d'
  end.

(** ** Player.py *)

Definition PRIME_SCORE : Z := 2.
Definition COMPOSITE_SCORE : Z := 1.

Record Player : Type := mkPlayer {
  hand : gset Z;
  primes : list Z;
  composites : list Z
}.

#[global] Instance Player_eq_dec : EqDecision Player.
Proof. solve_decision. Defined.

Definition Player_init : Player := mkPlayer ∅ [] [].

Definition add_hand (p : Player) (card : Z) : Player :=
  mkPlayer ({[card]} ∪ hand p) (primes p) (composites p).

Definition remove_hand (p : Player) (card : Z) : Player :=
  if decide (card ∈ hand p)
  then mkPlayer (hand p ∖ {[card]}) (primes p) (composites p)
  else p.

Definition is_hand_empty (p : Player) : bool :=
  bool_decide (size (hand p) = 0%nat).

Definition can_play_move (p : Player) (move : gset Z) : bool :=
  negb (bool_decide (size (hand p ∩ move) = 0%nat)).

Definition add_prime (p : Player) (card : Z) : Player :=
  mkPlayer (hand p) (primes p ++ [card]) (composites p).

Definition prime_contains (p : Player) (card : Z) : bool :=
  bool_decide (card ∈ primes p).

Definition remove_prime (p : Player) (card : Z) : Player :=
  if prime_contains p card
  then mkPlayer (hand p) (remove_first card (primes p)) (composites p)
  else p.

Definition obtain_last_prime (p : Player) : Z := last_or_minus1 (primes p).

Definition add_composite (p : Player) (card : Z) : Player :=
  mkPlayer (hand p) (primes p) (composites p ++ [card]).

Definition composite_contains (p : Player) (card : Z) : bool :=
  bool_decide (card ∈ composites p).

Definition remove_composite (p : Player) (card : Z) : Player :=
  if composite_contains p card
  then mkPlayer (hand p) (primes p) (remove_first card (composites p))
  else p.

Definition obtain_last_composite (p : Player) : Z :=
  last_or_minus1 (composites p).

(** [rand.choice(l)] with the random index supplied as [r]. *)
Definition choice (r : nat) (l : list Z) : result Z :=
  match l !! (r `mod` length l)%nat with
  | Some x => Ok x
  | None => Err IndexError
  end.

(** ** Game.py: the state *)

(** The player indexes [Game.A = 0] and [Game.B = 1]. *)
Inductive idx : Set := A | B.

#[global] Instance idx_eq_dec : EqDecision idx.
Proof. solve_decision. Defined.

Definition idx_Z (i : idx) : Z := match i with A => 0 | B => 1 end.

(** [(i + 1) % 2] *)
Definition other (i : idx) : idx := match i with A => B | B => A end.

Record Game : Type := mkGame {
  num_cards : Z;
  num_hand : Z;
  num_table : Z;
  change_first : bool;
  depth : Z;
  turn : Z;
  u : Z;
  playerA : Player;
  playerB : Player;
  table : gset Z;
  turn_payoffs : list Z;
  first : idx;
  current : idx;
  playable_sets : dict
}.

#[global] Instance Game_eq_dec : EqDecision Game.
Proof. solve_decision. Defined.

(** [self.players[i]] *)
Definition player (g : Game) (i : idx) : Player :=
  match i with A => playerA g | B => playerB g end.

Definition set_player (g : Game) (i : idx) (p : Player) : Game :=
  match i with
  | A => mkGame (num_cards g) (num_hand g) (num_table g) (change_first g)
           (depth g) (turn g) (u g) p (playerB g) (table g) (turn_payoffs g)
           (first g) (current g) (playable_sets g)
  | B => mkGame (num_cards g) (num_hand g) (num_table g) (change_first g)
           (depth g) (turn g) (u g) (playerA g) p (table g) (turn_payoffs g)
           (first g) (current g) (playable_sets g)
  end.

Definition set_table (g : Game) (t : gset Z) : Game :=
  mkGame (num_cards g) (num_hand g) (num_table g) (change_first g)
    (depth g) (turn g) (u g) (playerA g) (playerB g) t (turn_payoffs g)
    (first g) (current g) (playable_sets g).

Definition set_u (g : Game) (x : Z) : Game :=
  mkGame (num_cards g) (num_hand g) (num_table g) (change_first g)
    (depth g) (turn g) x (playerA g) (playerB g) (table g) (turn_payoffs g)
    (first g) (current g) (playable_sets g).

Definition set_turn (g : Game) (x : Z) : Game :=
  mkGame (num_cards g) (num_hand g) (num_table g) (change_first g)
    (depth g) x (u g) (playerA g) (playerB g) (table g) (turn_payoffs g)
    (first g) (current g) (playable_sets g).

Definition set_current (g : Game) (i : idx) : Game :=
  mkGame (num_cards g) (num_hand g) (num_table g) (change_first g)
    (depth g) (turn g) (u g) (playerA g) (playerB g) (table g)
    (turn_payoffs g) (first g) i (playable_sets g).

Definition set_playable_sets (g : Game) (d : dict) : Game :=
  mkGame (num_cards g) (num_hand g) (num_table g) (change_first g)
    (depth g) (turn g) (u g) (playerA g) (playerB g) (table g)
    (turn_payoffs g) (first g) (current g) d.

Definition set_turn_payoffs (g : Game) (l : list Z) : Game :=
  mkGame (num_cards g) (num_hand g) (num_table g) (change_first g)
    (depth g) (turn g) (u g) (playerA g) (playerB g) (table g)
    l (first g) (current g) (playable_sets g).

(** The fields that [update] never assigns. *)
Definition config (g : Game) : Z * Z * Z * bool * Z * list Z * idx :=
  (num_cards g, num_hand g, num_table g, change_first g, depth g,
   turn_payoffs g, first g).

(** ** Statistics.py *)

(** [l[i]] for a Python index: [i] counts from the end when negative, and
    is out of range outside [-len(l), len(l))]. *)
Definition py_index {T : Type} (l : list T) (i : Z) : result nat :=
  if (0 <=? i) && (i <? Z.of_nat (length l)) then Ok (Z.to_nat i)
  else if (- Z.of_nat (length l) <=? i) && (i <? 0)
       then Ok (Z.to_nat (Z.of_nat (length l) + i))
       else Err IndexError.

Module Statistics.

(** The attributes that [update] reads and writes.  [mean], [std_dev],
    [variance] and the percentages are written by [calculate] only, and
    [strategies] is read by the printing and plotting methods only. *)
Record t : Type := mk {
  n : Z;
  payoffs : list Z;
  average_advantage_turn : list Z;
  first_moves : list Z;
  wins : list Z;
  ties : Z
}.

(** [Statistics(strategies)] *)
Definition init : t := mk 0 [] [] [0; 0] [0; 0] 0.

(** [l[i] = l[i] + 1] *)
Definition incr (l : list Z) (i : Z) : result (list Z) :=
  j ← py_index l i;
  match l !! j with
  | Some x => Ok (<[j := x + 1]> l)
  | None => Err IndexError
  end.

(** The loop [for i in range(len(payoffs_turn)): a[i] = a[i] + payoffs_turn[i]] *)
Definition add_turns (a payoffs_turn : list Z) : result (list Z) :=
  foldM (λ a i,
           match a !! i, payoffs_turn !! i with
           | Some x, Some y => Ok (<[i := x + y]> a)
           | _, _ => Err IndexError
           end)
        a (seq 0 (length payoffs_turn)).

(** [update].  When [average_advantage_turn] is empty it is bound to the
    list [payoffs_turn] itself, so the later additions are made in the list
    of the caller's first game; the attribute holds the same values either
    way, and they are what the model keeps. *)
Definition update (s : t) (first winner payoff : Z) (payoffs_turn : list Z)
  : result t :=
  let n := n s + 1 in
  let payoffs := payoffs s ++ [payoff] in
  first_moves ← incr (first_moves s) first;
  '(wins, ties) ←
    (if winner =? -1 then Ok (wins s, ties s + 1)
     else wins ← incr (wins s) winner; Ok (wins, ties s));
  average_advantage_turn ←
    (if (length (average_advantage_turn s) =? 0)%nat then Ok payoffs_turn
     else add_turns (average_advantage_turn s) payoffs_turn);
  Ok (mk n payoffs average_advantage_turn first_moves wins ties).

(** The counters agree: one payoff, one first move and one win or tie for
    each game recorded. *)
Definition consistent (s : t) : Prop :=
  length (first_moves s) = 2%nat ∧ length (wins s) = 2%nat
  ∧ n s = Z.of_nat (length (payoffs s))
  ∧ foldr Z.add 0 (first_moves s) = n s
  ∧ foldr Z.add 0 (wins s) + ties s = n s.

End Statistics.

(** The payoffs after each turn of a game of two turns that ends at -3, and
    the statistics after that one game, which A started and B won. *)
Definition example_turns : list Z := [1; -3].

Definition example_stats : Statistics.t :=
  Statistics.mk 1 [-3] example_turns [1; 0] [0; 1] 0.

(** ** GameState.py *)

Record GameState : Type := mkGameState {
  gs_playerA : Player;
  gs_playerB : Player;
  gs_table : gset Z;
  gs_u : Z;
  gs_turn : Z;
  gs_current : idx;
  gs_playable_sets : dict;
  gs_played_set : gset Z;
  gs_played_payoff : Z
}.

#[global] Instance GameState_eq_dec : EqDecision GameState.
Proof. solve_decision. Defined.

(** [GameState(self.players, self.table, self.u, self.turn, self.current,
    self.playable_sets, k, v)]: every mutable component is copied
    ([deepcopy], [copy]), so the snapshot shares nothing with the game and is
    a value. *)
Definition GameState_init (g : Game) (played_set : gset Z) (played_payoff : Z)
  : GameState :=
  mkGameState (playerA g) (playerB g) (table g) (u g) (turn g) (current g)
    (playable_sets g) played_set played_payoff.

(** [rollback]: the game takes over the snapshot's components.  ([gain] is
    computed and never used.) *)
Definition rollback (g : Game) (game_state : GameState) : Game :=
  mkGame (num_cards g) (num_hand g) (num_table g) (change_first g) (depth g)
    (gs_turn game_state) (gs_u game_state)
    (gs_playerA game_state) (gs_playerB game_state) (gs_table game_state)
    (turn_payoffs g) (first g) (gs_current game_state)
    (gs_playable_sets game_state).

(** [game_states.pop()] *)
Definition states_pop (l : list GameState)
  : result (GameState * list GameState) :=
  match last l with
  | Some x => Ok (x, removelast l)
  | None => Err IndexError
  end.

(** The strategy names. *)
Definition RANDOM : string := "random".
Definition GREEDY : string := "greedy".
Definition MINIMAX : string := "minimax".

(** ** Concrete parameters, for running the model *)

(** Modelled from the spec: [util.is_prime] is not among the sources; the
    specification describes it as primality testing, a pure function
    [is_prime(n) -> bool].  This is trial division. *)
Definition is_prime_std (n : Z) : bool :=
  (1 <? n) && forallb (λ d, negb (n `mod` d =? 0)) (py_range 2 n).

(** Sets iterated in increasing order.  For sets of at most four cards with
    values below 8, which is all there is in a four-card game, this is the
    order of CPython (a card hashes to itself and lands in the slot of its
    own number). *)
Definition iter_sorted (s : gset Z) : list Z := merge_sort Z.le (elements s).

(** ** Cards that are safe to divide by *)

(** No card of the game is 0: the table, the hands, the stacks and the keys
    of the playable-move table.  (Every card dealt is at least 2.) *)
Definition player_nonzero (p : Player) : bool :=
  bool_decide (0 ∉ hand p) && bool_decide (0 ∉ primes p)
  && bool_decide (0 ∉ composites p).

Definition cards_nonzero (g : Game) : bool :=
  bool_decide (0 ∉ table g)
  && player_nonzero (playerA g) && player_nonzero (playerB g)
  && forallb (λ kv : gset Z * Z, bool_decide (0 ∉ kv.1)) (playable_sets g).

(** ** Example games, for running the model *)

(** The four-card game ([num_cards = 4], [num_hand = 1], [num_table = 2])
    after the deal that gives 5 to A and 4 to B and leaves 2 and 3 on the
    table.  B holds the lower card and moves first. *)
Definition example_game : Game :=
  mkGame 4 1 2 true 2 1 0 (mkPlayer {[5]} [] []) (mkPlayer {[4]} [] [])
    {[2; 3]} [] B B [({[2; 3; 5]}, 6); ({[4]}, 0)].

(** The same deal with [change_first = False]: A moves first and can
    capture 2, 3 and 5. *)
Definition example_game_A : Game :=
  mkGame 4 1 2 false 2 1 0 (mkPlayer {[5]} [] []) (mkPlayer {[4]} [] [])
    {[2; 3]} [] A A [({[2; 3; 5]}, 6); ({[5]}, 0)].

(** A game that is not over in which the player to move, B, holds no card:
    A holds 2, and 3, 4 and 5 lie on the table.  The only key of the
    playable-move table is the combination of 2, 3 and 5, which B cannot
    play. *)
Definition example_stuck : Game :=
  mkGame 4 1 2 true 2 2 0 (mkPlayer {[2]} [] []) (mkPlayer ∅ [] [])
    {[3; 4; 5]} [] A B [({[2; 3; 5]}, 6)].

(** A game whose playable-move table holds a value that is not a double: B
    holds 4 and 5 and can discard 4 at the value [2^1024 - 2^970]; after
    that A, who holds nothing, can play nothing while the game goes on. *)
Definition example_overflow : Game :=
  mkGame 4 1 2 true 2 2 0 (mkPlayer ∅ [] []) (mkPlayer {[4; 5]} [] [])
    {[2; 3]} [] A B [({[4]}, DBL_OVERFLOW)].

(** [example_game] with a search depth of 0. *)
Definition example_game_shallow : Game :=
  mkGame 4 1 2 true 0 1 0 (mkPlayer {[5]} [] []) (mkPlayer {[4]} [] [])
    {[2; 3]} [] B B [({[2; 3; 5]}, 6); ({[4]}, 0)].

(** [example_game] with the default search depth of 1. *)
Definition example_game_default : Game :=
  mkGame 4 1 2 true 1 1 0 (mkPlayer {[5]} [] []) (mkPlayer {[4]} [] [])
    {[2; 3]} [] B B [({[2; 3; 5]}, 6); ({[4]}, 0)].

(** [example_game_A] after A has captured 2, 3 and 5: the capture is worth
    6, the last prime captured lies on the table, and B is to move. *)
Definition example_game_captured : Game :=
  mkGame 4 1 2 false 2 2 6 (mkPlayer ∅ [2; 3; 5] []) (mkPlayer {[4]} [] [])
    {[5]} [] A B [({[4]}, 0)].

Section Engine.

(** [util.is_prime], and the iteration order of sets. *)
Variable is_prime : Z → bool.
Variable iter : gset Z → list Z.

(** *** Player.py, the methods that iterate or test primality *)

Definition hand_list (p : Player) : list Z := iter (hand p).

(** [min(self.hand)] *)
Definition min_hand (p : Player) : result Z :=
  match iter (hand p) with
  | [] => Err ValueError
  | x :: l => Ok (foldl Z.min x l)
  end.

Definition get_random_card (r : nat) (p : Player) : result Z :=
  choice r (iter (hand p)).

Definition add_stacks (p : Player) (card : Z) : Player :=
  if is_prime card then
    let p := if prime_contains p card then remove_prime p card else p in
    add_prime p card
  else
    let p := if composite_contains p card then remove_composite p card else p in
    add_composite p card.

Definition remove_stacks (p : Player) (card : Z) : Player :=
  if is_prime card && prime_contains p card then remove_prime p card
  else if negb (is_prime card) && composite_contains p card
       then remove_composite p card
       else p.

(** *** Game.py *)

Definition is_over (g : Game) : bool :=
  let emptyA := is_hand_empty (player g A) in
  let emptyB := is_hand_empty (player g B) in
  emptyA && emptyB.

Definition get_winner (g : Game) : Z :=
  if 0 <? u g then idx_Z (first g)
  else if u g <? 0 then (idx_Z (first g) + 1) `mod` 2
  else -1.

(** The body of [deal_cards]'s loop, [n] times. *)
Fixpoint deal_loop (n : nat) (pa pb : Player) (cards : list Z)
  : result (Player * Player * list Z) :=
  match n with
  | O => Ok (pa, pb, cards)
  | S n' =>
      '(c, cards) ← list_pop cards;
      let pa := add_hand pa c in
      '(c, cards) ← list_pop cards;
      let pb := add_hand pb c in
      deal_loop n' pa pb cards
  end.

Definition find_playable_cards (n : Z) (c1 c2 : Z) : result (list Z) :=
  let playable_cards := [] in
  (* addition *)
  let playable_cards :=
    if (1 <? c1 + c2) && (c1 + c2 <? n + 2)
    then playable_cards ++ [c1 + c2] else playable_cards in
  (* subtraction *)
  let playable_cards :=
    if (1 <? Z.abs (c1 - c2)) && (Z.abs (c1 - c2) <? n + 2)
    then playable_cards ++ [Z.abs (c1 - c2)] else playable_cards in
  (* multiplication *)
  let playable_cards :=
    if (1 <? c1 * c2) && (c1 * c2 <? n + 2)
    then playable_cards ++ [c1 * c2] else playable_cards in
  (* integer division *)
  q ← floordiv c1 c2;
  let playable_cards :=
    if ((1 <? q) && (q <? n + 2)) && (c1 `mod` c2 =? 0)
    then playable_cards ++ [q] else playable_cards in
  q ← floordiv c2 c1;
  let playable_cards :=
    if ((1 <? q) && (q <? n + 2)) && (c2 `mod` c1 =? 0)
    then playable_cards ++ [q] else playable_cards in
  Ok playable_cards.

(** One round of the loop of [calculate_move_payoff]. *)
Definition card_payoff (p1 p2 : Player) (payoff : Z) (c : Z) : Z :=
  let is_pr := is_prime c in
  (* obtained *)
  let payoff :=
    if is_pr && negb (prime_contains p1 c) then payoff + PRIME_SCORE
    else if negb is_pr && negb (composite_contains p1 c)
         then payoff + COMPOSITE_SCORE
         else payoff in
  (* stolen *)
  let payoff :=
    if is_pr && prime_contains p2 c then payoff + PRIME_SCORE
    else if negb is_pr && composite_contains p2 c
         then payoff + COMPOSITE_SCORE
         else payoff in
  payoff.

Definition calculate_move_payoff (g : Game) (card_set : gset Z) : Z :=
  if negb (size card_set =? 3)%nat then 0
  else
    let p1 := player g (current g) in
    let p2 := player g (other (current g)) in
    foldl (card_payoff p1 p2) 0 (iter card_set).

(** The innermost loop of [find_playable_sets], over the playable cards of
    one pair. *)
Definition add_playable (g : Game) (c1 c2 : Z) (d : dict) (c3 : Z) : dict :=
  let s : gset Z := {[c1; c2; c3]} in
  if (size s =? 3)%nat then dict_set s (calculate_move_payoff g s) d else d.

Definition find_playable_sets (g : Game) : result Game :=
  let table_list := iter (table g) in
  d ← foldM (λ d '(c1, c2),
               playable_cards ← find_playable_cards (num_cards g) c1 c2;
               Ok (foldl (add_playable g c1 c2) d playable_cards))
            [] (index_pairs table_list);
  let d :=
    foldl (λ d c, dict_set {[c]} 0 d) d (hand_list (player g (current g))) in
  Ok (set_playable_sets g d).

Definition find_first_player (g : Game) : result Game :=
  if change_first g then
    minA ← min_hand (player g A);
    minB ← min_hand (player g B);
    let f := if minA <? minB then A else B in
    Ok (mkGame (num_cards g) (num_hand g) (num_table g) (change_first g)
          (depth g) (turn g) (u g) (playerA g) (playerB g) (table g)
          (turn_payoffs g) f f (playable_sets g))
  else
    Ok (mkGame (num_cards g) (num_hand g) (num_table g) (change_first g)
          (depth g) (turn g) (u g) (playerA g) (playerB g) (table g)
          (turn_payoffs g) A A (playable_sets g)).

(** [deal_cards]; the shuffled deck is [shuffle (list(range(2, n + 2)))]. *)
Definition deal_cards (shuffle : list Z → list Z) (g : Game) : result Game :=
  let cards := shuffle (py_range 2 (num_cards g + 2)) in
  '(pa, pb, cards) ←
    deal_loop (Z.to_nat (num_hand g)) (player g A) (player g B) cards;
  Ok (set_table (set_player (set_player g A pa) B pb) (list_to_set cards)).

(** [reset], on the configuration of [g].  The attributes [first] and
    [current] do not exist before [find_first_player] assigns them; the
    values they are given here are never read. *)
Definition reset (shuffle : list Z → list Z) (g : Game) : result Game :=
  let g := mkGame (num_cards g) (num_hand g) (num_table g) (change_first g)
             (depth g) 1 0 Player_init Player_init ∅ [] A A [] in
  g ← deal_cards shuffle g;
  g ← find_first_player g;
  find_playable_sets g.

(** [Game(num_cards, num_hand, num_table, change_first, depth)];
    [sys.exit()] is [Err SystemExit]. *)
Definition Game_init (shuffle : list Z → list Z)
    (num_cards num_hand num_table : Z) (change_first : bool) (depth : Z)
  : result Game :=
  if negb (num_cards =? num_hand * 2 + num_table) then Err SystemExit
  else reset shuffle
         (mkGame num_cards num_hand num_table change_first depth
            0 0 Player_init Player_init ∅ [] A A []).

Definition update_players (g : Game) (cards : gset Z) : Game :=
  let cur := current g in
  let p1 := player g cur in
  let p2 := player g (other cur) in
  let t := table g in
  let last_prime := obtain_last_prime p1 in
  let t := if negb (last_prime =? -1) && bool_decide (last_prime ∈ t)
           then t ∖ {[last_prime]} else t in
  let last_composite := obtain_last_composite p1 in
  let t := if negb (last_composite =? -1) && bool_decide (last_composite ∈ t)
           then t ∖ {[last_composite]} else t in
  let '(p1, p2) :=
    foldl (λ '(p1, p2) c,
             let '(p1, p2) :=
               if (size cards =? 3)%nat
               then (remove_stacks p1 c, remove_stacks p2 c)
               else (p1, p2) in
             (remove_hand p1 c, p2))
          (p1, p2) (iter cards) in
  let p1 := if (size cards =? 3)%nat
            then foldl add_stacks p1 (iter cards) else p1 in
  set_table (set_player (set_player g cur p1) (other cur) p2) t.

Definition update_table (g : Game) (cards : gset Z) : Game :=
  let p1 := player g (current g) in
  let p2 := player g (other (current g)) in
  let t :=
    foldl (λ (t : gset Z) c,
             let t := if bool_decide (c ∈ t) then t ∖ {[c]} else t in
             if negb (size cards =? 3)%nat then {[c]} ∪ t else t)
          (table g) (iter cards) in
  let last_prime := obtain_last_prime p1 in
  let t := if negb (last_prime =? -1) then {[last_prime]} ∪ t else t in
  let last_composite := obtain_last_composite p1 in
  let t := if negb (last_composite =? -1) then {[last_composite]} ∪ t
           else t in
  let last_prime := obtain_last_prime p2 in
  let t := if negb (last_prime =? -1) then {[last_prime]} ∪ t else t in
  let last_composite := obtain_last_composite p2 in
  let t := if negb (last_composite =? -1) then {[last_composite]} ∪ t
           else t in
  set_table g t.

(** The last four statements of [update], which are also the end of the
    loop body of [simulate]. *)
Definition next_turn (g : Game) : result Game :=
  let g := set_turn g (turn g + 1) in
  let g := set_current g (if decide (current g = A) then B else A) in
  find_playable_sets g.

Definition update (g : Game) (move : gset Z) (payoff : Z) : result Game :=
  let g := update_players g move in
  let g := update_table g move in
  let gain := if decide (first g = current g) then 1 else -1 in
  let g := set_u g (u g + gain * payoff) in
  next_turn g.

(** *** The search *)

(** What a call of [minimax] leaves behind and returns: the game, the list
    [game_states], and the pair [(minimax_move, minimax_payoff)].  The empty
    dictionary [{}] that stands for "no move" is the empty set: both have
    length 0 and no element. *)
Definition outcome : Type := Game * list GameState * (gset Z * num).

Section Loops.

(** The recursive call [self.minimax(game_states, alpha, beta)]. *)
Variable rec : Game → list GameState → num → num → result outcome.

(** The [for k, v in self.playable_sets.items()] loop of the maximizing
    player.  The dictionary being iterated is the object bound to
    [self.playable_sets] when the loop starts; [update] and [rollback] rebind
    the attribute to other objects and never change that one, so the loop
    runs over the fixed list [items]. *)
Fixpoint max_loop (items : dict) (g : Game) (game_states : list GameState)
    (alpha beta : num) (minimax_move : gset Z) (minimax_payoff : num)
  : result outcome :=
  match items with
  | [] => Ok (g, game_states, (minimax_move, minimax_payoff))
  | (k, v) :: items' =>
      let p := player g (current g) in
      if can_play_move p k then
        let minimax_move :=
          if (size minimax_move =? 0)%nat then k else minimax_move in
        let game_state := GameState_init g k v in
        let game_states := game_states ++ [game_state] in
        g ← update g k v;
        '(g, game_states, (next_move, next_payoff)) ←
          rec g game_states alpha beta;
        payoff ← num_add next_payoff v;
        let '(minimax_payoff, minimax_move) :=
          if num_ltb minimax_payoff payoff then (payoff, k)
          else (minimax_payoff, minimax_move) in
        '(gs, game_states) ← states_pop game_states;
        let g := rollback g gs in
        let alpha := num_max alpha minimax_payoff in
        if num_leb beta alpha
        then Ok (g, game_states, (minimax_move, minimax_payoff))
        else max_loop items' g game_states alpha beta
               minimax_move minimax_payoff
      else max_loop items' g game_states alpha beta
             minimax_move minimax_payoff
  end.

(** The same loop of the minimizing player. *)
Fixpoint min_loop (items : dict) (g : Game) (game_states : list GameState)
    (alpha beta : num) (minimax_move : gset Z) (minimax_payoff : num)
  : result outcome :=
  match items with
  | [] => Ok (g, game_states, (minimax_move, minimax_payoff))
  | (k, v) :: items' =>
      let p := player g (current g) in
      if can_play_move p k then
        let minimax_move :=
          if (size minimax_move =? 0)%nat then k else minimax_move in
        let game_state := GameState_init g k v in
        let game_states := game_states ++ [game_state] in
        g ← update g k v;
        '(g, game_states, (next_move, next_payoff)) ←
          rec g game_states alpha beta;
        payoff ← num_sub next_payoff v;
        let '(minimax_payoff, minimax_move) :=
          if num_ltb payoff minimax_payoff then (payoff, k)
          else (minimax_payoff, minimax_move) in
        '(gs, game_states) ← states_pop game_states;
        let g := rollback g gs in
        let beta := num_min beta minimax_payoff in
        if num_leb beta alpha
        then Ok (g, game_states, (minimax_move, minimax_payoff))
        else min_loop items' g game_states alpha beta
               minimax_move minimax_payoff
      else min_loop items' g game_states alpha beta
             minimax_move minimax_payoff
  end.

(** The two loops without the alpha/beta bookkeeping and without the
    [break]: plain minimax over the same items in the same order with the
    same strict comparisons.  [rec_plain] is the recursive call. *)
Variable rec_plain : Game → list GameState → result outcome.

Fixpoint max_loop_plain (items : dict) (g : Game)
    (game_states : list GameState) (minimax_move : gset Z)
    (minimax_payoff : num) : result outcome :=
  match items with
  | [] => Ok (g, game_states, (minimax_move, minimax_payoff))
  | (k, v) :: items' =>
      let p := player g (current g) in
      if can_play_move p k then
        let minimax_move :=
          if (size minimax_move =? 0)%nat then k else minimax_move in
        let game_state := GameState_init g k v in
        let game_states := game_states ++ [game_state] in
        g ← update g k v;
        '(g, game_states, (next_move, next_payoff)) ←
          rec_plain g game_states;
        payoff ← num_add next_payoff v;
        let '(minimax_payoff, minimax_move) :=
          if num_ltb minimax_payoff payoff then (payoff, k)
          else (minimax_payoff, minimax_move) in
        '(gs, game_states) ← states_pop game_states;
        let g := rollback g gs in
        max_loop_plain items' g game_states minimax_move minimax_payoff
      else max_loop_plain items' g game_states minimax_move minimax_payoff
  end.

Fixpoint min_loop_plain (items : dict) (g : Game)
    (game_states : list GameState) (minimax_move : gset Z)
    (minimax_payoff : num) : result outcome :=
  match items with
  | [] => Ok (g, game_states, (minimax_move, minimax_payoff))
  | (k, v) :: items' =>
      let p := player g (current g) in
      if can_play_move p k then
        let minimax_move :=
          if (size minimax_move =? 0)%nat then k else minimax_move in
        let game_state := GameState_init g k v in
        let game_states := game_states ++ [game_state] in
        g ← update g k v;
        '(g, game_states, (next_move, next_payoff)) ←
          rec_plain g game_states;
        payoff ← num_sub next_payoff v;
        let '(minimax_payoff, minimax_move) :=
          if num_ltb payoff minimax_payoff then (payoff, k)
          else (minimax_payoff, minimax_move) in
        '(gs, game_states) ← states_pop game_states;
        let g := rollback g gs in
        min_loop_plain items' g game_states minimax_move minimax_payoff
      else min_loop_plain items' g game_states minimax_move minimax_payoff
  end.

End Loops.

(** [len(game_states) >= self.depth] *)
Definition depth_reached (g : Game) (game_states : list GameState) : bool :=
  depth g <=? Z.of_nat (length game_states).

(** [minimax] with a bound [fuel] on the nesting of calls. *)
Fixpoint minimax_fuel (fuel : nat) (g : Game) (game_states : list GameState)
    (alpha beta : num) : result outcome :=
  match fuel with
  | O => Err OutOfFuel
  | S fuel' =>
      if is_over g || depth_reached g game_states then
        let minimax_move : gset Z := ∅ in
        let minimax_payoff := Int 0 in
        Ok (g, game_states, (minimax_move, minimax_payoff))
      else
        let minimax_move : gset Z := ∅ in
        let maximizing_player := turn g `mod` 2 =? 0 in
        if maximizing_player then
          let minimax_payoff := NegInf in
          max_loop (minimax_fuel fuel') (playable_sets g) g game_states
            alpha beta minimax_move minimax_payoff
        else
          let minimax_payoff := PosInf in
          min_loop (minimax_fuel fuel') (playable_sets g) g game_states
            alpha beta minimax_move minimax_payoff
  end.

(** Every call of [minimax] either returns at once or recurses on a list
    that is one longer, and returns at once when the list has [depth]
    elements: [depth - len(game_states)] nested calls and one more are
    enough. *)
Definition search_fuel (g : Game) (game_states : list GameState) : nat :=
  S (Z.to_nat (depth g - Z.of_nat (length game_states))).

Definition minimax (g : Game) (game_states : list GameState)
    (alpha beta : num) : result outcome :=
  minimax_fuel (search_fuel g game_states) g game_states alpha beta.

Definition minimax_play (g : Game) : result (Game * (gset Z * Z)) :=
  let game_states := [] in
  '(g, _, (minimax_move, _)) ← minimax g game_states NegInf PosInf;
  let minimax_payoff := calculate_move_payoff g minimax_move in
  Ok (g, (minimax_move, minimax_payoff)).

(** Plain minimax, for comparison with the search above. *)
Fixpoint minimax_plain_fuel (fuel : nat) (g : Game)
    (game_states : list GameState) : result outcome :=
  match fuel with
  | O => Err OutOfFuel
  | S fuel' =>
      if is_over g || depth_reached g game_states then
        Ok (g, game_states, (∅, Int 0))
      else if turn g `mod` 2 =? 0 then
        max_loop_plain (minimax_plain_fuel fuel') (playable_sets g) g
          game_states ∅ NegInf
      else
        min_loop_plain (minimax_plain_fuel fuel') (playable_sets g) g
          game_states ∅ PosInf
  end.

Definition minimax_plain (g : Game) (game_states : list GameState)
  : result outcome :=
  minimax_plain_fuel (search_fuel g game_states) g game_states.

Definition minimax_play_plain (g : Game) : result (Game * (gset Z * Z)) :=
  '(g, _, (minimax_move, _)) ← minimax_plain g [];
  Ok (g, (minimax_move, calculate_move_payoff g minimax_move)).

(** *** The strategies and the simulation *)

(** [random_play]; [r] is the random index of [get_random_card]. *)
Definition random_play (r : nat) (g : Game) : result (gset Z * Z) :=
  let p := player g (current g) in
  card ← get_random_card r p;
  match List.find (λ '(k, v), bool_decide (card ∈ k)) (playable_sets g) with
  | Some (k, v) => Ok (k, v)
  | None => Ok ({[card]}, 0)
  end.

(** [greedy_play] *)
Definition greedy_play (r : nat) (g : Game) : result (gset Z * Z) :=
  let p := player g (current g) in
  let max_payoff := 0 in
  card ← get_random_card r p;
  let max_move : gset Z := {[card]} in
  Ok (foldl (λ '(max_move, max_payoff) '(k, v),
               if can_play_move p k && (max_payoff <? v) then (k, v)
               else (max_move, max_payoff))
            (max_move, max_payoff) (playable_sets g)).

(** [strategies[self.current]] *)
Definition strategy_of (strategies : list string) (i : idx) : result string :=
  match strategies !! Z.to_nat (idx_Z i) with
  | Some s => Ok s
  | None => Err IndexError
  end.

(** The second half of a round of [simulate]: the found move is played,
    the running payoff is recorded, and the turn passes. *)
Definition play_move (g : Game) (play : gset Z) (payoff : Z) : result Game :=
  let g := update_players g play in
  let g := update_table g play in
  let gain := if decide (first g = current g) then 1 else -1 in
  let g := set_u g (u g + gain * payoff) in
  let g := set_turn_payoffs g (turn_payoffs g ++ [u g]) in
  next_turn g.

(** One round of the [while] loop of [simulate].  The variables [play] and
    [payoff] survive from one round to the next; [prev] is their value when
    the round starts, [None] while they are unbound.  The three tests on the
    strategy name exclude one another, so a round draws at most one random
    number, [r]. *)
Definition simulate_turn (r : nat) (strategies : list string) (g : Game)
    (prev : option (gset Z * Z)) : result (Game * option (gset Z * Z)) :=
  s ← strategy_of strategies (current g);
  prev ← (if String.eqb s RANDOM
          then mv ← random_play r g; Ok (Some mv) else Ok prev);
  s ← strategy_of strategies (current g);
  prev ← (if String.eqb s GREEDY
          then mv ← greedy_play r g; Ok (Some mv) else Ok prev);
  s ← strategy_of strategies (current g);
  '(g, prev) ← (if String.eqb s MINIMAX
                then '(g, mv) ← minimax_play g; Ok (g, Some mv)
                else Ok (g, prev));
  match prev with
  | None => Err UnboundLocalError
  | Some (play, payoff) =>
      g ← play_move g play payoff;
      Ok (g, Some (play, payoff))
  end.

(** [simulate], with at most [fuel] rounds of the loop; round [i] draws the
    random number [rnd i].  The result is the game as the call leaves it and
    the returned triple [(self.first, winner, self.u)]. *)
Fixpoint simulate_fuel (fuel : nat) (rnd : nat → nat)
    (strategies : list string) (g : Game) (prev : option (gset Z * Z))
  : result (Game * (Z * Z * Z)) :=
  if negb (is_over g) then
    match fuel with
    | O => Err OutOfFuel
    | S fuel' =>
        '(g, prev) ← simulate_turn (rnd O) strategies g prev;
        simulate_fuel fuel' (λ i, rnd (S i)) strategies g prev
    end
  else
    let winner := get_winner g in
    Ok (g, (idx_Z (first g), winner, u g)).

Definition simulate (fuel : nat) (rnd : nat → nat) (strategies : list string)
    (g : Game) : result (Game * (Z * Z * Z)) :=
  simulate_fuel fuel rnd strategies g None.

(** The loop of [multiple_simulate], for the [n] elements of [range(n)]:
    each time a simulation of at most [fuel] rounds, its result recorded in
    the statistics, and a reset.  Run [i] shuffles with [shuffles i] and
    draws the random numbers [rnds i].  ([multiple_simulate] then calls
    [calculate], which works in floats.) *)
Fixpoint multiple_simulate_loop (n : nat) (fuel : nat)
    (shuffles : nat → list Z → list Z) (rnds : nat → nat → nat)
    (strategies : list string) (g : Game) (game_stats : Statistics.t)
  : result (Game * Statistics.t) :=
  match n with
  | O => Ok (g, game_stats)
  | S n' =>
      '(g, (first, winner, u)) ← simulate fuel (rnds O) strategies g;
      game_stats ←
        Statistics.update game_stats first winner u (turn_payoffs g);
      g ← reset (shuffles O) g;
      multiple_simulate_loop n' fuel (λ i, shuffles (S i)) (λ i, rnds (S i))
        strategies g game_stats
  end.

(** *** The scoring rule in the words of the specification *)

(** The "obtained" leg: 2 for a prime that the acting player's prime stack
    lacks, else 1 for a composite that the acting player's composite stack
    lacks. *)
Definition obtained_score (p1 : Player) (c : Z) : Z :=
  if is_prime c && negb (bool_decide (c ∈ primes p1)) then 2
  else if negb (is_prime c) && negb (bool_decide (c ∈ composites p1)) then 1
       else 0.

(** The "stolen" leg: 2 for a prime in the opponent's prime stack, else 1
    for a composite in the opponent's composite stack. *)
Definition stolen_score (p2 : Player) (c : Z) : Z :=
  if is_prime c && bool_decide (c ∈ primes p2) then 2
  else if negb (is_prime c) && bool_decide (c ∈ composites p2) then 1
       else 0.

Definition sum_list (l : list Z) : Z := foldr Z.add 0 l.

Definition payoff_spec (g : Game) (card_set : gset Z) : Z :=
  if decide (size card_set = 3%nat) then
    sum_list (map (λ c, obtained_score (player g (current g)) c
                        + stolen_score (player g (other (current g))) c)
                  (elements card_set))
  else 0.

(** *** Properties of all the cards of a game *)

Definition player_all (Q : Z → Prop) (p : Player) : Prop :=
  set_Forall Q (hand p) ∧ Forall Q (primes p) ∧ Forall Q (composites p).

Definition cards_all (Q : Z → Prop) (g : Game) : Prop :=
  set_Forall Q (table g) ∧ player_all Q (playerA g) ∧ player_all Q (playerB g)
  ∧ Forall (λ kv : gset Z * Z, set_Forall Q kv.1) (playable_sets g).

(** *** The invariant of play *)

(** A stack holds cards of its own kind, once each. *)
Definition typed (p : Player) : Prop :=
  Forall (λ c, is_prime c = true) (primes p)
  ∧ Forall (λ c, is_prime c = false) (composites p)
  ∧ NoDup (primes p) ∧ NoDup (composites p).

(** The only card of the stack [l] that may lie on the table [t] is its
    last. *)
Definition top_only (t : gset Z) (l : list Z) : Prop :=
  ∀ c, c ∈ t → c ∈ l → last l = Some c.

(** The position of two players and a table: the hands and the table are
    pairwise disjoint, no hand card is in a stack, the stacks are typed and
    share no card, and the table meets a stack in its last card at most. *)
Definition position_inv (p1 p2 : Player) (t : gset Z) : Prop :=
  (hand p1 ## hand p2) ∧ (t ## hand p1) ∧ (t ## hand p2)
  ∧ (∀ c, c ∈ hand p1 ∨ c ∈ hand p2 →
          (c ∉ primes p1) ∧ (c ∉ composites p1)
          ∧ (c ∉ primes p2) ∧ (c ∉ composites p2))
  ∧ typed p1 ∧ typed p2
  ∧ (∀ c, c ∈ primes p1 → c ∉ primes p2)
  ∧ (∀ c, c ∈ composites p1 → c ∉ composites p2)
  ∧ top_only t (primes p1) ∧ top_only t (composites p1)
  ∧ top_only t (primes p2) ∧ top_only t (composites p2).

(** The invariant: every card is a card of the deck, the position is as
    above, and the playable-move table is the one of the position. *)
Definition game_inv (g : Game) : Prop :=
  cards_all (λ c, 2 ≤ c ≤ num_cards g + 1) g
  ∧ position_inv (playerA g) (playerB g) (table g)
  ∧ find_playable_sets g = Ok g.

(** The stack [l] without the cards of [k]. *)
Definition keep_out (k : gset Z) (l : list Z) : list Z :=
  filter (λ x, x ∉ k) l.

(** The last card of a stack, as a set. *)
Definition last_set (l : list Z) : gset Z :=
  match last l with
  | Some x => {[x]}
  | None => ∅
  end.

(** The active player after [update_players]: the played cards leave the
    hand, and a combination goes on top of the stacks. *)
Definition mover_after (k : gset Z) (p1 : Player) : Player :=
  if (size k =? 3)%nat then
    mkPlayer (hand p1 ∖ k)
      (keep_out k (primes p1) ++ filter (λ c, is_prime c = true) (iter k))
      (keep_out k (composites p1)
       ++ filter (λ c, is_prime c = false) (iter k))
  else mkPlayer (hand p1 ∖ k) (primes p1) (composites p1).

(** The other player after [update_players]: a combination takes its cards
    out of the stacks. *)
Definition other_after (k : gset Z) (p2 : Player) : Player :=
  if (size k =? 3)%nat then
    mkPlayer (hand p2) (keep_out k (primes p2)) (keep_out k (composites p2))
  else p2.

(** The table after [update_players] and [update_table], for the players
    [p1] and [p2] before the move. *)
Definition table_after (k : gset Z) (p1 p2 : Player) (t : gset Z) : gset Z :=
  let t1 := t ∖ last_set (primes p1) ∖ last_set (composites p1) in
  let t2 := if (size k =? 3)%nat then t1 ∖ k else t1 ∪ k in
  t2 ∪ last_set (primes (mover_after k p1))
     ∪ last_set (composites (mover_after k p1))
     ∪ last_set (primes (other_after k p2))
     ∪ last_set (composites (other_after k p2)).

(** What the active player may play: a combination of three cards made
    of one hand card and two table cards, or else cards of the hand (a
    singleton; the empty move of a search that found nothing). *)
Definition move_ok (k : gset Z) (p1 : Player) (t : gset Z) : Prop :=
  if (size k =? 3)%nat
  then ∃ c3, c3 ∈ k ∧ c3 ∈ hand p1 ∧ k ∖ {[c3]} ⊆ t
  else k ⊆ hand p1.

(** The moves that the strategies and the search play: the empty move (a
    search that found nothing), the singleton of a card of the active hand,
    or a key of the playable-move table that the active player can play. *)
Definition legal_move (g : Game) (k : gset Z) : Prop :=
  k = ∅
  ∨ (∃ c, c ∈ hand (player g (current g)) ∧ k = {[c]})
  ∨ (∃ v, (k, v) ∈ playable_sets g
          ∧ can_play_move (player g (current g)) k = true).

(** The strategies of [simulate] that the invariant is proved for. *)
Definition known_strategies (strategies : list string) : Prop :=
  Forall (λ s, s = RANDOM ∨ s = GREEDY ∨ s = MINIMAX) strategies.

(** The games that play can reach: a new game, the game after a reset, the
    game after [update] with a legal move (the search), the game after a
    round of [simulate]. *)
Inductive reachable : Game → Prop :=
| reach_new shuffle nc nh nt cf d g :
    shuffle (py_range 2 (nc + 2)) ≡ₚ py_range 2 (nc + 2) →
    Game_init shuffle nc nh nt cf d = Ok g →
    reachable g
| reach_reset shuffle g g' :
    reachable g →
    shuffle (py_range 2 (num_cards g + 2)) ≡ₚ py_range 2 (num_cards g + 2) →
    reset shuffle g = Ok g' →
    reachable g'
| reach_update g k v g' :
    reachable g → legal_move g k → update g k v = Ok g' →
    reachable g'
| reach_round r strategies g prev g' prev' :
    reachable g → known_strategies strategies →
    simulate_turn r strategies g prev = Ok (g', prev') →
    reachable g'.

(** The number of cards in hand, and the balance of the two hands: the
    active player holds as many cards as the other, or one more. *)
Definition cards_in_hand (g : Game) : nat :=
  size (hand (playerA g)) + size (hand (playerB g)).

Definition balanced (g : Game) : Prop :=
  (size (hand (player g (other (current g))))
   ≤ size (hand (player g (current g)))
   ≤ S (size (hand (player g (other (current g))))))%nat.

(** *** What the search loops keep *)

(** The values of the playable-move table are doubles. *)
Definition payoffs_fit (g : Game) : bool :=
  forallb (λ kv : gset Z * Z, fits_double kv.2) (playable_sets g).

(** What the loops need of the recursive call: on a game with the
    configuration of [g], no card 0 and table values that are doubles, and
    a list of [n] snapshots, it returns, and leaves the game and the list as
    they were. *)
Definition restoring (rec : Game → list GameState → num → num → result outcome)
    (g : Game) (n : nat) : Prop :=
  ∀ g1 l a b, length l = n → config g1 = config g →
              cards_all (λ c, c ≠ 0) g1 → payoffs_fit g1 = true →
              ∃ mv, rec g1 l a b = Ok (g1, l, mv).

(** A recursive call that has reached the depth: on a game with the
    configuration of [g] and a list of [n] snapshots it returns the empty
    move with payoff 0, and leaves the game and the list as they were. *)
Definition at_depth (rec : Game → list GameState → num → num → result outcome)
    (g : Game) (n : nat) : Prop :=
  ∀ g1 l a b, length l = n → config g1 = config g →
              rec g1 l a b = Ok (g1, l, (∅, Int 0)).

(** The move a loop hands back is the one it started with or a key it
    could play. *)
Definition chosen_from (g : Game) (items : dict) (mm mm' : gset Z) : Prop :=
  mm' = mm ∨
  ∃ v, (mm', v) ∈ items ∧ can_play_move (player g (current g)) mm' = true.

(** *** Comparing the two searches on the four-card game *)


(** *** Where the cards are *)

(** The card [x] is somewhere in the position: in a hand, on the table or
    in a stack. *)
Definition in_position (p1 p2 : Player) (t : gset Z) (x : Z) : Prop :=
  x ∈ hand p1 ∨ x ∈ hand p2 ∨ x ∈ t
  ∨ x ∈ primes p1 ∨ x ∈ composites p1 ∨ x ∈ primes p2 ∨ x ∈ composites p2.

Definition in_game (g : Game) (x : Z) : Prop :=
  in_position (playerA g) (playerB g) (table g) x.

(** The last card of every stack lies on the table. *)
Definition tops_on_table (p1 p2 : Player) (t : gset Z) : Prop :=
  last_set (primes p1) ⊆ t ∧ last_set (composites p1) ⊆ t
  ∧ last_set (primes p2) ⊆ t ∧ last_set (composites p2) ⊆ t.

(** * Proofs *)

(** Whatever the order of iteration, a set is run through once. *)
Hypothesis iter_perm : ∀ s : gset Z, iter s ≡ₚ elements s.

Lemma iter_elem_of (s : gset Z) (x : Z) : x ∈ iter s ↔ x ∈ s.
Proof. rewrite iter_perm. apply elem_of_elements. Qed.

Lemma iter_NoDup (s : gset Z) : NoDup (iter s).
Proof. rewrite iter_perm. apply NoDup_elements. Qed.

Lemma iter_length (s : gset Z) : length (iter s) = size s.
Proof. by rewrite iter_perm. Qed.

(** ** find_playable_cards *)

Lemma elem_of_cond_snoc (b : bool) (l : list Z) (a x : Z) :
  x ∈ (if b then l ++ [a] else l) ↔ x ∈ l ∨ (b = true ∧ x = a).
Proof using.
  clear is_prime iter iter_perm.
  destruct b.
  - rewrite elem_of_app, list_elem_of_singleton. intuition congruence.
  - intuition congruence.
Qed.

Lemma find_playable_cards_error (n c1 c2 : Z) :
  c1 = 0 ∨ c2 = 0 → find_playable_cards n c1 c2 = Err ZeroDivisionError.
Proof using.
  clear is_prime iter iter_perm.
  intros H. unfold find_playable_cards, floordiv.
  destruct (decide (c2 = 0)) as [|H2]; [done|].
  destruct (decide (c1 = 0)) as [|H1]; [done|]. by destruct H.
Qed.

Lemma find_playable_cards_ok (n c1 c2 : Z) :
  c1 ≠ 0 → c2 ≠ 0 → ∃ l, find_playable_cards n c1 c2 = Ok l.
Proof using.
  clear is_prime iter iter_perm.
  intros H1 H2. unfold find_playable_cards, floordiv.
  destruct (decide (c2 = 0)) as [|_]; [done|].
  destruct (decide (c1 = 0)) as [|_]; [done|].
  cbn [mbind result_bind]. by eexists.
Qed.

Lemma find_playable_cards_elem (n c1 c2 : Z) (l : list Z) (v : Z) :
  find_playable_cards n c1 c2 = Ok l →
  v ∈ l ↔
  (2 ≤ v ≤ n + 1 ∧
   (v = c1 + c2 ∨ v = Z.abs (c1 - c2) ∨ v = c1 * c2 ∨
    (c1 `mod` c2 = 0 ∧ v = c1 / c2) ∨ (c2 `mod` c1 = 0 ∧ v = c2 / c1))).
Proof using.
  clear is_prime iter iter_perm.
  unfold find_playable_cards, floordiv.
  destruct (decide (c2 = 0)) as [|_]; [done|].
  destruct (decide (c1 = 0)) as [|_]; [done|].
  cbn [mbind result_bind].
  match goal with
  | |- Ok ?t = Ok l → _ => intros E; assert (l = t) as -> by congruence
  end.
  clear E.
  generalize (c1 + c2) (Z.abs (c1 - c2)) (c1 * c2) (c1 / c2) (c2 / c1)
    (c1 `mod` c2) (c2 `mod` c1).
  intros s d m q1 q2 r1 r2.
  rewrite !elem_of_cond_snoc, elem_of_nil, !andb_true_iff, !Z.ltb_lt,
    !Z.eqb_eq.
  split.
  - intros [[[[[[]|[? ->]]|[? ->]]|[? ->]]|[? ->]]|[? ->]];
      (split; [lia|]); tauto.
  - intros [Hv [->|[->|[->|[[? ->]|[? ->]]]]]];
      [do 4 left; right|do 3 left; right|do 2 left; right|left; right|right];
      (split; [|done]); repeat split; try done; lia.
Qed.

Lemma find_playable_cards_range (n c1 c2 : Z) (l : list Z) (v : Z) :
  find_playable_cards n c1 c2 = Ok l → v ∈ l → 2 ≤ v ≤ n + 1.
Proof using.
  clear is_prime iter iter_perm.
  intros E Hv. by apply (find_playable_cards_elem n c1 c2 l v E) in Hv as [? _].
Qed.

(** C6. For nonzero [c1] and [c2] (every card is at least 2)
    [find_playable_cards] returns a list whose members are exactly the values
    in [2, num_cards + 1] among [c1 + c2], [|c1 - c2|], [c1 * c2], [c1 / c2]
    when [c2] divides [c1] and [c2 / c1] when [c1] divides [c2]. *)
Theorem find_playable_cards_exact (n c1 c2 : Z) :
  c1 ≠ 0 → c2 ≠ 0 →
  ∃ l, find_playable_cards n c1 c2 = Ok l ∧
       ∀ v, v ∈ l ↔
            (2 ≤ v ≤ n + 1 ∧
             (v = c1 + c2 ∨ v = Z.abs (c1 - c2) ∨ v = c1 * c2 ∨
              (c1 `mod` c2 = 0 ∧ v = c1 / c2) ∨
              (c2 `mod` c1 = 0 ∧ v = c2 / c1))).
Proof using.
  clear is_prime iter iter_perm.
  intros H1 H2.
  destruct (find_playable_cards_ok n c1 c2 H1 H2) as [l E].
  exists l. split; [done|].
  intros v. by apply find_playable_cards_elem.
Qed.

(** ** calculate_move_payoff *)

Lemma card_payoff_scores (p1 p2 : Player) (payoff c : Z) :
  card_payoff p1 p2 payoff c
  = payoff + (obtained_score p1 c + stolen_score p2 c).
Proof.
  unfold card_payoff, obtained_score, stolen_score, prime_contains,
    composite_contains, PRIME_SCORE, COMPOSITE_SCORE.
  destruct (is_prime c); cbn [andb negb];
    repeat case_bool_decide; cbn [andb negb]; lia.
Qed.

Lemma foldl_card_payoff (p1 p2 : Player) (l : list Z) (a : Z) :
  foldl (card_payoff p1 p2) a l
  = a + sum_list (map (λ c, obtained_score p1 c + stolen_score p2 c) l).
Proof.
  revert a. induction l as [|c l IH]; intros a; cbn [foldl map sum_list foldr].
  - lia.
  - rewrite IH, card_payoff_scores. unfold sum_list. lia.
Qed.

#[local] Instance sum_list_perm : Proper ((≡ₚ) ==> (=)) sum_list.
Proof.
  intros l1 l2 Hp. unfold sum_list.
  induction Hp; cbn [foldr]; lia.
Qed.

Lemma score_bounds (p1 p2 : Player) (c : Z) :
  0 ≤ obtained_score p1 c + stolen_score p2 c ≤ 4.
Proof.
  unfold obtained_score, stolen_score.
  destruct (is_prime c); cbn [andb negb];
    repeat case_bool_decide; cbn [andb negb]; lia.
Qed.

Lemma sum_list_bounds (f : Z → Z) (b : Z) (l : list Z) :
  (∀ c, 0 ≤ f c ≤ b) →
  0 ≤ sum_list (map f l) ≤ b * Z.of_nat (length l).
Proof.
  intros Hf. induction l as [|c l IH]; cbn [map sum_list foldr length].
  - lia.
  - specialize (Hf c). unfold sum_list in IH. lia.
Qed.

(** C5. [calculate_move_payoff] is 0 on every card set whose size is not 3,
    and on a set of three cards it is the sum over the cards of the
    "obtained" score and, independently, the "stolen" score. *)
Theorem calculate_move_payoff_spec (g : Game) (card_set : gset Z) :
  calculate_move_payoff g card_set = payoff_spec g card_set.
Proof.
  unfold calculate_move_payoff, payoff_spec.
  destruct (decide (size card_set = 3%nat)) as [E|E].
  - rewrite E. cbn [Nat.eqb negb].
    rewrite foldl_card_payoff, (iter_perm card_set). lia.
  - apply Nat.eqb_neq in E. by rewrite E.
Qed.

(** The entry stored by [dict_set] is the only new entry of the
    dictionary. *)
Lemma dict_set_Forall (P : gset Z * Z → Prop) (k : gset Z) (v : Z) (d : dict) :
  P (k, v) → Forall P d → Forall P (dict_set k v d).
Proof.
  intros Hv. induction 1 as [|[k' v'] d Hkv Hd IH]; cbn [dict_set].
  - by repeat constructor.
  - destruct (decide (k' = k)) as [->|]; constructor; done.
Qed.

Lemma foldl_invariant {S T : Type} (P : S → Prop) (f : S → T → S)
    (l : list T) (s : S) :
  P s → (∀ s x, P s → x ∈ l → P (f s x)) → P (foldl f s l).
Proof.
  revert s. induction l as [|x l IH]; intros s Hs Hf; cbn [foldl]; [done|].
  apply IH.
  - apply Hf; [done|left].
  - intros s' y Hs' Hy. apply Hf; [done|by right].
Qed.

Lemma foldM_invariant {S T : Type} (P : S → Prop) (f : S → T → result S)
    (l : list T) (s s' : S) :
  P s → (∀ s x s', P s → x ∈ l → f s x = Ok s' → P s') →
  foldM f s l = Ok s' → P s'.
Proof.
  revert s. induction l as [|x l IH]; intros s Hs Hf; cbn [foldM].
  - by intros [= <-].
  - destruct (f s x) as [s1|e] eqn:E; cbn [mbind result_bind]; [|done].
    apply IH.
    + eapply Hf; [done|left|done].
    + intros s2 y s3 Hs2 Hy. apply Hf; [done|by right].
Qed.

Lemma calculate_move_payoff_bounds (g : Game) (card_set : gset Z) :
  0 ≤ calculate_move_payoff g card_set ≤ 12.
Proof.
  unfold calculate_move_payoff.
  destruct (size card_set =? 3)%nat eqn:E; cbn [negb]; [|lia].
  apply Nat.eqb_eq in E. rewrite foldl_card_payoff.
  pose proof (sum_list_bounds
    (λ c, obtained_score (player g (current g)) c
          + stolen_score (player g (other (current g))) c) 4
    (iter card_set) (score_bounds _ _)) as Hb.
  rewrite iter_length, E in Hb. lia.
Qed.

Lemma index_pairs_elem_of (l : list Z) (c1 c2 : Z) :
  (c1, c2) ∈ index_pairs l → c1 ∈ l ∧ c2 ∈ l.
Proof.
  induction l as [|x l IH]; cbn [index_pairs]; [by rewrite elem_of_nil|].
  rewrite elem_of_app, list_elem_of_fmap.
  intros [(y & [= -> ->] & Hy)|H].
  - split; [left|by right].
  - destruct (IH H). split; by right.
Qed.

(** Every entry of the table built by [find_playable_sets] is a triple made
    of two table cards and a card value in range, with its payoff, or the
    singleton of a card of the active hand, with payoff 0. *)
Lemma find_playable_sets_entries (P : gset Z * Z → Prop) (g g' : Game) :
  (∀ c1 c2 c3, c1 ∈ table g → c2 ∈ table g → 2 ≤ c3 ≤ num_cards g + 1 →
               size ({[c1; c2; c3]} : gset Z) = 3%nat →
               P ({[c1; c2; c3]},
                  calculate_move_payoff g {[c1; c2; c3]})) →
  (∀ c, c ∈ hand (player g (current g)) → P ({[c]}, 0)) →
  find_playable_sets g = Ok g' →
  Forall P (playable_sets g').
Proof.
  intros H3 H1. unfold find_playable_sets.
  destruct (foldM _ _ _) as [d|e] eqn:E; cbn [mbind result_bind]; [|done].
  intros [= <-]. cbn [set_playable_sets playable_sets].
  apply foldl_invariant.
  - revert E. apply foldM_invariant; [constructor|].
    intros d1 [c1 c2] d2 Hd1 Hc.
    apply index_pairs_elem_of in Hc as [Hc1 Hc2].
    apply iter_elem_of in Hc1, Hc2.
    destruct (find_playable_cards _ _ _) as [pc|] eqn:Epc;
      cbn [mbind result_bind]; [|done].
    intros [= <-]. apply foldl_invariant; [done|].
    intros d3 c3 Hd3 Hc3. unfold add_playable.
    destruct (_ =? _)%nat eqn:E3; [|done].
    apply Nat.eqb_eq in E3.
    apply dict_set_Forall; [|done].
    apply H3; try done. by eapply find_playable_cards_range.
  - intros d1 c Hd1 Hc. apply dict_set_Forall; [|done].
    apply H1. by apply iter_elem_of.
Qed.

Lemma find_playable_sets_frame (g g' : Game) :
  find_playable_sets g = Ok g' →
  g' = set_playable_sets g (playable_sets g').
Proof.
  unfold find_playable_sets.
  destruct (foldM _ _ _) as [d|e]; cbn [mbind result_bind]; [|done].
  by intros [= <-].
Qed.

Lemma foldM_ok {S T : Type} (f : S → T → result S) (l : list T) (s : S) :
  (∀ s x, x ∈ l → ∃ s', f s x = Ok s') → ∃ s', foldM f s l = Ok s'.
Proof.
  revert s. induction l as [|x l IH]; intros s Hf; cbn [foldM]; [by eexists|].
  destruct (Hf s x) as [s1 ->]; [left|]. cbn [mbind result_bind].
  apply IH. intros s2 y Hy. apply Hf. by right.
Qed.

(** [find_playable_sets] fails only by dividing by a card that is 0. *)
Lemma find_playable_sets_ok (g : Game) :
  0 ∉ table g → ∃ g', find_playable_sets g = Ok g'.
Proof.
  intros H0. unfold find_playable_sets.
  match goal with
  | |- context [foldM ?f ?s ?l] => destruct (foldM_ok f l s) as [d ->]
  end; [|by eexists].
  intros d [c1 c2] Hc.
  apply index_pairs_elem_of in Hc as [Hc1 Hc2].
  apply iter_elem_of in Hc1, Hc2.
  destruct (find_playable_cards_ok (num_cards g) c1 c2) as (l & ->);
    [by intros -> | by intros -> |].
  by eexists.
Qed.

(** C10. [calculate_move_payoff] is never negative and never more than 12
    (three cards, at most 2 + 2 each), so no entry of the playable-move
    table that [find_playable_sets] builds has a negative payoff. *)
Theorem payoff_nonnegative_bounded (g : Game) (card_set : gset Z) :
  0 ≤ calculate_move_payoff g card_set ≤ 12 ∧
  ∀ g' k v, find_playable_sets g = Ok g' → (k, v) ∈ playable_sets g' →
            0 ≤ v ≤ 12.
Proof.
  split; [apply calculate_move_payoff_bounds|].
  intros g' k v Hg' Hkv.
  pose proof (find_playable_sets_entries
                (λ kv, 0 ≤ kv.2 ≤ 12) g g') as HF.
  cbn [snd] in HF. rewrite Forall_forall in HF.
  apply (HF (λ _ _ _ _ _ _ _, calculate_move_payoff_bounds g _)
            ltac:(lia) Hg' (k, v) Hkv).
Qed.

(** ** Which cards a turn can put where *)

Lemma set_nonzero_all (s : gset Z) : 0 ∉ s ↔ set_Forall (λ c, c ≠ 0) s.
Proof.
  unfold set_Forall. split.
  - intros H x Hx ->. done.
  - intros H Hx. by apply (H 0 Hx).
Qed.

Lemma list_nonzero_all (l : list Z) : 0 ∉ l ↔ Forall (λ c, c ≠ 0) l.
Proof.
  rewrite Forall_forall. split.
  - intros H x Hx ->. done.
  - intros H Hx. by apply (H 0 Hx).
Qed.

Lemma player_nonzero_all (p : Player) :
  player_nonzero p = true ↔ player_all (λ c, c ≠ 0) p.
Proof.
  unfold player_nonzero, player_all.
  rewrite !andb_true_iff, !bool_decide_eq_true.
  rewrite set_nonzero_all, !list_nonzero_all. tauto.
Qed.

Lemma cards_nonzero_all (g : Game) :
  cards_nonzero g = true ↔ cards_all (λ c, c ≠ 0) g.
Proof.
  unfold cards_nonzero, cards_all.
  rewrite !andb_true_iff, !bool_decide_eq_true, !player_nonzero_all.
  rewrite set_nonzero_all.
  assert (forallb (λ kv : gset Z * Z, bool_decide (0 ∉ kv.1))
            (playable_sets g) = true
          ↔ Forall (λ kv : gset Z * Z, set_Forall (λ c, c ≠ 0) kv.1)
              (playable_sets g)) as ->; [|tauto].
  induction (playable_sets g) as [|kv d IH]; cbn [forallb].
  - split; [constructor|done].
  - rewrite andb_true_iff, bool_decide_eq_true, Forall_cons, IH,
      set_nonzero_all. tauto.
Qed.

Lemma remove_first_subseteq (c : Z) (l : list Z) : remove_first c l ⊆ l.
Proof.
  induction l as [|x l IH]; cbn [remove_first]; [done|].
  destruct (decide (x = c)); [set_solver|set_solver].
Qed.

Lemma Forall_remove_first (Q : Z → Prop) (c : Z) (l : list Z) :
  Forall Q l → Forall Q (remove_first c l).
Proof.
  rewrite !Forall_forall. intros H x Hx.
  apply H. by apply (remove_first_subseteq c l).
Qed.

Section CardsAll.

Variable Q : Z → Prop.

Lemma remove_hand_all (p : Player) (c : Z) :
  player_all Q p → player_all Q (remove_hand p c).
Proof.
  unfold remove_hand, player_all. intros (Hh & Hp & Hc).
  destruct (decide (c ∈ hand p)); cbn; [|done].
  split; [|done]. intros x Hx. apply Hh. set_solver.
Qed.

Lemma remove_prime_all (p : Player) (c : Z) :
  player_all Q p → player_all Q (remove_prime p c).
Proof.
  unfold remove_prime, player_all. intros (Hh & Hp & Hc).
  destruct (prime_contains p c); cbn; [|done].
  auto using Forall_remove_first.
Qed.

Lemma remove_composite_all (p : Player) (c : Z) :
  player_all Q p → player_all Q (remove_composite p c).
Proof.
  unfold remove_composite, player_all. intros (Hh & Hp & Hc).
  destruct (composite_contains p c); cbn; [|done].
  auto using Forall_remove_first.
Qed.

Lemma remove_stacks_all (p : Player) (c : Z) :
  player_all Q p → player_all Q (remove_stacks p c).
Proof.
  unfold remove_stacks. intros H.
  destruct (_ && _); [by apply remove_prime_all|].
  destruct (_ && _); [by apply remove_composite_all|done].
Qed.

Lemma add_stacks_all (p : Player) (c : Z) :
  Q c → player_all Q p → player_all Q (add_stacks p c).
Proof.
  unfold add_stacks. intros Hc H.
  destruct (is_prime c).
  - assert (player_all Q
      (if prime_contains p c then remove_prime p c else p)) as (?&?&?)
      by (destruct (prime_contains p c); auto using remove_prime_all).
    unfold add_prime, player_all; cbn.
    rewrite Forall_app, Forall_singleton. auto.
  - assert (player_all Q
      (if composite_contains p c then remove_composite p c else p))
      as (?&?&?)
      by (destruct (composite_contains p c); auto using remove_composite_all).
    unfold add_composite, player_all; cbn.
    rewrite Forall_app, Forall_singleton. auto.
Qed.

Lemma last_or_minus1_all (l : list Z) :
  Forall Q l → last_or_minus1 l ≠ -1 → Q (last_or_minus1 l).
Proof.
  unfold last_or_minus1. intros Hl Hne.
  destruct (last l) as [x|] eqn:E; [|done].
  rewrite Forall_forall in Hl. apply Hl.
  rewrite last_lookup in E. by eapply list_elem_of_lookup_2.
Qed.

Lemma player_cases (P : idx → Prop) : P A → P B → ∀ i, P i.
Proof. intros ?? []; done. Qed.

Lemma update_players_all (g : Game) (cards : gset Z) :
  set_Forall Q cards → cards_all Q g → cards_all Q (update_players g cards).
Proof.
  intros Hk (Ht & HA & HB & Hd). unfold update_players.
  assert (Hp : ∀ i, player_all Q (player g i)) by (by apply player_cases).
  match goal with
  | |- context [foldl ?f ?s0 ?l] =>
      pose proof (foldl_invariant
        (λ pp : Player * Player, player_all Q pp.1 ∧ player_all Q pp.2)
        f l s0) as Hloop;
      destruct (foldl f s0 l) as [p1 p2]
  end.
  destruct Hloop as [Hp1 Hp2]; [split; apply Hp| |].
  { intros [q1 q2] c [Hq1 Hq2] _. cbn [fst snd] in *.
    destruct (_ =? _)%nat; cbn [fst snd];
      auto using remove_hand_all, remove_stacks_all. }
  cbn [fst snd] in *.
  assert (Hp1' : player_all Q
            (if (size cards =? 3)%nat then foldl add_stacks p1 (iter cards)
             else p1)).
  { destruct (_ =? _)%nat; [|done].
    apply (foldl_invariant (player_all Q)); [done|].
    intros q c Hq Hc. apply add_stacks_all; [|done].
    apply Hk. by apply iter_elem_of. }
  match goal with
  | |- cards_all Q (set_table _ ?t) =>
      assert (Ht' : set_Forall Q t)
  end.
  { repeat match goal with
           | |- context [if ?b then _ else _] => destruct b
           end; intros x Hx; apply Ht; set_solver. }
  unfold cards_all. destruct (current g); cbn; auto.
Qed.

Lemma update_table_all (g : Game) (cards : gset Z) :
  set_Forall Q cards → cards_all Q g → cards_all Q (update_table g cards).
Proof.
  intros Hk (Ht & HA & HB & Hd). unfold update_table.
  assert (Hp : ∀ i, player_all Q (player g i)) by (by apply player_cases).
  pose proof (Hp (current g)) as (_ & Hp1 & Hc1).
  pose proof (Hp (other (current g))) as (_ & Hp2 & Hc2).
  unfold cards_all. cbn. repeat split; try done; try apply HA; try apply HB.
  unfold obtain_last_prime, obtain_last_composite.
  assert (Hadd : ∀ (l : list Z) (t : gset Z),
            Forall Q l → set_Forall Q t →
            set_Forall Q (if negb (last_or_minus1 l =? -1)
                          then {[last_or_minus1 l]} ∪ t else t)).
  { intros l t Hl Ht'. destruct (_ =? _) eqn:E; cbn [negb]; [done|].
    apply Z.eqb_neq in E. apply set_Forall_union; [|done].
    apply set_Forall_singleton. by apply last_or_minus1_all. }
  do 4 (apply Hadd; [done|]).
  apply (foldl_invariant (set_Forall Q)); [done|].
  intros t c Ht' Hc.
  assert (set_Forall Q (if bool_decide (c ∈ t) then t ∖ {[c]} else t)).
  { destruct (bool_decide _); [|done]. intros x Hx. apply Ht'. set_solver. }
  destruct (negb _); [|done].
  apply set_Forall_union; [|done].
  apply set_Forall_singleton, Hk. by apply iter_elem_of.
Qed.

Lemma find_playable_sets_all (g g' : Game) :
  (∀ x, 2 ≤ x ≤ num_cards g + 1 → Q x) →
  cards_all Q g → find_playable_sets g = Ok g' → cards_all Q g'.
Proof.
  intros HQ (Ht & HA & HB & _) E.
  assert (Hp : ∀ i, player_all Q (player g i)) by (by apply player_cases).
  pose proof (find_playable_sets_entries
    (λ kv : gset Z * Z, set_Forall Q kv.1) g g') as Hk.
  rewrite (find_playable_sets_frame g g' E).
  unfold cards_all. cbn. repeat split; try done; try apply HA; try apply HB.
  apply Hk; [| |done]; cbn [fst].
  - intros c1 c2 c3 H1 H2 H3 _ x.
    rewrite !elem_of_union, !elem_of_singleton. intros [[->| ->]| ->]; auto.
  - intros c Hc x. rewrite elem_of_singleton. intros ->.
    by apply (Hp (current g)).
Qed.

End CardsAll.

Lemma update_players_config (g : Game) (cards : gset Z) :
  config (update_players g cards) = config g
  ∧ turn (update_players g cards) = turn g
  ∧ u (update_players g cards) = u g
  ∧ current (update_players g cards) = current g
  ∧ playable_sets (update_players g cards) = playable_sets g.
Proof.
  unfold update_players. destruct (foldl _ _ _) as [p1 p2].
  generalize (if (size cards =? 3)%nat
              then foldl add_stacks p1 (iter cards) else p1).
  intros q1. by destruct g as [? ? ? ? ? ? ? ? ? ? ? ? [] ?].
Qed.

Lemma update_table_config (g : Game) (cards : gset Z) :
  config (update_table g cards) = config g
  ∧ turn (update_table g cards) = turn g
  ∧ u (update_table g cards) = u g
  ∧ current (update_table g cards) = current g
  ∧ playable_sets (update_table g cards) = playable_sets g.
Proof. done. Qed.

Lemma update_config (g g' : Game) (move : gset Z) (payoff : Z) :
  update g move payoff = Ok g' → config g' = config g.
Proof.
  unfold update, next_turn. intros E.
  apply find_playable_sets_frame in E. rewrite E.
  destruct (update_players_config g move) as (Hc & _).
  by rewrite <- Hc.
Qed.

Lemma update_all (Q : Z → Prop) (g g' : Game) (move : gset Z) (payoff : Z) :
  (∀ x, 2 ≤ x ≤ num_cards g + 1 → Q x) →
  set_Forall Q move → cards_all Q g →
  update g move payoff = Ok g' → cards_all Q g'.
Proof.
  intros HQ Hm Hg. unfold update, next_turn.
  apply find_playable_sets_all.
  - destruct (update_players_config g move) as (Hc & _).
    injection Hc as Hn _. cbn. by rewrite Hn.
  - pose proof (update_table_all Q _ move Hm
                  (update_players_all Q g move Hm Hg)) as H.
    unfold cards_all in *.
    by cbn [table playerA playerB playable_sets set_current set_turn set_u].
Qed.

(** [update] raises nothing when no card is 0. *)
Lemma update_ok (g : Game) (move : gset Z) (payoff : Z) :
  cards_all (λ c, c ≠ 0) g → set_Forall (λ c, c ≠ 0) move →
  ∃ g', update g move payoff = Ok g'.
Proof.
  intros Hg Hm. unfold update, next_turn.
  apply find_playable_sets_ok. cbn [table set_current set_turn set_u].
  pose proof (update_table_all _ _ move Hm
                (update_players_all _ g move Hm Hg)) as (Ht&_).
  by apply set_nonzero_all.
Qed.

Lemma playable_key_all (Q : Z → Prop) (g : Game) (k : gset Z) (v : Z) :
  cards_all Q g → (k, v) ∈ playable_sets g → set_Forall Q k.
Proof.
  intros (_ & _ & _ & Hd) Hkv. rewrite Forall_forall in Hd.
  apply (Hd (k, v) Hkv).
Qed.

(** ** Snapshot, move, rollback *)

Lemma rollback_snapshot (g g' : Game) (k : gset Z) (v : Z) :
  config g' = config g → rollback g' (GameState_init g k v) = g.
Proof.
  unfold config, rollback, GameState_init. intros [= -> -> -> -> -> -> ->].
  by destruct g.
Qed.

(** C1. In a game none of whose cards is 0, for every entry [(k, v)] of the
    playable-move table: [update] applies the move, and rolling back to the
    snapshot taken before it gives back the game as it was, in every
    field. *)
Theorem snapshot_update_rollback (g : Game) (k : gset Z) (v : Z) :
  cards_nonzero g = true → (k, v) ∈ playable_sets g →
  ∃ g', update g k v = Ok g' ∧ rollback g' (GameState_init g k v) = g.
Proof.
  intros Hg Hkv. apply cards_nonzero_all in Hg.
  destruct (update_ok g k v Hg) as [g' E].
  { by eapply playable_key_all. }
  exists g'. split; [done|].
  apply rollback_snapshot. by eapply update_config.
Qed.

(** ** The search restores the game *)

Lemma states_pop_snoc (l : list GameState) (x : GameState) :
  states_pop (l ++ [x]) = Ok (x, l).
Proof. unfold states_pop. by rewrite last_snoc, removelast_last. Qed.

(** The sums of the search, when the integer is a double. *)
Lemma num_add_fits (x : num) (v : Z) :
  fits_double v = true → num_add x v = Ok (num_plus x v).
Proof using.
  clear is_prime iter iter_perm. intros Hv. destruct x; cbn; by rewrite ?Hv.
Qed.

Lemma num_sub_fits (x : num) (v : Z) :
  fits_double v = true → num_sub x v = Ok (num_minus x v).
Proof using.
  clear is_prime iter iter_perm. intros Hv. destruct x; cbn; by rewrite ?Hv.
Qed.

Lemma fits_double_small (v : Z) : 0 ≤ v ≤ 12 → fits_double v = true.
Proof using.
  clear is_prime iter iter_perm. intros Hv. unfold fits_double.
  assert (12 < DBL_OVERFLOW) by (apply Z.ltb_lt; by vm_compute).
  apply Z.ltb_lt. lia.
Qed.

(** The table that [find_playable_sets] builds holds payoffs, from 0 to
    12. *)
Lemma find_playable_sets_fit (g g' : Game) :
  find_playable_sets g = Ok g' → payoffs_fit g' = true.
Proof.
  intros E. unfold payoffs_fit. apply forallb_forall. intros kv Hin.
  apply list_elem_of_In in Hin.
  pose proof (find_playable_sets_entries
                (λ kv, 0 ≤ kv.2 ≤ 12) g g') as HF.
  cbn [snd] in HF. rewrite Forall_forall in HF.
  apply fits_double_small.
  apply (HF (λ _ _ _ _ _ _ _, calculate_move_payoff_bounds g _)
            ltac:(lia) E kv Hin).
Qed.

Lemma update_fit (g g' : Game) (k : gset Z) (v : Z) :
  update g k v = Ok g' → payoffs_fit g' = true.
Proof. unfold update, next_turn. apply find_playable_sets_fit. Qed.

(** What the loops need of the items they run over. *)
Lemma search_items (g : Game) :
  cards_all (λ c, c ≠ 0) g → payoffs_fit g = true →
  Forall (λ kv : gset Z * Z,
            set_Forall (λ c, c ≠ 0) kv.1 ∧ fits_double kv.2 = true)
    (playable_sets g).
Proof using.
  clear is_prime iter iter_perm.
  intros Hg Hf. apply Forall_and. split; [apply Hg|].
  unfold payoffs_fit in Hf. rewrite forallb_forall in Hf.
  apply Forall_forall. intros kv Hin. by apply Hf, list_elem_of_In.
Qed.

(** One round of either loop up to the recursive call's return, and the
    rollback that follows. *)
Lemma round_restores rec (g : Game) (l : list GameState) (k : gset Z) (v : Z)
    (a b : num) :
  cards_all (λ c, c ≠ 0) g → restoring rec g (S (length l)) →
  set_Forall (λ c, c ≠ 0) k →
  ∃ g1 mv, update g k v = Ok g1
           ∧ rec g1 (l ++ [GameState_init g k v]) a b
             = Ok (g1, l ++ [GameState_init g k v], mv)
           ∧ rollback g1 (GameState_init g k v) = g.
Proof.
  intros Hg Hrec Hk.
  destruct (update_ok g k v Hg Hk) as [g1 E1].
  pose proof (update_config g g1 k v E1) as Hc.
  destruct (Hrec g1 (l ++ [GameState_init g k v]) a b) as [mv E2];
    [rewrite length_app; cbn; lia|done| |by eapply update_fit|].
  { eapply update_all; [|done|done|done]. cbn. lia. }
  exists g1, mv. auto using rollback_snapshot.
Qed.

Lemma chosen_from_cons (g : Game) (items : dict) (kv : gset Z * Z)
    (mm mm1 mm' : gset Z) :
  mm1 = mm ∨ (mm1 = kv.1 ∧ can_play_move (player g (current g)) kv.1 = true) →
  chosen_from g items mm1 mm' → chosen_from g (kv :: items) mm mm'.
Proof.
  unfold chosen_from. destruct kv as [k v]. cbn [fst].
  intros [->|[-> Hk]] [->|(v' & Hv' & Hp)]; auto.
  - right. exists v'. split; [by right|done].
  - right. exists v. split; [left|done].
  - right. exists v'. split; [by right|done].
Qed.

Lemma max_loop_restores rec (g : Game) (l : list GameState) (items : dict) :
  cards_all (λ c, c ≠ 0) g → restoring rec g (S (length l)) →
  Forall (λ kv : gset Z * Z,
            set_Forall (λ c, c ≠ 0) kv.1 ∧ fits_double kv.2 = true) items →
  ∀ a b mm mp, ∃ mm' mp',
    max_loop rec items g l a b mm mp = Ok (g, l, (mm', mp'))
    ∧ chosen_from g items mm mm'.
Proof.
  intros Hg Hrec. induction 1 as [|[k v] items [Hk Hv] Hitems IH];
    intros a b mm mp; cbn [max_loop].
  { exists mm, mp. split; [done|by left]. }
  cbn [fst snd] in Hk, Hv.
  destruct (can_play_move _ k) eqn:Hplay.
  - destruct (round_restores rec g l k v a b Hg Hrec Hk)
      as (g1 & [nm np] & -> & E2 & E3).
    cbn [mbind result_bind]. rewrite E2. cbn [mbind result_bind].
    rewrite (num_add_fits np v Hv). cbn [mbind result_bind].
    rewrite states_pop_snoc. cbn [mbind result_bind]. rewrite E3.
    set (mm0 := if (size mm =? 0)%nat then k else mm).
    assert (Hmm0 : mm0 = mm ∨ mm0 = k)
      by (subst mm0; destruct (_ =? _)%nat; auto).
    destruct (num_ltb mp (num_plus np v)); destruct (num_leb b _);
      try (destruct (IH (num_max a (num_plus np v)) b k (num_plus np v))
             as (mm' & mp' & -> & Hch));
      try (destruct (IH (num_max a mp) b mm0 mp) as (mm' & mp' & -> & Hch));
      eexists _, _; (split; [reflexivity|]);
      try (eapply chosen_from_cons; [|exact Hch]);
      try (eapply chosen_from_cons; [|by left]);
      cbn [fst]; intuition.
  - destruct (IH a b mm mp) as (mm' & mp' & -> & Hch).
    exists mm', mp'. split; [done|].
    eapply chosen_from_cons; [by left|done].
Qed.

Lemma min_loop_restores rec (g : Game) (l : list GameState) (items : dict) :
  cards_all (λ c, c ≠ 0) g → restoring rec g (S (length l)) →
  Forall (λ kv : gset Z * Z,
            set_Forall (λ c, c ≠ 0) kv.1 ∧ fits_double kv.2 = true) items →
  ∀ a b mm mp, ∃ mm' mp',
    min_loop rec items g l a b mm mp = Ok (g, l, (mm', mp'))
    ∧ chosen_from g items mm mm'.
Proof.
  intros Hg Hrec. induction 1 as [|[k v] items [Hk Hv] Hitems IH];
    intros a b mm mp; cbn [min_loop].
  { exists mm, mp. split; [done|by left]. }
  cbn [fst snd] in Hk, Hv.
  destruct (can_play_move _ k) eqn:Hplay.
  - destruct (round_restores rec g l k v a b Hg Hrec Hk)
      as (g1 & [nm np] & -> & E2 & E3).
    cbn [mbind result_bind]. rewrite E2. cbn [mbind result_bind].
    rewrite (num_sub_fits np v Hv). cbn [mbind result_bind].
    rewrite states_pop_snoc. cbn [mbind result_bind]. rewrite E3.
    set (mm0 := if (size mm =? 0)%nat then k else mm).
    assert (Hmm0 : mm0 = mm ∨ mm0 = k)
      by (subst mm0; destruct (_ =? _)%nat; auto).
    destruct (num_ltb (num_minus np v) mp); destruct (num_leb _ a);
      try (destruct (IH a (num_min b (num_minus np v)) k (num_minus np v))
             as (mm' & mp' & -> & Hch));
      try (destruct (IH a (num_min b mp) mm0 mp) as (mm' & mp' & -> & Hch));
      eexists _, _; (split; [reflexivity|]);
      try (eapply chosen_from_cons; [|exact Hch]);
      try (eapply chosen_from_cons; [|by left]);
      cbn [fst]; intuition.
  - destruct (IH a b mm mp) as (mm' & mp' & -> & Hch).
    exists mm', mp'. split; [done|].
    eapply chosen_from_cons; [by left|done].
Qed.

Lemma minimax_fuel_restores (fuel : nat) :
  ∀ (g : Game) (l : list GameState) (a b : num),
    (Z.to_nat (depth g - Z.of_nat (length l)) < fuel)%nat →
    cards_all (λ c, c ≠ 0) g → payoffs_fit g = true →
    ∃ mm mp, minimax_fuel fuel g l a b = Ok (g, l, (mm, mp))
             ∧ chosen_from g (playable_sets g) ∅ mm.
Proof.
  induction fuel as [|fuel IH]; intros g l a b Hfuel Hg Hf; [lia|].
  cbn [minimax_fuel].
  destruct (is_over g || depth_reached g l) eqn:Hterm.
  { exists ∅, (Int 0). split; [done|by left]. }
  apply orb_false_iff in Hterm as [_ Hd].
  unfold depth_reached in Hd. apply Z.leb_gt in Hd.
  assert (Hrec : restoring (minimax_fuel fuel) g (S (length l))).
  { intros g1 l1 a1 b1 Hl1 Hc Hg1 Hf1.
    assert (depth g1 = depth g) as Hdepth by (by injection Hc).
    destruct (IH g1 l1 a1 b1) as (mm & mp & -> & _);
      [lia|done|done|by eexists]. }
  pose proof (search_items g Hg Hf) as Hkeys.
  destruct (_ =? _).
  - by apply max_loop_restores.
  - by apply min_loop_restores.
Qed.

(** C2. In a game none of whose cards is 0 and whose playable-move table
    holds values that are doubles (the payoffs that [find_playable_sets]
    puts there are from 0 to 12), for every list of snapshots and every
    alpha and beta, [minimax] returns, and the game and the list are then
    what they were at the call.  The children of the call need no such
    assumption: [update] rebuilds their tables. *)
Theorem minimax_restores (g : Game) (game_states : list GameState)
    (alpha beta : num) :
  cards_nonzero g = true → payoffs_fit g = true →
  ∃ mv, minimax g game_states alpha beta = Ok (g, game_states, mv).
Proof.
  intros Hg Hf. apply cards_nonzero_all in Hg.
  destruct (minimax_fuel_restores (search_fuel g game_states) g game_states
              alpha beta) as (mm & mp & E & _);
    [unfold search_fuel; lia|done|done|].
  by exists (mm, mp).
Qed.

(** ** The search with nothing to play *)

Lemma max_loop_unplayable rec (g : Game) (l : list GameState) (items : dict)
    (a b : num) (mm : gset Z) (mp : num) :
  Forall (λ kv : gset Z * Z,
            can_play_move (player g (current g)) kv.1 = false) items →
  max_loop rec items g l a b mm mp = Ok (g, l, (mm, mp)).
Proof.
  induction 1 as [|[k v] items Hk _ IH]; cbn [max_loop]; [done|].
  cbn [fst] in Hk. by rewrite Hk.
Qed.

Lemma min_loop_unplayable rec (g : Game) (l : list GameState) (items : dict)
    (a b : num) (mm : gset Z) (mp : num) :
  Forall (λ kv : gset Z * Z,
            can_play_move (player g (current g)) kv.1 = false) items →
  min_loop rec items g l a b mm mp = Ok (g, l, (mm, mp)).
Proof.
  induction 1 as [|[k v] items Hk _ IH]; cbn [min_loop]; [done|].
  cbn [fst] in Hk. by rewrite Hk.
Qed.

(** C3, as the code has it. When the game is not over, the depth is not
    reached and the active player can play no key of the playable-move
    table, [minimax] returns the empty move with the value its best payoff
    was initialised to: minus infinity on an even turn (the maximizing
    player), plus infinity on an odd turn. *)
Theorem minimax_nothing_playable (g : Game) (game_states : list GameState)
    (alpha beta : num) :
  is_over g = false → depth_reached g game_states = false →
  Forall (λ kv : gset Z * Z,
            can_play_move (player g (current g)) kv.1 = false)
         (playable_sets g) →
  minimax g game_states alpha beta
  = Ok (g, game_states,
        (∅, if turn g `mod` 2 =? 0 then NegInf else PosInf)).
Proof.
  intros Hover Hdepth Hnone. unfold minimax, search_fuel.
  cbn [minimax_fuel]. rewrite Hover, Hdepth. cbn [orb].
  destruct (_ =? _).
  - by apply max_loop_unplayable.
  - by apply min_loop_unplayable.
Qed.

(** ** What a turn does to the players and the table *)

Lemma filter_all (P : Z → Prop) `{!∀ x, Decision (P x)} (l : list Z) :
  Forall P l → filter P l = l.
Proof.
  induction 1 as [|x l Hx Hl IH]; [done|].
  by rewrite filter_cons_True, IH.
Qed.

Lemma Forall_filter_keeps (Q P : Z → Prop) `{!∀ x, Decision (P x)}
    (l : list Z) :
  Forall Q l → Forall Q (filter P l).
Proof.
  rewrite !Forall_forall. intros HQ x [_ Hx]%list_elem_of_filter. auto.
Qed.

Lemma filter_absent (c : Z) (l : list Z) :
  c ∉ l → filter (λ x, x ≠ c) l = l.
Proof.
  intros Hc. apply filter_all. rewrite Forall_forall.
  intros y Hy ->. done.
Qed.

Lemma remove_first_filter (c : Z) (l : list Z) :
  NoDup l → remove_first c l = filter (λ x, x ≠ c) l.
Proof.
  induction 1 as [|x l Hx Hl IH]; cbn [remove_first]; [done|].
  destruct (decide (x = c)) as [->|Hne].
  - rewrite filter_cons_False by tauto. by rewrite filter_absent.
  - rewrite filter_cons_True by done. by rewrite IH.
Qed.

Lemma typed_filter (P : Z → Prop) `{!∀ x, Decision (P x)} (p : Player) :
  typed p →
  typed (mkPlayer (hand p) (filter P (primes p)) (filter P (composites p))).
Proof.
  intros (Hp & Hc & Np & Nc). unfold typed; cbn.
  repeat split; auto using Forall_filter_keeps, NoDup_filter.
Qed.

(** On typed stacks [remove_stacks] takes the card out wherever it is. *)
Lemma remove_stacks_filter (p : Player) (c : Z) :
  typed p →
  remove_stacks p c
  = mkPlayer (hand p) (filter (λ x, x ≠ c) (primes p))
      (filter (λ x, x ≠ c) (composites p)).
Proof.
  intros (Hp & Hc & Np & Nc). rewrite Forall_forall in Hp, Hc.
  unfold remove_stacks, remove_prime, remove_composite, prime_contains,
    composite_contains.
  destruct p as [h ps cs]; cbn in *.
  destruct (is_prime c) eqn:E; cbn [andb negb].
  - assert (c ∉ cs) by (intros Hin; apply Hc in Hin; congruence).
    rewrite (filter_absent c cs) by done.
    case_bool_decide as Hin; cbn.
    + by rewrite remove_first_filter.
    + by rewrite filter_absent.
  - assert (c ∉ ps) by (intros Hin; apply Hp in Hin; congruence).
    rewrite (filter_absent c ps) by done.
    case_bool_decide as Hin; cbn.
    + by rewrite remove_first_filter.
    + by rewrite filter_absent.
Qed.

Lemma remove_hand_difference (p : Player) (c : Z) :
  remove_hand p c = mkPlayer (hand p ∖ {[c]}) (primes p) (composites p).
Proof.
  unfold remove_hand. destruct p as [h ps cs]; cbn.
  destruct (decide (c ∈ h)); [done|]. f_equal. set_solver.
Qed.

Lemma filter_filter_out (c : Z) (l cs : list Z) :
  filter (λ x, x ∉ cs) (filter (λ x, x ≠ c) l) = filter (λ x, x ∉ c :: cs) l.
Proof.
  rewrite list_filter_filter. apply list_filter_iff.
  intros x. rewrite not_elem_of_cons. tauto.
Qed.

(** The first loop of [update_players], over any list of cards. *)
Lemma remove_loop_spec (b : bool) (cs : list Z) :
  ∀ p1 p2, typed p1 → typed p2 →
    foldl (λ '(p1, p2) c,
             let '(p1, p2) :=
               if b then (remove_stacks p1 c, remove_stacks p2 c)
               else (p1, p2) in
             (remove_hand p1 c, p2))
          (p1, p2) cs
    = (mkPlayer (hand p1 ∖ list_to_set cs)
         (if b then filter (λ x, x ∉ cs) (primes p1) else primes p1)
         (if b then filter (λ x, x ∉ cs) (composites p1) else composites p1),
       if b
       then mkPlayer (hand p2) (filter (λ x, x ∉ cs) (primes p2))
              (filter (λ x, x ∉ cs) (composites p2))
       else p2).
Proof.
  induction cs as [|c cs IH]; intros p1 p2 T1 T2; cbn [foldl].
  - destruct p1 as [h1 ps1 cs1], p2 as [h2 ps2 cs2]; cbn.
    assert (∀ l : list Z, filter (λ x, x ∉ []) l = l) as Hid.
    { intros l. apply filter_all, Forall_forall.
      intros x _. apply not_elem_of_nil. }
    rewrite !Hid. destruct b; f_equal; f_equal; set_solver.
  - destruct b.
    + rewrite !remove_stacks_filter, remove_hand_difference by done.
      rewrite IH by (by apply typed_filter). cbn.
      rewrite !filter_filter_out. do 2 f_equal. set_solver.
    + rewrite remove_hand_difference.
      rewrite IH; [|by destruct T1 as (?&?&?&?)|done]. cbn.
      do 2 f_equal. set_solver.
Qed.

(** The second loop of [update_players], over cards that are in no stack
    of the player. *)
Lemma add_loop_spec (cs : list Z) :
  ∀ p, NoDup cs → (∀ c, c ∈ cs → (c ∉ primes p) ∧ (c ∉ composites p)) →
    foldl add_stacks p cs
    = mkPlayer (hand p)
        (primes p ++ filter (λ c, is_prime c = true) cs)
        (composites p ++ filter (λ c, is_prime c = false) cs).
Proof.
  induction cs as [|c cs IH]; intros p Hnd Hout; cbn [foldl].
  - destruct p; cbn. by rewrite !app_nil_r.
  - apply NoDup_cons in Hnd as [Hc Hnd].
    destruct (Hout c) as [Hcp Hcc]; [left|].
    assert (add_stacks p c
            = mkPlayer (hand p)
                (primes p ++ (if is_prime c then [c] else []))
                (composites p ++ (if is_prime c then [] else [c]))) as ->.
    { unfold add_stacks, prime_contains, composite_contains.
      rewrite !bool_decide_false by done.
      destruct p, (is_prime c); cbn; by rewrite app_nil_r. }
    rewrite IH; [|done|]; cbn.
    + destruct (is_prime c) eqn:E; repeat case_decide; try congruence;
        by rewrite app_nil_r, <- app_assoc.
    + intros x Hx. destruct (Hout x) as [? ?]; [by right|].
      assert (x ≠ c) by (by intros ->).
      destruct (is_prime c); rewrite ?app_nil_r, ?elem_of_app,
        ?list_elem_of_singleton; tauto.
Qed.

Lemma elem_of_last_set (l : list Z) (x : Z) :
  x ∈ last_set l ↔ last l = Some x.
Proof.
  unfold last_set. destruct (last l) as [y|].
  - rewrite elem_of_singleton. split; [by intros ->|by intros [= ->]].
  - by rewrite elem_of_empty.
Qed.

Lemma last_set_elem_of (l : list Z) (x : Z) : x ∈ last_set l → x ∈ l.
Proof. rewrite elem_of_last_set. apply last_Some_elem_of. Qed.

Lemma elem_of_keep_out (k : gset Z) (l : list Z) (x : Z) :
  x ∈ keep_out k l ↔ x ∈ l ∧ x ∉ k.
Proof. unfold keep_out. rewrite list_elem_of_filter. tauto. Qed.

Lemma last_keep_out (k : gset Z) (l : list Z) (c : Z) :
  last l = Some c → c ∉ k → last (keep_out k l) = Some c.
Proof.
  intros [l' ->]%last_Some Hc. unfold keep_out.
  by rewrite filter_app, filter_singleton_True, last_snoc.
Qed.

(** The guarded removal and insertion of a stack's last card, for stacks
    that do not hold the sentinel [-1]. *)
Lemma remove_last_spec (l : list Z) (t : gset Z) :
  Forall (λ c, c ≠ -1) l →
  (if negb (last_or_minus1 l =? -1) && bool_decide (last_or_minus1 l ∈ t)
   then t ∖ {[last_or_minus1 l]} else t)
  = t ∖ last_set l.
Proof.
  intros Hl. unfold last_or_minus1, last_set.
  destruct (last l) as [x|] eqn:E.
  - assert (x ≠ -1) as Hx.
    { rewrite Forall_forall in Hl. by apply Hl, last_Some_elem_of. }
    apply Z.eqb_neq in Hx. rewrite Hx. cbn [negb andb].
    case_bool_decide; set_solver.
  - cbn. set_solver.
Qed.

Lemma add_last_spec (l : list Z) (t : gset Z) :
  Forall (λ c, c ≠ -1) l →
  (if negb (last_or_minus1 l =? -1) then {[last_or_minus1 l]} ∪ t else t)
  = t ∪ last_set l.
Proof.
  intros Hl. unfold last_or_minus1, last_set.
  destruct (last l) as [x|] eqn:E.
  - assert (x ≠ -1) as Hx.
    { rewrite Forall_forall in Hl. by apply Hl, last_Some_elem_of. }
    apply Z.eqb_neq in Hx. rewrite Hx. cbn [negb]. set_solver.
  - cbn. set_solver.
Qed.

Lemma list_to_set_iter (k : gset Z) : list_to_set (iter k) = k.
Proof.
  apply set_eq. intros x. by rewrite elem_of_list_to_set, iter_elem_of.
Qed.

Lemma filter_iter_keep_out (k : gset Z) (l : list Z) :
  filter (λ x, x ∉ iter k) l = keep_out k l.
Proof.
  apply list_filter_iff. intros x. by rewrite iter_elem_of.
Qed.

Lemma player_set_player (g : Game) (i : idx) (q1 q2 : Player) (t : gset Z) :
  let g' := set_table (set_player (set_player g i q1) (other i) q2) t in
  player g' i = q1 ∧ player g' (other i) = q2 ∧ table g' = t
  ∧ current g' = current g.
Proof. by destruct i. Qed.

Lemma update_players_spec (g : Game) (k : gset Z) :
  let p1 := player g (current g) in
  let p2 := player g (other (current g)) in
  typed p1 → typed p2 → Forall (λ c, c ≠ -1) (primes p1) →
  Forall (λ c, c ≠ -1) (composites p1) →
  update_players g k
  = set_table
      (set_player (set_player g (current g) (mover_after k p1))
         (other (current g)) (other_after k p2))
      (table g ∖ last_set (primes p1) ∖ last_set (composites p1)).
Proof.
  intros p1 p2 T1 T2 Hp Hc. unfold update_players.
  fold p1 p2. unfold obtain_last_prime, obtain_last_composite.
  rewrite (remove_last_spec _ _ Hp), (remove_last_spec _ _ Hc).
  rewrite (remove_loop_spec (size k =? 3)%nat (iter k) p1 p2 T1 T2).
  rewrite list_to_set_iter, !filter_iter_keep_out.
  unfold mover_after, other_after.
  destruct (size k =? 3)%nat; [|done].
  rewrite add_loop_spec; cbn [hand primes composites]; [done|apply iter_NoDup|].
  intros c Hc'. apply iter_elem_of in Hc'.
  rewrite !elem_of_keep_out. tauto.
Qed.

(** The loop of [update_table], over any list of cards. *)
Lemma table_loop_spec (b : bool) (cs : list Z) :
  ∀ t : gset Z,
    foldl (λ (t : gset Z) c,
             let t := if bool_decide (c ∈ t) then t ∖ {[c]} else t in
             if negb b then {[c]} ∪ t else t)
          t cs
    = if b then t ∖ list_to_set cs else t ∪ list_to_set cs.
Proof.
  induction cs as [|c cs IH]; intros t; cbn [foldl].
  - destruct b; set_solver.
  - rewrite IH. clear IH.
    destruct b; cbn [negb]; case_bool_decide; apply set_eq; intros x;
      rewrite ?elem_of_difference, ?elem_of_union, ?elem_of_list_to_set,
        ?elem_of_cons, ?elem_of_singleton, ?elem_of_difference,
        ?elem_of_list_to_set, ?elem_of_cons, ?elem_of_singleton;
      destruct (decide (x = c)) as [->|]; tauto.
Qed.

Lemma mover_after_all (Q : Z → Prop) (k : gset Z) (p : Player) :
  set_Forall Q k → player_all Q p → player_all Q (mover_after k p).
Proof.
  intros Hk (Hh & Hp & Hc). unfold mover_after, player_all.
  destruct (_ =? _)%nat; cbn; (split; [intros x Hx; apply Hh; set_solver|]).
  - rewrite !Forall_app. unfold keep_out.
    repeat split; try (by apply Forall_filter_keeps);
      apply Forall_forall; intros x [_ Hx%iter_elem_of]%list_elem_of_filter;
      by apply Hk.
  - done.
Qed.

Lemma other_after_all (Q : Z → Prop) (k : gset Z) (p : Player) :
  player_all Q p → player_all Q (other_after k p).
Proof.
  intros (Hh & Hp & Hc). unfold other_after, player_all, keep_out.
  destruct (_ =? _)%nat; cbn; auto using Forall_filter_keeps.
Qed.

(** The players and the table after the two update steps of a turn. *)
Lemma turn_spec (g : Game) (k : gset Z) :
  let p1 := player g (current g) in
  let p2 := player g (other (current g)) in
  typed p1 → typed p2 →
  player_all (λ c, c ≠ -1) p1 → player_all (λ c, c ≠ -1) p2 →
  set_Forall (λ c, c ≠ -1) k →
  update_table (update_players g k) k
  = set_table
      (set_player (set_player g (current g) (mover_after k p1))
         (other (current g)) (other_after k p2))
      (table_after k p1 p2 (table g)).
Proof.
  intros p1 p2 T1 T2 H1 H2 Hk.
  rewrite update_players_spec by (done || apply H1). fold p1 p2.
  unfold update_table.
  match goal with
  | |- context [set_table (set_player (set_player g ?i ?q1) _ ?q2) ?t] =>
      destruct (player_set_player g i q1 q2 t) as (E1 & E2 & E3 & E4)
  end.
  cbn zeta in E1, E2, E3, E4. rewrite E4, E1, E2, E3. clear E1 E2 E3 E4.
  rewrite table_loop_spec, list_to_set_iter.
  unfold obtain_last_prime, obtain_last_composite.
  pose proof (mover_after_all _ k p1 Hk H1) as (_ & M1 & M2).
  pose proof (other_after_all (λ c, c ≠ -1) k p2 H2) as (_ & O1 & O2).
  rewrite (add_last_spec _ _ M1), (add_last_spec _ _ M2),
    (add_last_spec _ _ O1), (add_last_spec _ _ O2).
  unfold table_after. by destruct (current g).
Qed.

(** ** The invariant is kept by a turn *)

Lemma position_inv_sym (p1 p2 : Player) (t : gset Z) :
  position_inv p1 p2 t → position_inv p2 p1 t.
Proof.
  intros (Hh & Ht1 & Ht2 & Hhs & T1 & T2 & Hpp & Hcc & ? & ? & ? & ?).
  unfold position_inv. split_and!; try done.
  - set_solver.
  - intros c Hc2 Hc1. by apply (Hpp c).
  - intros c Hc2 Hc1. by apply (Hcc c).
Qed.

Lemma typed_kinds (p : Player) (c : Z) :
  typed p → c ∈ primes p → c ∈ composites p → False.
Proof.
  intros (Hp & Hc & _) H1 H2. rewrite Forall_forall in Hp, Hc.
  apply Hp in H1. apply Hc in H2. congruence.
Qed.

Lemma typed_kinds_across (p q : Player) (c : Z) :
  typed p → typed q → c ∈ primes p → c ∈ composites q → False.
Proof.
  intros (Hp & _) (_ & Hc & _) H1 H2. rewrite Forall_forall in Hp, Hc.
  apply Hp in H1. apply Hc in H2. congruence.
Qed.

Lemma typed_mover_after (k : gset Z) (p : Player) :
  typed p → typed (mover_after k p).
Proof.
  intros (Hp & Hc & Np & Nc). unfold mover_after, typed, keep_out.
  destruct (_ =? _)%nat; cbn; [|done].
  rewrite !Forall_app. repeat split.
  - by apply Forall_filter_keeps.
  - apply Forall_forall. by intros x [? _]%list_elem_of_filter.
  - by apply Forall_filter_keeps.
  - apply Forall_forall. by intros x [? _]%list_elem_of_filter.
  - apply NoDup_app. repeat split.
    + by apply NoDup_filter.
    + intros x [Hx _]%list_elem_of_filter [_ Hk%iter_elem_of]%list_elem_of_filter.
      done.
    + apply NoDup_filter, iter_NoDup.
  - apply NoDup_app. repeat split.
    + by apply NoDup_filter.
    + intros x [Hx _]%list_elem_of_filter [_ Hk%iter_elem_of]%list_elem_of_filter.
      done.
    + apply NoDup_filter, iter_NoDup.
Qed.

Lemma typed_other_after (k : gset Z) (p : Player) :
  typed p → typed (other_after k p).
Proof.
  intros Hp. unfold other_after, keep_out.
  destruct (_ =? _)%nat; [by apply typed_filter|done].
Qed.

(** Where the cards of the new stacks come from. *)
Lemma mover_after_stacks (k : gset Z) (p : Player) (x : Z) :
  (x ∈ primes (mover_after k p) →
   x ∈ primes p ∧ ((size k =? 3)%nat = true → x ∉ k)
   ∨ (size k =? 3)%nat = true ∧ x ∈ k)
  ∧ (x ∈ composites (mover_after k p) →
     x ∈ composites p ∧ ((size k =? 3)%nat = true → x ∉ k)
     ∨ (size k =? 3)%nat = true ∧ x ∈ k).
Proof.
  unfold mover_after. destruct (_ =? _)%nat; cbn.
  - rewrite !elem_of_app, !elem_of_keep_out, !list_elem_of_filter,
      !iter_elem_of. tauto.
  - split; intros ?; left; by split.
Qed.

Lemma other_after_stacks (k : gset Z) (p : Player) (x : Z) :
  (x ∈ primes (other_after k p) →
   x ∈ primes p ∧ ((size k =? 3)%nat = true → x ∉ k))
  ∧ (x ∈ composites (other_after k p) →
     x ∈ composites p ∧ ((size k =? 3)%nat = true → x ∉ k)).
Proof.
  unfold other_after. destruct (_ =? _)%nat; cbn.
  - rewrite !elem_of_keep_out. tauto.
  - split; intros ?; by split.
Qed.

Lemma other_after_last (k : gset Z) (p : Player) (c : Z) :
  ((size k =? 3)%nat = true → c ∉ k) →
  (last (primes p) = Some c → last (primes (other_after k p)) = Some c)
  ∧ (last (composites p) = Some c →
     last (composites (other_after k p)) = Some c).
Proof.
  unfold other_after. intros Hc. destruct (_ =? _)%nat; cbn; [|done].
  split; intros ?; apply last_keep_out; auto.
Qed.

Lemma hand_mover_after (k : gset Z) (p : Player) :
  hand (mover_after k p) = hand p ∖ k.
Proof. unfold mover_after. by destruct (_ =? _)%nat. Qed.

Lemma hand_other_after (k : gset Z) (p : Player) :
  hand (other_after k p) = hand p.
Proof. unfold other_after. by destruct (_ =? _)%nat. Qed.

Lemma table_after_elem_of (k : gset Z) (p1 p2 : Player) (t : gset Z)
    (x : Z) :
  x ∈ table_after k p1 p2 t →
  (x ∈ t ∧ (x ∉ last_set (primes p1)) ∧ (x ∉ last_set (composites p1))
   ∧ ((size k =? 3)%nat = true → x ∉ k))
  ∨ ((size k =? 3)%nat = false ∧ x ∈ k)
  ∨ last (primes (mover_after k p1)) = Some x
  ∨ last (composites (mover_after k p1)) = Some x
  ∨ last (primes (other_after k p2)) = Some x
  ∨ last (composites (other_after k p2)) = Some x.
Proof.
  unfold table_after. cbn zeta.
  rewrite !elem_of_union, !elem_of_last_set.
  destruct (size k =? 3)%nat;
    rewrite ?elem_of_union, !elem_of_difference, !elem_of_last_set; intuition congruence.
Qed.

Lemma position_step (k : gset Z) (p1 p2 : Player) (t : gset Z) :
  position_inv p1 p2 t → move_ok k p1 t →
  position_inv (mover_after k p1) (other_after k p2) (table_after k p1 p2 t).
Proof.
  intros (Hh & Ht1 & Ht2 & Hhs & T1 & T2 & Hpp & Hcc & Tp1 & Tc1 & Tp2 & Tc2)
    Hmove.
  pose proof (typed_mover_after k p1 T1) as T1'.
  pose proof (typed_other_after k p2 T2) as T2'.
  assert (F1 : ∀ x, x ∈ k → x ∉ hand p2).
  { unfold move_ok in Hmove. destruct (_ =? _)%nat.
    - destruct Hmove as (c3 & Hc3 & Hc3h & Hsub). intros x Hx.
      destruct (decide (x = c3)) as [->|Hne]; [set_solver|].
      assert (x ∈ t) by set_solver. set_solver.
    - set_solver. }
  assert (F3 : ∀ x, x ∈ k → (size k =? 3)%nat = false → x ∈ hand p1).
  { unfold move_ok in Hmove. intros x Hx E. rewrite E in Hmove. set_solver. }
  assert (F5 : ∀ x,
    x ∈ primes (mover_after k p1) ∨ x ∈ composites (mover_after k p1)
    ∨ x ∈ primes (other_after k p2) ∨ x ∈ composites (other_after k p2) →
    (x ∉ hand p1 ∖ k) ∧ (x ∉ hand p2)).
  { intros x Hx.
    destruct (mover_after_stacks k p1 x) as [M1 M2].
    destruct (other_after_stacks k p2 x) as [O1 O2].
    assert (Hx' : (x ∈ primes p1 ∨ x ∈ composites p1 ∨ x ∈ primes p2
                   ∨ x ∈ composites p2) ∨ x ∈ k) by tauto.
    destruct Hx' as [Hold|Hk].
    - split; intros Hin.
      + destruct (Hhs x) as (?&?&?&?); [left; set_solver|tauto].
      + destruct (Hhs x) as (?&?&?&?); [by right|tauto].
    - split; [set_solver|by apply F1]. }
  assert (G7 : ∀ c, c ∈ primes (mover_after k p1) →
                    c ∉ primes (other_after k p2)).
  { intros c Hc1 Hc2.
    destruct (mover_after_stacks k p1 c) as [M _].
    destruct (other_after_stacks k p2 c) as [O _].
    destruct (O Hc2) as [? Hk].
    destruct (M Hc1) as [[? ?]|[? ?]]; [by apply (Hpp c)|by apply Hk]. }
  assert (G8 : ∀ c, c ∈ composites (mover_after k p1) →
                    c ∉ composites (other_after k p2)).
  { intros c Hc1 Hc2.
    destruct (mover_after_stacks k p1 c) as [_ M].
    destruct (other_after_stacks k p2 c) as [_ O].
    destruct (O Hc2) as [? Hk].
    destruct (M Hc1) as [[? ?]|[? ?]]; [by apply (Hcc c)|by apply Hk]. }
  unfold position_inv. rewrite hand_mover_after, hand_other_after.
  split_and!; try done.
  - set_solver.
  - intros x Hx Hx1.
    apply table_after_elem_of in Hx
      as [(?&_)|[[_ ?]|[?|[?|[?|?]]]]];
      [set_solver|set_solver|..];
      match goal with
      | H : last _ = Some _ |- _ => apply last_Some_elem_of in H
      end; destruct (F5 x) as [? ?]; tauto.
  - intros x Hx Hx2.
    apply table_after_elem_of in Hx
      as [(?&_)|[[_ ?]|[?|[?|[?|?]]]]];
      [set_solver|by eapply F1|..];
      match goal with
      | H : last _ = Some _ |- _ => apply last_Some_elem_of in H
      end; destruct (F5 x) as [? ?]; tauto.
  - intros c Hc. split_and!; intros Hs;
      (destruct (F5 c) as [? ?]; [tauto|]); tauto.
  - intros x Hx Hs. destruct (mover_after_stacks k p1 x) as [M _].
    apply table_after_elem_of in Hx
      as [(?&Hl&_&?)|[[E ?]|[?|[?|[?|?]]]]]; [| |done|..].
    + destruct (M Hs) as [[? _]|[? ?]]; [|tauto].
      destruct Hl. apply elem_of_last_set. by apply Tp1.
    + destruct (M Hs) as [[? _]|[? ?]]; [|congruence].
      destruct (Hhs x) as (?&?&?&?); [left; auto|done].
    + destruct (typed_kinds _ x T1'); eauto using last_Some_elem_of.
    + destruct (G7 x); eauto using last_Some_elem_of.
    + destruct (typed_kinds_across _ _ x T1' T2');
        eauto using last_Some_elem_of.
  - intros x Hx Hs. destruct (mover_after_stacks k p1 x) as [_ M].
    apply table_after_elem_of in Hx
      as [(?&_&Hl&?)|[[E ?]|[?|[?|[?|?]]]]]; [| | |done|..].
    + destruct (M Hs) as [[? _]|[? ?]]; [|tauto].
      destruct Hl. apply elem_of_last_set. by apply Tc1.
    + destruct (M Hs) as [[? _]|[? ?]]; [|congruence].
      destruct (Hhs x) as (?&?&?&?); [left; auto|done].
    + destruct (typed_kinds _ x T1'); eauto using last_Some_elem_of.
    + destruct (typed_kinds_across _ _ x T2' T1');
        eauto using last_Some_elem_of.
    + destruct (G8 x); eauto using last_Some_elem_of.
  - intros x Hx Hs. destruct (other_after_stacks k p2 x) as [O _].
    destruct (O Hs) as [Hold Hk].
    apply table_after_elem_of in Hx
      as [(?&_&_&?)|[[E ?]|[?|[?|[?|?]]]]]; [| | | |done|].
    + apply other_after_last; [done|]. by apply Tp2.
    + destruct (Hhs x) as (?&?&?&?); [left; auto|done].
    + destruct (G7 x); eauto using last_Some_elem_of.
    + destruct (typed_kinds_across _ _ x T2' T1');
        eauto using last_Some_elem_of.
    + destruct (typed_kinds _ x T2'); eauto using last_Some_elem_of.
  - intros x Hx Hs. destruct (other_after_stacks k p2 x) as [_ O].
    destruct (O Hs) as [Hold Hk].
    apply table_after_elem_of in Hx
      as [(?&_&_&?)|[[E ?]|[?|[?|[?|?]]]]]; [| | | | |done].
    + apply other_after_last; [done|]. by apply Tc2.
    + destruct (Hhs x) as (?&?&?&?); [left; auto|done].
    + destruct (typed_kinds_across _ _ x T1' T2');
        eauto using last_Some_elem_of.
    + destruct (G8 x); eauto using last_Some_elem_of.
    + destruct (typed_kinds _ x T2'); eauto using last_Some_elem_of.
Qed.

Lemma find_playable_sets_ignores (g : Game) (d : dict) :
  find_playable_sets (set_playable_sets g d) = find_playable_sets g.
Proof. reflexivity. Qed.

Lemma find_playable_sets_idem (g g' : Game) :
  find_playable_sets g = Ok g' → find_playable_sets g' = Ok g'.
Proof.
  intros E. rewrite (find_playable_sets_frame g g' E) at 1.
  by rewrite find_playable_sets_ignores.
Qed.

Lemma cards_all_impl (Q Q' : Z → Prop) (g : Game) :
  (∀ c, Q c → Q' c) → cards_all Q g → cards_all Q' g.
Proof.
  intros HQ (Ht & (?&?&?) & (?&?&?) & Hk).
  unfold cards_all, player_all, set_Forall in *.
  split_and!; try (eapply Forall_impl; [eassumption|done]); auto.
  eapply Forall_impl; [exact Hk|]. cbn. auto.
Qed.

Lemma can_play_move_true (p : Player) (k : gset Z) :
  can_play_move p k = true ↔ ∃ x, x ∈ hand p ∧ x ∈ k.
Proof.
  unfold can_play_move. rewrite negb_true_iff, bool_decide_eq_false.
  rewrite size_non_empty_iff. split.
  - intros [x Hx%elem_of_intersection]%set_choose. by exists x.
  - intros (x & ? & ?). set_solver.
Qed.

Lemma position_inv_current (g : Game) :
  position_inv (playerA g) (playerB g) (table g) →
  position_inv (player g (current g)) (player g (other (current g)))
    (table g).
Proof. destruct (current g); [done|apply position_inv_sym]. Qed.

(** A legal move is one of the two shapes of [move_ok], and made of cards
    of the deck. *)
Lemma legal_move_ok (g : Game) (k : gset Z) :
  game_inv g → legal_move g k →
  move_ok k (player g (current g)) (table g)
  ∧ set_Forall (λ c, 2 ≤ c ≤ num_cards g + 1) k.
Proof.
  intros (Hr & Hpos & Hm) Hk.
  apply position_inv_current in Hpos as (_ & Ht1 & _).
  assert (Hp : ∀ i, player_all (λ c, 2 ≤ c ≤ num_cards g + 1) (player g i)).
  { apply player_cases; apply Hr. }
  destruct Hk as [->|[(c & Hc & ->)|(v & Hkv & Hplay)]].
  - split; [|by intros x Hx%elem_of_empty].
    unfold move_ok. by rewrite size_empty.
  - split.
    + unfold move_ok. rewrite size_singleton. set_solver.
    + intros x ->%elem_of_singleton. by apply (Hp (current g)).
  - split; [|by eapply playable_key_all].
    pose proof (find_playable_sets_entries
      (λ kv, can_play_move (player g (current g)) kv.1 = true →
             move_ok kv.1 (player g (current g)) (table g)) g g) as HF.
    rewrite Forall_forall in HF.
    refine (HF _ _ Hm (k, v) Hkv Hplay); cbn [fst].
    + intros c1 c2 c3 H1 H2 _ E3 (x & Hxh & Hx)%can_play_move_true.
      unfold move_ok. rewrite E3. cbn [Nat.eqb].
      assert (x = c3) as ->.
      { rewrite !elem_of_union, !elem_of_singleton in Hx.
        destruct Hx as [[Hx|Hx]|Hx]; subst; [by destruct (Ht1 c1)|by destruct (Ht1 c2)|done]. }
      exists c3. split_and!; [set_solver|done|].
      intros y. rewrite elem_of_difference, !elem_of_union, !elem_of_singleton.
      intros [[[->| ->]| ->] ?]; done.
    + intros c Hc _. unfold move_ok. rewrite size_singleton. set_solver.
Qed.

(** [update] keeps the invariant. *)
Lemma update_inv (g g' : Game) (k : gset Z) (v : Z) :
  game_inv g → legal_move g k → update g k v = Ok g' → game_inv g'.
Proof.
  intros Hg Hk E.
  destruct (legal_move_ok g k Hg Hk) as [Hmove Hkr].
  destruct Hg as (Hr & Hpos & Hm).
  assert (Hn : num_cards g' = num_cards g).
  { apply update_config in E. by injection E. }
  split_and!.
  - rewrite Hn. eapply (update_all _ g g' k v); [by intros|done|done|done].
  - apply position_inv_current in Hpos.
    pose proof (position_step k _ _ _ Hpos Hmove) as Hpos'.
    assert (Hp : ∀ i, player_all (λ c, c ≠ -1) (player g i)).
    { apply player_cases; apply (cards_all_impl _ (λ c, c ≠ -1) g) in Hr;
        try apply Hr; intros; lia. }
    unfold update, next_turn in E.
    rewrite turn_spec in E;
      [|apply Hpos|apply Hpos|apply Hp|apply Hp|
       intros x Hx; apply Hkr in Hx; lia].
    apply find_playable_sets_frame in E. rewrite E.
    destruct (current g); cbn; [done|by apply position_inv_sym].
  - unfold update, next_turn in E. by eapply find_playable_sets_idem.
Qed.

(** ** The deal *)

Lemma elem_of_py_range (lo hi x : Z) : x ∈ py_range lo hi ↔ lo ≤ x < hi.
Proof.
  unfold py_range. rewrite list_elem_of_fmap. split.
  - intros (i & -> & Hi%elem_of_seq). lia.
  - intros Hx. exists (Z.to_nat (x - lo)). split; [lia|].
    apply elem_of_seq. lia.
Qed.

Lemma NoDup_py_range (lo hi : Z) : NoDup (py_range lo hi).
Proof.
  unfold py_range. apply NoDup_fmap_2; [|apply NoDup_seq].
  intros i j. lia.
Qed.

Lemma length_py_range (lo hi : Z) :
  length (py_range lo hi) = Z.to_nat (hi - lo).
Proof. unfold py_range. by rewrite length_map, length_seq. Qed.

Lemma list_pop_inv (l l' : list Z) (c : Z) :
  list_pop l = Ok (c, l') → l = l' ++ [c].
Proof.
  unfold list_pop. destruct (last l) as [x|] eqn:E; [|done].
  apply last_Some in E as [l0 ->]. rewrite removelast_last.
  by intros [= -> ->].
Qed.

Lemma list_pop_ok (l : list Z) :
  l ≠ [] → ∃ c l', list_pop l = Ok (c, l').
Proof.
  unfold list_pop. intros Hl. destruct (last l) as [x|] eqn:E; [by eexists _, _|].
  by apply last_None in E.
Qed.

Lemma deal_loop_inv (n : nat) :
  ∀ pa pb cards pa' pb' rest,
    deal_loop n pa pb cards = Ok (pa', pb', rest) →
    ∃ la lb, cards ≡ₚ rest ++ la ++ lb
             ∧ length la = n ∧ length lb = n
             ∧ pa' = mkPlayer (list_to_set la ∪ hand pa) (primes pa)
                       (composites pa)
             ∧ pb' = mkPlayer (list_to_set lb ∪ hand pb) (primes pb)
                       (composites pb).
Proof.
  induction n as [|n IH]; intros pa pb cards pa' pb' rest; cbn [deal_loop].
  - intros [= <- <- <-]. exists [], []. rewrite !app_nil_r.
    destruct pa, pb; cbn. split_and!; try done; f_equal; set_solver.
  - destruct (list_pop cards) as [[c1 cards1]|] eqn:E1;
      cbn [mbind result_bind]; [|done].
    destruct (list_pop cards1) as [[c2 cards2]|] eqn:E2;
      cbn [mbind result_bind]; [|done].
    intros (la & lb & Hperm & Hla & Hlb & -> & ->)%IH.
    apply list_pop_inv in E1 as ->. apply list_pop_inv in E2 as ->.
    exists (c1 :: la), (c2 :: lb). cbn [length add_hand hand primes composites].
    split_and!; try lia.
    + rewrite Hperm. solve_Permutation.
    + f_equal. set_solver.
    + f_equal. set_solver.
Qed.

Lemma deal_loop_ok (n : nat) :
  ∀ pa pb cards, (2 * n ≤ length cards)%nat →
                 ∃ r, deal_loop n pa pb cards = Ok r.
Proof.
  induction n as [|n IH]; intros pa pb cards Hlen; cbn [deal_loop];
    [by eexists|].
  destruct (list_pop_ok cards) as (c1 & cards1 & E1);
    [destruct cards; cbn in *; [lia|done]|].
  rewrite E1. apply list_pop_inv in E1 as ->. cbn [mbind result_bind].
  rewrite length_app in Hlen. cbn in Hlen.
  destruct (list_pop_ok cards1) as (c2 & cards2 & E2);
    [destruct cards1; cbn in *; [lia|done]|].
  rewrite E2. apply list_pop_inv in E2 as ->. cbn [mbind result_bind].
  rewrite length_app in Hlen. cbn in Hlen.
  apply IH. lia.
Qed.

Lemma position_inv_dealt (rest la lb : list Z) :
  NoDup (rest ++ la ++ lb) →
  position_inv (mkPlayer (list_to_set la ∪ ∅) [] [])
    (mkPlayer (list_to_set lb ∪ ∅) [] []) (list_to_set rest).
Proof.
  intros (Hr & Hd1 & (Ha & Hd2 & Hb)%NoDup_app)%NoDup_app.
  unfold position_inv, typed, top_only; cbn.
  split_and!; try done; try (by constructor);
    try (intros c _ Hc; by apply elem_of_nil in Hc).
  - intros x. rewrite !elem_of_union, !elem_of_list_to_set, !elem_of_empty.
    intros [?|[]] [?|[]]. by apply (Hd2 x).
  - intros x. rewrite !elem_of_union, !elem_of_list_to_set, !elem_of_empty.
    intros ? [?|[]]. apply (Hd1 x); [done|]. apply elem_of_app. by left.
  - intros x. rewrite !elem_of_union, !elem_of_list_to_set, !elem_of_empty.
    intros ? [?|[]]. apply (Hd1 x); [done|]. apply elem_of_app. by right.
  - intros c _. split_and!; apply not_elem_of_nil.
Qed.

Lemma find_first_player_inv (g g' : Game) :
  find_first_player g = Ok g' →
  ∃ f, g' = mkGame (num_cards g) (num_hand g) (num_table g) (change_first g)
              (depth g) (turn g) (u g) (playerA g) (playerB g) (table g)
              (turn_payoffs g) f f (playable_sets g).
Proof.
  unfold find_first_player. destruct (change_first g).
  - destruct (min_hand (player g A)) as [a|]; cbn [mbind result_bind]; [|done].
    destruct (min_hand (player g B)) as [b|]; cbn [mbind result_bind]; [|done].
    intros [= <-]. eauto.
  - intros [= <-]. eauto.
Qed.

(** What [reset] builds: a game that satisfies the invariant, with
    [num_hand] cards in each hand, at turn 1. *)
Lemma reset_inv (shuffle : list Z → list Z) (g0 g : Game) :
  shuffle (py_range 2 (num_cards g0 + 2)) ≡ₚ py_range 2 (num_cards g0 + 2) →
  reset shuffle g0 = Ok g →
  game_inv g
  ∧ size (hand (playerA g)) = Z.to_nat (num_hand g0)
  ∧ size (hand (playerB g)) = Z.to_nat (num_hand g0)
  ∧ turn g = 1 ∧ u g = 0 ∧ turn_payoffs g = [] ∧ current g = first g
  ∧ (num_cards g, num_hand g, num_table g, change_first g, depth g)
    = (num_cards g0, num_hand g0, num_table g0, change_first g0, depth g0).
Proof.
  intros Hsh. unfold reset, deal_cards.
  cbn [num_cards num_hand player playerA playerB].
  destruct (deal_loop _ _ _ _) as [[[pa pb] rest]|] eqn:Edeal;
    cbn [mbind result_bind]; [|done].
  apply deal_loop_inv in Edeal as (la & lb & Hperm & Hla & Hlb & -> & ->).
  cbn [hand primes composites Player_init].
  rewrite Hsh in Hperm.
  assert (Hnd : NoDup (rest ++ la ++ lb))
    by (rewrite <- Hperm; apply NoDup_py_range).
  assert (Hrange : ∀ x, x ∈ rest ++ la ++ lb → 2 ≤ x ≤ num_cards g0 + 1).
  { intros x. rewrite <- Hperm, elem_of_py_range. lia. }
  pose proof (position_inv_dealt rest la lb Hnd) as Hpos.
  apply NoDup_app in Hnd as (Hr & _ & (Ha & _ & Hb)%NoDup_app).
  match goal with
  | |- context [find_first_player ?g1] =>
      destruct (find_first_player g1) as [g2|] eqn:Efirst;
      [apply find_first_player_inv in Efirst as [f ->]|done]
  end.
  cbn [mbind result_bind set_table set_player num_cards num_hand num_table
         change_first depth turn u playerA playerB table turn_payoffs
         playable_sets].
  intros E.
  pose proof (find_playable_sets_frame _ _ E) as Hg.
  assert (Hn : num_cards g = num_cards g0) by (by rewrite Hg).
  assert (Hall : cards_all (λ c, 2 ≤ c ≤ num_cards g + 1) g).
  { rewrite Hn.
    refine (find_playable_sets_all (λ c, 2 ≤ c ≤ num_cards g0 + 1)
              _ g _ _ E); [by intros|].
    unfold cards_all, player_all, set_Forall; cbn.
    split_and!; try (by constructor);
      intros x; rewrite ?elem_of_union, elem_of_list_to_set, ?elem_of_empty;
      intros Hx; apply Hrange; rewrite !elem_of_app; tauto. }
  split_and!.
  - split_and!; [done| |by eapply find_playable_sets_idem].
    by rewrite Hg.
  - rewrite Hg; cbn. rewrite union_empty_r_L, size_list_to_set by done. lia.
  - rewrite Hg; cbn. rewrite union_empty_r_L, size_list_to_set by done. lia.
  - by rewrite Hg.
  - by rewrite Hg.
  - by rewrite Hg.
  - by rewrite Hg.
  - by rewrite Hg.
Qed.

(** The game after [update] with a legal move. *)
Lemma update_shape (g g' : Game) (k : gset Z) (v : Z) :
  game_inv g → legal_move g k → update g k v = Ok g' →
  player g' (current g) = mover_after k (player g (current g))
  ∧ player g' (other (current g))
    = other_after k (player g (other (current g)))
  ∧ table g'
    = table_after k (player g (current g)) (player g (other (current g)))
        (table g)
  ∧ current g' = other (current g)
  ∧ turn g' = turn g + 1
  ∧ u g' = u g + (if decide (first g = current g) then 1 else -1) * v.
Proof.
  intros Hg Hk E.
  destruct (legal_move_ok g k Hg Hk) as [Hmove Hkr].
  destruct Hg as (Hr & Hpos & Hm).
  apply position_inv_current in Hpos.
  assert (Hp : ∀ i, player_all (λ c, c ≠ -1) (player g i)).
  { apply player_cases; apply (cards_all_impl _ (λ c, c ≠ -1) g) in Hr;
      try apply Hr; intros; lia. }
  unfold update, next_turn in E.
  rewrite turn_spec in E;
    [|apply Hpos|apply Hpos|apply Hp|apply Hp|
     intros x Hx; apply Hkr in Hx; lia].
  apply find_playable_sets_frame in E. rewrite E.
  by destruct g as [? ? ? ? ? ? ? ? ? ? ? ? [] ?].
Qed.

(** A legal move that is not empty takes one card from the hand. *)
Lemma legal_move_one_card (g : Game) (k : gset Z) :
  game_inv g → legal_move g k → k ≠ ∅ →
  ∃ c, c ∈ hand (player g (current g))
       ∧ hand (player g (current g)) ∖ k
         = hand (player g (current g)) ∖ {[c]}.
Proof.
  intros (Hr & Hpos & Hm) Hk Hne.
  apply position_inv_current in Hpos as (_ & Ht1 & _).
  destruct Hk as [->|[(c & Hc & ->)|(v & Hkv & Hplay)]]; [done|by exists c|].
  pose proof (find_playable_sets_entries
    (λ kv, can_play_move (player g (current g)) kv.1 = true →
           ∃ c, c ∈ hand (player g (current g))
                ∧ hand (player g (current g)) ∖ kv.1
                  = hand (player g (current g)) ∖ {[c]}) g g) as HF.
  rewrite Forall_forall in HF.
  refine (HF _ _ Hm (k, v) Hkv Hplay); cbn [fst].
  - intros c1 c2 c3 H1 H2 _ E3 (x & Hxh & Hx)%can_play_move_true.
    assert (x = c3) as ->.
    { rewrite !elem_of_union, !elem_of_singleton in Hx.
      destruct Hx as [[Hx|Hx]|Hx]; subst;
        [by destruct (Ht1 c1)|by destruct (Ht1 c2)|done]. }
    exists c3. split; [done|].
    apply set_eq. intros y.
    rewrite !elem_of_difference, !elem_of_union, !elem_of_singleton.
    split; [tauto|]. intros [Hy Hne3]. split; [done|].
    intros [[->| ->]| ->]; [by destruct (Ht1 c1)|by destruct (Ht1 c2)|done].
  - intros c Hc _. by exists c.
Qed.

(** ** The rounds of the simulation *)

Lemma find_playable_sets_turn_payoffs (g : Game) (l : list Z) :
  find_playable_sets (set_turn_payoffs g l)
  = g' ← find_playable_sets g; Ok (set_turn_payoffs g' l).
Proof.
  unfold find_playable_sets.
  change (table (set_turn_payoffs g l)) with (table g).
  change (num_cards (set_turn_payoffs g l)) with (num_cards g).
  match goal with
  | |- context [foldM ?f ?s ?x] =>
      change (foldM f s x)
        with (foldM (λ d '(c1, c2),
                       playable_cards ←
                         find_playable_cards (num_cards g) c1 c2;
                       Ok (foldl (add_playable g c1 c2) d playable_cards))
                [] (index_pairs (iter (table g))))
  end.
  by destruct (foldM _ _ _).
Qed.

(** [play_move] is [update], and the payoff recorded. *)
Lemma play_move_update (g : Game) (k : gset Z) (v : Z) :
  play_move g k v
  = g' ← update g k v; Ok (set_turn_payoffs g' (turn_payoffs g ++ [u g'])).
Proof.
  unfold play_move, update, next_turn.
  destruct (update_players_config g k) as (Hc & _).
  assert (Htp : turn_payoffs (update_table (update_players g k) k)
                = turn_payoffs g) by (by injection Hc).
  cbn [turn_payoffs set_u u]. rewrite Htp.
  match goal with
  | |- find_playable_sets ?g1 = _ =>
      change g1 with (set_turn_payoffs
        (set_current (set_turn (set_u (update_table (update_players g k) k)
           (u (update_table (update_players g k) k)
            + (if decide (first (update_table (update_players g k) k)
                          = current (update_table (update_players g k) k))
               then 1 else -1) * v))
           (turn (update_table (update_players g k) k) + 1))
           (if decide (current (update_table (update_players g k) k) = A)
            then B else A))
        (turn_payoffs g
         ++ [u (update_table (update_players g k) k)
             + (if decide (first (update_table (update_players g k) k)
                           = current (update_table (update_players g k) k))
                then 1 else -1) * v]))
  end.
  rewrite find_playable_sets_turn_payoffs.
  destruct (find_playable_sets _) as [g'|] eqn:E; [|done].
  cbn [mbind result_bind]. do 3 f_equal.
  apply find_playable_sets_frame in E. by rewrite E.
Qed.

Lemma game_inv_turn_payoffs (g : Game) (l : list Z) :
  game_inv g → game_inv (set_turn_payoffs g l).
Proof.
  intros (Hr & Hpos & Hm). split_and!; [done|done|].
  by rewrite find_playable_sets_turn_payoffs, Hm.
Qed.

Lemma choice_elem_of (r : nat) (l : list Z) (c : Z) :
  choice r l = Ok c → c ∈ l.
Proof.
  unfold choice. destruct (l !! _) as [x|] eqn:E; [|done].
  intros [= <-]. by eapply list_elem_of_lookup_2.
Qed.

Lemma choice_ok (r : nat) (l : list Z) : l ≠ [] → ∃ c, choice r l = Ok c.
Proof.
  unfold choice. intros Hl.
  destruct (lookup_lt_is_Some_2 l (r `mod` length l)%nat) as [x ->];
    [|by eexists].
  apply Nat.mod_upper_bound. by destruct l.
Qed.

Lemma get_random_card_elem_of (r : nat) (p : Player) (c : Z) :
  get_random_card r p = Ok c → c ∈ hand p.
Proof. intros H%choice_elem_of. by apply iter_elem_of. Qed.

Lemma greedy_play_legal (r : nat) (g : Game) (k : gset Z) (v : Z) :
  greedy_play r g = Ok (k, v) → legal_move g k ∧ k ≠ ∅.
Proof.
  unfold greedy_play.
  destruct (get_random_card _ _) as [card|] eqn:E; cbn [mbind result_bind];
    [|done].
  apply get_random_card_elem_of in E. intros [= Hf]. revert Hf.
  match goal with
  | |- foldl ?f ?s ?l = _ → _ =>
      pose proof (foldl_invariant
        (λ mv : gset Z * Z, legal_move g mv.1 ∧ mv.1 ≠ ∅) f l s) as HF
  end.
  intros Hf. rewrite Hf in HF. apply HF; cbn [fst].
  - split; [right; left; by exists card|].
    intros Hs. apply (f_equal size) in Hs.
    by rewrite size_singleton, size_empty in Hs.
  - intros [mm mp] [k' v'] [Hl Hne] Hin. cbn [fst] in *.
    destruct (can_play_move _ k') eqn:Hplay; cbn [andb]; [|done].
    destruct (mp <? v'); [|done]. cbn [fst]. split.
    + right; right. by exists v'.
    + apply can_play_move_true in Hplay as (x & _ & Hx). set_solver.
Qed.

Lemma greedy_play_ok (r : nat) (g : Game) :
  hand (player g (current g)) ≠ ∅ → ∃ mv, greedy_play r g = Ok mv.
Proof.
  intros Hne. unfold greedy_play, get_random_card.
  destruct (choice_ok r (iter (hand (player g (current g))))) as [c ->];
    [|by eexists].
  intros Hnil. apply Hne. apply set_eq. intros x.
  rewrite <- iter_elem_of, Hnil. set_solver.
Qed.

Lemma random_play_legal (r : nat) (g : Game) (k : gset Z) (v : Z) :
  random_play r g = Ok (k, v) → legal_move g k.
Proof.
  unfold random_play.
  destruct (get_random_card _ _) as [card|] eqn:E; cbn [mbind result_bind];
    [|done].
  apply get_random_card_elem_of in E.
  destruct (List.find _ _) as [[k' v']|] eqn:Ef.
  - intros [= <- <-]. apply find_some in Ef as [Hin Hc].
    apply bool_decide_eq_true in Hc. right; right. exists v'.
    split; [by apply list_elem_of_In|].
    apply can_play_move_true. by exists card.
  - intros [= <- <-]. right; left. by exists card.
Qed.

Lemma game_inv_nonzero (g : Game) :
  game_inv g → cards_all (λ c, c ≠ 0) g.
Proof.
  intros (Hr & _). eapply cards_all_impl; [|exact Hr]. intros; cbn in *; lia.
Qed.

Lemma game_inv_fit (g : Game) : game_inv g → payoffs_fit g = true.
Proof. intros (_ & _ & Hm). by eapply find_playable_sets_fit. Qed.

Lemma minimax_play_legal (g g' : Game) (k : gset Z) (v : Z) :
  game_inv g → minimax_play g = Ok (g', (k, v)) → g' = g ∧ legal_move g k.
Proof.
  intros Hinv. pose proof (game_inv_fit g Hinv) as Hf.
  apply game_inv_nonzero in Hinv as Hg. unfold minimax_play, minimax.
  destruct (minimax_fuel_restores (search_fuel g []) g [] NegInf PosInf)
    as (mm & mp & -> & Hch); [unfold search_fuel; lia|done|done|].
  cbn [mbind result_bind]. intros [= <- <- _]. split; [done|].
  destruct Hch as [->|(v' & ? & ?)]; [by left|].
  right; right. by exists v'.
Qed.

Lemma play_move_inv (g g' : Game) (k : gset Z) (v : Z) :
  game_inv g → legal_move g k → play_move g k v = Ok g' → game_inv g'.
Proof.
  intros Hg Hk. rewrite play_move_update.
  destruct (update g k v) as [g1|] eqn:E; cbn [mbind result_bind]; [|done].
  intros [= <-]. apply game_inv_turn_payoffs. by eapply update_inv.
Qed.

Lemma strategy_names :
  String.eqb RANDOM RANDOM = true ∧ String.eqb GREEDY RANDOM = false
  ∧ String.eqb MINIMAX RANDOM = false ∧ String.eqb GREEDY GREEDY = true
  ∧ String.eqb RANDOM GREEDY = false ∧ String.eqb MINIMAX GREEDY = false
  ∧ String.eqb MINIMAX MINIMAX = true ∧ String.eqb RANDOM MINIMAX = false
  ∧ String.eqb GREEDY MINIMAX = false.
Proof. by vm_compute. Qed.

(** A round of [simulate] when the strategy of the active player is one of
    the three names: the move of that strategy is played. *)
Lemma simulate_turn_cases (r : nat) (strategies : list string) (g : Game)
    (prev : option (gset Z * Z)) (s : string) :
  strategy_of strategies (current g) = Ok s →
  s = RANDOM ∨ s = GREEDY ∨ s = MINIMAX →
  simulate_turn r strategies g prev
  = '(g1, mv) ← (if String.eqb s RANDOM
                 then mv ← random_play r g; Ok (g, mv)
                 else if String.eqb s GREEDY
                      then mv ← greedy_play r g; Ok (g, mv)
                      else minimax_play g);
    g' ← play_move g1 mv.1 mv.2; Ok (g', Some mv).
Proof.
  intros Es Hs. unfold simulate_turn. rewrite Es.
  destruct strategy_names as (E1 & E2 & E3 & E4 & E5 & E6 & E7 & E8 & E9).
  generalize (random_play r g) (greedy_play r g) (minimax_play g) play_move.
  intros R G M pm.
  destruct Hs as [->|[->| ->]]; cbn [mbind result_bind].
  - rewrite E1, E5, E8.
    destruct R as [[k v]|]; cbn [mbind result_bind fst snd]; [|done].
    by destruct (pm g k v).
  - rewrite E2, E4, E9. cbn [mbind result_bind].
    destruct G as [[k v]|]; cbn [mbind result_bind fst snd]; [|done].
    by destruct (pm g k v).
  - rewrite E3, E6, E7. cbn [mbind result_bind].
    destruct M as [[g1 [k v]]|]; cbn [mbind result_bind fst snd]; [|done].
    by destruct (pm g1 k v).
Qed.

(** A round of [simulate] with known strategies plays a legal move. *)
Lemma simulate_turn_known (r : nat) (strategies : list string) (g g' : Game)
    (prev prev' : option (gset Z * Z)) :
  game_inv g → known_strategies strategies →
  simulate_turn r strategies g prev = Ok (g', prev') →
  ∃ k v, legal_move g k ∧ play_move g k v = Ok g' ∧ prev' = Some (k, v).
Proof.
  intros Hg Hs.
  destruct (strategy_of strategies (current g)) as [s|] eqn:Es;
    [|by unfold simulate_turn; rewrite Es].
  assert (Hknown : s = RANDOM ∨ s = GREEDY ∨ s = MINIMAX).
  { unfold strategy_of in Es.
    destruct (strategies !! _) as [s'|] eqn:El; [|done].
    injection Es as ->. unfold known_strategies in Hs.
    rewrite Forall_forall in Hs.
    eapply Hs, list_elem_of_lookup_2, El. }
  rewrite (simulate_turn_cases r strategies g prev s Es Hknown).
  destruct strategy_names as (E1 & E2 & E3 & E4 & E5 & E6 & E7 & E8 & E9).
  assert (Hmove : ∀ g1 k v,
            (if String.eqb s RANDOM then mv ← random_play r g; Ok (g, mv)
             else if String.eqb s GREEDY then mv ← greedy_play r g; Ok (g, mv)
                  else minimax_play g) = Ok (g1, (k, v)) →
            g1 = g ∧ legal_move g k).
  { intros g1 k v. destruct Hknown as [->|[->| ->]].
    - rewrite E1. destruct (random_play r g) as [[k' v']|] eqn:E;
        cbn [mbind result_bind]; [|done].
      intros [= <- <- <-]. eauto using random_play_legal.
    - rewrite E2, E4. destruct (greedy_play r g) as [[k' v']|] eqn:E;
        cbn [mbind result_bind]; [|done].
      intros [= <- <- <-]. split; [done|]. by eapply greedy_play_legal.
    - rewrite E3, E6. by apply minimax_play_legal. }
  destruct (if String.eqb s RANDOM then _ else _) as [[g1 [k v]]|];
    cbn [mbind result_bind fst snd]; [|done].
  destruct (Hmove g1 k v eq_refl) as [-> Hk].
  destruct (play_move g k v) as [g2|] eqn:Epm; cbn [mbind result_bind];
    [|done].
  intros [= <- <-]. by exists k, v.
Qed.

Lemma simulate_turn_inv (r : nat) (strategies : list string) (g g' : Game)
    (prev prev' : option (gset Z * Z)) :
  game_inv g → known_strategies strategies →
  simulate_turn r strategies g prev = Ok (g', prev') → game_inv g'.
Proof.
  intros Hg Hs E.
  destruct (simulate_turn_known _ _ _ _ _ _ Hg Hs E) as (k & v & ? & ? & _).
  by eapply play_move_inv.
Qed.

(** ** Every reachable game satisfies the invariant *)

Lemma Game_init_reset (shuffle : list Z → list Z) (nc nh nt : Z) (cf : bool)
    (d : Z) (g : Game) :
  Game_init shuffle nc nh nt cf d = Ok g →
  nc = nh * 2 + nt
  ∧ reset shuffle (mkGame nc nh nt cf d 0 0 Player_init Player_init ∅ []
                     A A []) = Ok g.
Proof.
  unfold Game_init. destruct (nc =? _) eqn:E; cbn [negb]; [|done].
  by apply Z.eqb_eq in E.
Qed.

Lemma Game_init_ok (shuffle : list Z → list Z) (nc nh nt : Z) (cf : bool)
    (d : Z) :
  nc = nh * 2 + nt →
  Game_init shuffle nc nh nt cf d
  = reset shuffle (mkGame nc nh nt cf d 0 0 Player_init Player_init ∅ []
                     A A []).
Proof. intros ->. unfold Game_init. by rewrite Z.eqb_refl. Qed.

Lemma reachable_inv (g : Game) : reachable g → game_inv g.
Proof.
  induction 1 as [shuffle nc nh nt cf d g Hsh E|shuffle g g' _ IH Hsh E
                  |g k v g' _ IH Hk E|r strategies g prev g' prev' _ IH Hs E].
  - apply Game_init_reset in E as [_ E]. by apply reset_inv in E as [? _].
  - by apply reset_inv in E as [? _].
  - by eapply update_inv.
  - by eapply simulate_turn_inv.
Qed.

(** C4, as the code has it. In every game that play can reach: the two
    hands and the table are pairwise disjoint, no card of a hand is in a
    capture stack, and the four capture stacks are pairwise disjoint.  The
    table and a capture stack are not disjoint: [update_table] puts the last
    card of every stack back on the table, and a card that is on the table
    and in a stack is the last card of that stack. *)
Theorem reachable_cards_disjoint (g : Game) :
  reachable g →
  hand (playerA g) ## hand (playerB g)
  ∧ (∀ i, table g ## hand (player g i))
  ∧ (∀ i j c, c ∈ hand (player g i) →
              (c ∉ primes (player g j)) ∧ (c ∉ composites (player g j)))
  ∧ (∀ c, (c ∈ primes (playerA g) → c ∉ primes (playerB g))
          ∧ (c ∈ composites (playerA g) → c ∉ composites (playerB g)))
  ∧ (∀ i j c, c ∈ primes (player g i) → c ∉ composites (player g j))
  ∧ (∀ i c, c ∈ table g →
            (c ∈ primes (player g i) → last (primes (player g i)) = Some c)
            ∧ (c ∈ composites (player g i) →
               last (composites (player g i)) = Some c)).
Proof.
  intros (_ & Hpos & _)%reachable_inv.
  destruct Hpos
    as (Hh & Ht1 & Ht2 & Hhs & T1 & T2 & Hpp & Hcc & Tp1 & Tc1 & Tp2 & Tc2).
  split_and!.
  - done.
  - by apply player_cases.
  - intros i j c Hc.
    destruct (Hhs c) as (?&?&?&?); [destruct i; auto|]. by destruct j.
  - intros c. split; [apply Hpp|apply Hcc].
  - intros [] [] c H1 H2;
      eauto using typed_kinds, typed_kinds_across.
  - intros [] c Hc; split; intros Hs; cbn [player] in *;
      [by apply Tp1|by apply Tc1|by apply Tp2|by apply Tc2].
Qed.

(** ** Construction *)

Lemma deal_loop_error (n : nat) :
  ∀ pa pb cards e, deal_loop n pa pb cards = Err e → e = IndexError.
Proof.
  induction n as [|n IH]; intros pa pb cards e; cbn [deal_loop]; [done|].
  assert (Hpop : ∀ l e', list_pop l = Err e' → e' = IndexError).
  { intros l e'. unfold list_pop. destruct (last l); congruence. }
  destruct (list_pop cards) as [[c1 cards1]|e1] eqn:E1;
    cbn [mbind result_bind];
    [|intros [= <-]; by apply Hpop in E1].
  destruct (list_pop cards1) as [[c2 cards2]|e2] eqn:E2;
    cbn [mbind result_bind];
    [|intros [= <-]; by apply Hpop in E2].
  apply IH.
Qed.

Lemma foldM_error {S T : Type} (f : S → T → result S) (l : list T) (s : S)
    (e : error) :
  foldM f s l = Err e → ∃ s' x, f s' x = Err e.
Proof.
  revert s. induction l as [|x l IH]; intros s; cbn [foldM]; [done|].
  destruct (f s x) as [s1|e1] eqn:E; cbn [mbind result_bind]; [apply IH|].
  intros [= <-]. eauto.
Qed.

Lemma find_playable_sets_error (g : Game) (e : error) :
  find_playable_sets g = Err e → e = ZeroDivisionError.
Proof.
  unfold find_playable_sets.
  destruct (foldM _ _ _) as [d|e1] eqn:E; cbn [mbind result_bind]; [done|].
  intros [= <-]. apply foldM_error in E as (d & [c1 c2] & E).
  destruct (decide (c1 = 0 ∨ c2 = 0)) as [H0|H0].
  - rewrite find_playable_cards_error in E by done.
    cbn [mbind result_bind] in E. by injection E.
  - destruct (find_playable_cards_ok (num_cards g) c1 c2)
      as (l & El); [tauto..|].
    by rewrite El in E.
Qed.

Lemma find_first_player_error (g : Game) (e : error) :
  find_first_player g = Err e → e = ValueError.
Proof.
  unfold find_first_player, min_hand. destruct (change_first g); [|done].
  destruct (iter (hand (player g A))); cbn [mbind result_bind];
    [by intros [= <-]|].
  destruct (iter (hand (player g B))); cbn [mbind result_bind];
    [by intros [= <-]|done].
Qed.

(** [reset] never exits the process. *)
Lemma reset_error (shuffle : list Z → list Z) (g : Game) :
  reset shuffle g ≠ Err SystemExit.
Proof.
  unfold reset, deal_cards.
  destruct (deal_loop _ _ _ _) as [[[pa pb] rest]|e] eqn:E1;
    cbn [mbind result_bind]; [|by apply deal_loop_error in E1 as ->].
  destruct (find_first_player _) as [g1|e] eqn:E2;
    cbn [mbind result_bind]; [|by apply find_first_player_error in E2 as ->].
  intros E3. by apply find_playable_sets_error in E3.
Qed.

(** With at least one card for each hand and no fewer cards than the two
    hands take, [reset] succeeds. *)
Lemma reset_ok (shuffle : list Z → list Z) (g0 : Game) :
  shuffle (py_range 2 (num_cards g0 + 2)) ≡ₚ py_range 2 (num_cards g0 + 2) →
  1 ≤ num_hand g0 → num_hand g0 * 2 ≤ num_cards g0 →
  ∃ g, reset shuffle g0 = Ok g.
Proof.
  intros Hsh Hh Hc. unfold reset, deal_cards.
  cbn [num_cards num_hand player playerA playerB].
  destruct (deal_loop_ok (Z.to_nat (num_hand g0)) Player_init Player_init
              (shuffle (py_range 2 (num_cards g0 + 2))))
    as [[[pa pb] rest] Edeal].
  { rewrite Hsh, length_py_range. lia. }
  rewrite Edeal. cbn [mbind result_bind].
  apply deal_loop_inv in Edeal as (la & lb & Hperm & Hla & Hlb & -> & ->).
  rewrite Hsh in Hperm.
  assert (Hne : ∀ l : list Z, length l = Z.to_nat (num_hand g0) →
                  iter (list_to_set l ∪ ∅) ≠ []).
  { intros [|c l] Hl; cbn in Hl; [lia|]. intros Hnil.
    assert (c ∈ iter (list_to_set (c :: l) ∪ ∅)) as Hin
      by (apply iter_elem_of; set_solver).
    rewrite Hnil in Hin. by apply elem_of_nil in Hin. }
  assert (∃ g1, find_first_player
            (set_table
               (set_player
                  (set_player
                     (mkGame (num_cards g0) (num_hand g0) (num_table g0)
                        (change_first g0) (depth g0) 1 0 Player_init
                        Player_init ∅ [] A A [])
                     A (mkPlayer (list_to_set la ∪ hand Player_init)
                          (primes Player_init) (composites Player_init)))
                  B (mkPlayer (list_to_set lb ∪ hand Player_init)
                       (primes Player_init) (composites Player_init)))
               (list_to_set rest)) = Ok g1) as [g1 E1].
  { unfold find_first_player, min_hand.
    cbn [change_first set_table set_player player playerA playerB hand
           Player_init].
    destruct (change_first g0); [|by eexists].
    specialize (Hne la Hla) as Ha. specialize (Hne lb Hlb) as Hb.
    destruct (iter (list_to_set la ∪ ∅)); [done|].
    destruct (iter (list_to_set lb ∪ ∅)); [done|].
    cbn [mbind result_bind]. by eexists. }
  rewrite E1. cbn [mbind result_bind].
  apply find_first_player_inv in E1 as [f ->].
  apply find_playable_sets_ok.
  cbn [table set_table set_player]. rewrite elem_of_list_to_set.
  intros H0. assert (0 ∈ py_range 2 (num_cards g0 + 2)) as Hin.
  { rewrite Hperm, elem_of_app. by left. }
  apply elem_of_py_range in Hin. lia.
Qed.

(** C9, as the code has it. Construction ends the process through
    [sys.exit] exactly when [num_cards != num_hand * 2 + num_table].  When
    the three numbers agree, each hand gets at least one card and the table
    gets none or more, construction succeeds, whatever the shuffle. *)
Theorem construction (shuffle : list Z → list Z) (nc nh nt : Z) (cf : bool)
    (d : Z) :
  (Game_init shuffle nc nh nt cf d = Err SystemExit ↔ nc ≠ nh * 2 + nt)
  ∧ (shuffle (py_range 2 (nc + 2)) ≡ₚ py_range 2 (nc + 2) →
     nc = nh * 2 + nt → 1 ≤ nh → 0 ≤ nt →
     ∃ g, Game_init shuffle nc nh nt cf d = Ok g).
Proof.
  unfold Game_init. split.
  - destruct (nc =? _) eqn:E; cbn [negb].
    + apply Z.eqb_eq in E. split; [|done].
      intros Hr. by apply reset_error in Hr.
    + by apply Z.eqb_neq in E.
  - intros Hsh E Hh Ht. apply Z.eqb_eq in E as E'. rewrite E'. cbn [negb].
    apply reset_ok; cbn [num_cards num_hand]; [done|done|lia].
Qed.

(** ** The greedy simulation *)

Lemma is_over_hands (g : Game) :
  is_over g = true ↔ hand (playerA g) = ∅ ∧ hand (playerB g) = ∅.
Proof.
  unfold is_over, is_hand_empty. cbn [player].
  rewrite andb_true_iff, !bool_decide_eq_true, !size_empty_iff.
  by unfold_leibniz.
Qed.

Lemma is_over_cards_in_hand (g : Game) :
  is_over g = true ↔ cards_in_hand g = 0%nat.
Proof.
  unfold is_over, is_hand_empty, cards_in_hand. cbn [player].
  rewrite andb_true_iff, !bool_decide_eq_true. lia.
Qed.

Lemma get_winner_range (g : Game) :
  get_winner g = -1 ∨ get_winner g = 0 ∨ get_winner g = 1.
Proof.
  unfold get_winner.
  destruct (0 <? u g); [destruct (first g); cbn; lia|].
  destruct (u g <? 0); [destruct (first g); vm_compute; auto|lia].
Qed.

Lemma simulate_turn_greedy (r : nat) (g : Game) (prev : option (gset Z * Z)) :
  simulate_turn r [GREEDY; GREEDY] g prev
  = mv ← greedy_play r g; g' ← play_move g mv.1 mv.2; Ok (g', Some mv).
Proof.
  assert (Es : strategy_of [GREEDY; GREEDY] (current g) = Ok GREEDY)
    by (by destruct (current g)).
  rewrite (simulate_turn_cases r _ g prev GREEDY Es) by auto.
  destruct strategy_names as (_ & -> & _ & -> & _).
  by destruct (greedy_play r g) as [[k v]|].
Qed.

Lemma balanced_turn_payoffs (g : Game) (l : list Z) :
  balanced g → balanced (set_turn_payoffs g l).
Proof. by destruct g as [? ? ? ? ? ? ? ? ? ? ? ? [] ?]. Qed.

Lemma cards_in_hand_turn_payoffs (g : Game) (l : list Z) :
  cards_in_hand (set_turn_payoffs g l) = cards_in_hand g.
Proof. done. Qed.

(** A round that plays a legal, non-empty move: one card fewer in the
    active hand, and the turn passes. *)
Lemma play_move_round (g : Game) (k : gset Z) (v : Z) :
  game_inv g → legal_move g k → k ≠ ∅ → balanced g →
  hand (player g (current g)) ≠ ∅ →
  ∃ g', play_move g k v = Ok g'
        ∧ game_inv g' ∧ balanced g'
        ∧ S (cards_in_hand g') = cards_in_hand g
        ∧ turn g' = turn g + 1
        ∧ length (turn_payoffs g') = S (length (turn_payoffs g))
        ∧ first g' = first g.
Proof.
  intros Hg Hk Hne Hbal Hhand.
  destruct (legal_move_ok g k Hg Hk) as [_ Hkr].
  destruct (update_ok g k v) as [g1 E].
  { by apply game_inv_nonzero. }
  { intros x Hx. apply Hkr in Hx. lia. }
  pose proof (update_shape g g1 k v Hg Hk E) as (H1 & H2 & _ & Hcur & Ht & _).
  pose proof (update_config g g1 k v E) as Hc.
  destruct (legal_move_one_card g k Hg Hk Hne) as (c & Hc1 & Hc2).
  assert (Hs1 : S (size (hand (player g1 (current g))))
                = size (hand (player g (current g)))).
  { rewrite H1, hand_mover_after, Hc2.
    rewrite size_difference by set_solver. rewrite size_singleton.
    assert (size (hand (player g (current g))) ≠ 0%nat) as Hnz.
    { intros Hz. apply Hhand, leibniz_equiv. by apply size_empty_iff. }
    lia. }
  assert (Hs2 : size (hand (player g1 (other (current g))))
                = size (hand (player g (other (current g))))).
  { by rewrite H2, hand_other_after. }
  exists (set_turn_payoffs g1 (turn_payoffs g ++ [u g1])).
  rewrite play_move_update, E. cbn [mbind result_bind].
  split_and!; try done.
  - apply game_inv_turn_payoffs. by eapply update_inv.
  - apply balanced_turn_payoffs. unfold balanced in *.
    rewrite Hcur. destruct (current g); cbn [other player] in *; lia.
  - rewrite cards_in_hand_turn_payoffs. unfold cards_in_hand.
    change (playerA g1) with (player g1 A).
    change (playerB g1) with (player g1 B).
    change (playerA g) with (player g A).
    change (playerB g) with (player g B).
    destruct (current g); cbn [other player] in *; lia.
  - cbn [set_turn_payoffs turn_payoffs]. rewrite length_app. cbn. lia.
  - cbn [set_turn_payoffs first]. by injection Hc.
Qed.

Lemma balanced_current_hand (g : Game) :
  balanced g → is_over g = false → hand (player g (current g)) ≠ ∅.
Proof.
  intros Hbal Hover Hempty.
  assert (cards_in_hand g ≠ 0%nat) as Hn.
  { intros H0%is_over_cards_in_hand. congruence. }
  apply Hn. unfold balanced, cards_in_hand in *.
  rewrite Hempty, size_empty in Hbal.
  change (playerA g) with (player g A).
  change (playerB g) with (player g B).
  destruct (current g); cbn [other player] in *;
    rewrite ?Hempty, ?size_empty; lia.
Qed.

(** Greedy against greedy: as many rounds as there are cards in hand. *)
Lemma simulate_greedy (n : nat) :
  ∀ fuel rnd g prev,
    game_inv g → balanced g → cards_in_hand g = n → (n ≤ fuel)%nat →
    ∃ g', simulate_fuel fuel rnd [GREEDY; GREEDY] g prev
          = Ok (g', (idx_Z (first g'), get_winner g', u g'))
          ∧ is_over g' = true
          ∧ turn g' = turn g + Z.of_nat n
          ∧ length (turn_payoffs g') = (length (turn_payoffs g) + n)%nat
          ∧ first g' = first g.
Proof.
  induction n as [|n IH]; intros fuel rnd g prev Hg Hbal Hn Hfuel.
  - apply is_over_cards_in_hand in Hn. exists g.
    destruct fuel; cbn [simulate_fuel]; rewrite Hn; cbn [negb];
      (split_and!; [done|done|lia|lia|done]).
  - destruct fuel as [|fuel]; [lia|]. cbn [simulate_fuel].
    assert (Hover : is_over g = false).
    { destruct (is_over g) eqn:E; [|done].
      apply is_over_cards_in_hand in E. lia. }
    rewrite Hover. cbn [negb]. rewrite simulate_turn_greedy.
    pose proof (balanced_current_hand g Hbal Hover) as Hhand.
    destruct (greedy_play_ok (rnd O) g Hhand) as [[k v] Egreedy].
    rewrite Egreedy. cbn [mbind result_bind fst snd].
    apply greedy_play_legal in Egreedy as [Hk Hne].
    destruct (play_move_round g k v Hg Hk Hne Hbal Hhand)
      as (g1 & -> & Hg1 & Hbal1 & Hn1 & Ht1 & Hl1 & Hf1).
    cbn [mbind result_bind].
    destruct (IH fuel (λ i, rnd (S i)) g1 (Some (k, v)) Hg1 Hbal1)
      as (g' & -> & ? & Ht & Hl & Hf); [lia|lia|].
    exists g'. split_and!; [done|done|lia|lia|congruence].
Qed.

(** C8. For [num_cards = 10], [num_hand = 4], [num_table = 2], whatever the
    deal and the random draws: construction succeeds, and
    [simulate(["greedy", "greedy"])] returns after exactly 8 rounds (the
    game is then at turn 9 and 8 payoffs are recorded), with both hands
    empty and a winner among -1, 0 and 1. *)
Theorem greedy_simulation (shuffle : list Z → list Z) (cf : bool) (d : Z)
    (rnd : nat → nat) (fuel : nat) :
  shuffle (py_range 2 12) ≡ₚ py_range 2 12 → (8 ≤ fuel)%nat →
  ∃ g0 g w,
    Game_init shuffle 10 4 2 cf d = Ok g0
    ∧ simulate fuel rnd [GREEDY; GREEDY] g0 = Ok (g, (idx_Z (first g0), w, u g))
    ∧ hand (playerA g) = ∅ ∧ hand (playerB g) = ∅
    ∧ turn g = 9 ∧ length (turn_payoffs g) = 8%nat
    ∧ (w = -1 ∨ w = 0 ∨ w = 1).
Proof.
  intros Hsh Hfuel.
  destruct (reset_ok shuffle
              (mkGame 10 4 2 cf d 0 0 Player_init Player_init ∅ [] A A []))
    as [g0 E0]; [done|cbn; lia|cbn; lia|].
  pose proof (reset_inv shuffle
                (mkGame 10 4 2 cf d 0 0 Player_init Player_init ∅ [] A A [])
                g0 Hsh E0)
    as (Hg0 & HA & HB & Ht0 & _ & Hl0 & Hcur & _).
  cbn [num_hand] in HA, HB.
  destruct (simulate_greedy 8 fuel rnd g0 None Hg0)
    as (g & E & Hover & Ht & Hl & Hf).
  { unfold balanced.
    destruct (current g0); cbn [other player]; rewrite HA, HB; lia. }
  { unfold cards_in_hand. rewrite HA, HB. lia. }
  { done. }
  exists g0, g, (get_winner g).
  apply is_over_hands in Hover as [? ?].
  rewrite (Game_init_ok shuffle 10 4 2 cf d eq_refl).
  unfold simulate. rewrite E0, E, Hf, Ht, Hl, Ht0, Hl0.
  split_and!; try done. apply get_winner_range.
Qed.

(** * Further properties of the code *)

(** ** The hand *)

Lemma iter_nil (s : gset Z) : iter s = [] ↔ s = ∅.
Proof using iter_perm.
  clear is_prime.
  split.
  - intros Hnil. apply set_eq. intros x.
    rewrite <- iter_elem_of, Hnil. set_solver.
  - intros ->. apply Permutation_nil_r. by rewrite iter_perm, elements_empty.
Qed.

Lemma foldl_min_least (l : list Z) (x : Z) :
  foldl Z.min x l ∈ x :: l ∧ ∀ c, c ∈ x :: l → foldl Z.min x l ≤ c.
Proof.
  revert x. induction l as [|y l IH]; intros x; cbn [foldl].
  - split; [left|]. intros c ->%list_elem_of_singleton. lia.
  - destruct (IH (Z.min x y)) as [Hin Hle]. split.
    + apply elem_of_cons in Hin as [->|Hin]; [|by do 2 right].
      destruct (Z.min_spec x y) as [[_ ->]|[_ ->]]; [left|right; left].
    + intros c Hc. rewrite !elem_of_cons in Hc.
      assert (foldl Z.min (Z.min x y) l ≤ Z.min x y) by (apply Hle; left).
      destruct Hc as [->|[->|Hc]]; [lia|lia|]. apply Hle. by right.
Qed.

Lemma min_hand_empty (p : Player) : hand p = ∅ → min_hand p = Err ValueError.
Proof. unfold min_hand. intros H%iter_nil. by rewrite H. Qed.

Lemma min_hand_ok (p : Player) :
  hand p ≠ ∅ →
  ∃ m, min_hand p = Ok m ∧ m ∈ hand p ∧ ∀ c, c ∈ hand p → m ≤ c.
Proof.
  unfold min_hand.
  intros Hne. destruct (iter (hand p)) as [|x l] eqn:E;
    [by apply iter_nil in E|].
  destruct (foldl_min_least l x) as [Hin Hle].
  eexists. split; [done|]. rewrite <- E in Hin, Hle. split.
  - by apply iter_elem_of.
  - intros c Hc. by apply Hle, iter_elem_of.
Qed.

(** [min_hand] raises [ValueError] on an empty hand, and on any other hand
    returns its least card. *)
Theorem min_hand_least (p : Player) :
  (hand p = ∅ → min_hand p = Err ValueError)
  ∧ (hand p ≠ ∅ →
     ∃ m, min_hand p = Ok m ∧ m ∈ hand p ∧ ∀ c, c ∈ hand p → m ≤ c).
Proof. split; [apply min_hand_empty|apply min_hand_ok]. Qed.

(** [get_random_card] raises [IndexError] on an empty hand; on any other
    hand every draw is a card of the hand, and every card of the hand is
    drawn by some random index. *)
Theorem get_random_card_hand (p : Player) :
  (hand p = ∅ → ∀ r, get_random_card r p = Err IndexError)
  ∧ (hand p ≠ ∅ → ∀ r, ∃ c, get_random_card r p = Ok c ∧ c ∈ hand p)
  ∧ (∀ c, c ∈ hand p → ∃ r, get_random_card r p = Ok c).
Proof.
  unfold get_random_card. split_and!.
  - intros H%iter_nil r. by rewrite H.
  - intros Hne r.
    destruct (choice_ok r (iter (hand p))) as [c E];
      [by rewrite iter_nil|].
    exists c. split; [done|]. by eapply iter_elem_of, choice_elem_of.
  - intros c Hc%iter_elem_of.
    apply list_elem_of_lookup_1 in Hc as [i Hi].
    exists i. unfold choice.
    rewrite Nat.mod_small by (by eapply lookup_lt_Some). by rewrite Hi.
Qed.

(** ** The stacks *)

Lemma last_or_minus1_snoc (l : list Z) (c : Z) : last_or_minus1 (l ++ [c]) = c.
Proof. unfold last_or_minus1. by rewrite last_snoc. Qed.

Lemma NoDup_snoc_filter (c : Z) (l : list Z) :
  NoDup l → NoDup (filter (λ x, x ≠ c) l ++ [c]).
Proof.
  intros Hl. apply NoDup_app. split_and!.
  - by apply NoDup_filter.
  - intros x [Hx _]%list_elem_of_filter ->%list_elem_of_singleton. done.
  - apply NoDup_singleton.
Qed.

Lemma add_stacks_shape (p : Player) (c : Z) :
  NoDup (primes p) → NoDup (composites p) →
  add_stacks p c
  = if is_prime c
    then mkPlayer (hand p) (filter (λ x, x ≠ c) (primes p) ++ [c])
           (composites p)
    else mkPlayer (hand p) (primes p)
           (filter (λ x, x ≠ c) (composites p) ++ [c]).
Proof.
  intros Np Nc.
  unfold add_stacks, remove_prime, remove_composite, add_prime, add_composite,
    prime_contains, composite_contains.
  destruct p as [h ps cs]; cbn in *.
  destruct (is_prime c).
  - case_bool_decide as Hin; cbn.
    + by rewrite remove_first_filter.
    + by rewrite filter_absent.
  - case_bool_decide as Hin; cbn.
    + by rewrite remove_first_filter.
    + by rewrite filter_absent.
Qed.

(** [add_stacks] on stacks without duplicates: the card becomes the last
    card of the stack of its kind, where it occurs once; the other cards of
    that stack keep their order; the other stack and the hand are
    untouched. *)
Theorem add_stacks_last (p : Player) (c : Z) :
  NoDup (primes p) → NoDup (composites p) →
  hand (add_stacks p c) = hand p
  ∧ NoDup (primes (add_stacks p c)) ∧ NoDup (composites (add_stacks p c))
  ∧ (is_prime c = true →
     primes (add_stacks p c) = filter (λ x, x ≠ c) (primes p) ++ [c]
     ∧ composites (add_stacks p c) = composites p
     ∧ obtain_last_prime (add_stacks p c) = c)
  ∧ (is_prime c = false →
     composites (add_stacks p c) = filter (λ x, x ≠ c) (composites p) ++ [c]
     ∧ primes (add_stacks p c) = primes p
     ∧ obtain_last_composite (add_stacks p c) = c).
Proof.
  intros Np Nc. rewrite add_stacks_shape by done.
  unfold obtain_last_prime, obtain_last_composite.
  destruct (is_prime c); cbn [hand primes composites];
    split_and!; try done; auto using NoDup_snoc_filter;
    intros _; by rewrite last_or_minus1_snoc.
Qed.

Lemma remove_stacks_shape (p : Player) (c : Z) :
  NoDup (primes p) → NoDup (composites p) →
  remove_stacks p c
  = if is_prime c
    then mkPlayer (hand p) (filter (λ x, x ≠ c) (primes p)) (composites p)
    else mkPlayer (hand p) (primes p) (filter (λ x, x ≠ c) (composites p)).
Proof.
  intros Np Nc.
  unfold remove_stacks, remove_prime, remove_composite, prime_contains,
    composite_contains.
  destruct p as [h ps cs]; cbn in *.
  destruct (is_prime c); cbn [andb negb].
  - case_bool_decide as Hin; cbn.
    + by rewrite remove_first_filter.
    + by rewrite filter_absent.
  - case_bool_decide as Hin; cbn.
    + by rewrite remove_first_filter.
    + by rewrite filter_absent.
Qed.

(** [remove_stacks] on stacks without duplicates takes the card out of the
    stack of its kind and leaves everything else; it undoes [add_stacks] of
    a card that was in neither stack, and adding a card twice is adding it
    once. *)
Theorem remove_stacks_add_stacks (p : Player) (c : Z) :
  NoDup (primes p) → NoDup (composites p) →
  (is_prime c = true → prime_contains (remove_stacks p c) c = false)
  ∧ (is_prime c = false → composite_contains (remove_stacks p c) c = false)
  ∧ (c ∉ primes p → c ∉ composites p →
     remove_stacks (add_stacks p c) c = p)
  ∧ add_stacks (add_stacks p c) c = add_stacks p c.
Proof.
  intros Np Nc.
  assert (Hout : ∀ l : list Z, c ∉ filter (λ x, x ≠ c) l)
    by (by intros l [? _]%list_elem_of_filter).
  assert (Hsnoc : ∀ l : list Z,
            filter (λ x, x ≠ c) (filter (λ x, x ≠ c) l ++ [c])
            = filter (λ x, x ≠ c) l).
  { intros l. rewrite filter_app, filter_singleton_False by tauto.
    rewrite app_nil_r. by apply filter_absent. }
  split_and!.
  - intros E. rewrite remove_stacks_shape, E by done.
    unfold prime_contains; cbn. by apply bool_decide_eq_false.
  - intros E. rewrite remove_stacks_shape, E by done.
    unfold composite_contains; cbn. by apply bool_decide_eq_false.
  - intros Hp Hc. rewrite add_stacks_shape by done.
    destruct p as [h ps cs]; cbn in *.
    destruct (is_prime c) eqn:E.
    + rewrite remove_stacks_shape; cbn; auto using NoDup_snoc_filter.
      rewrite E, Hsnoc. by rewrite filter_absent.
    + rewrite remove_stacks_shape; cbn; auto using NoDup_snoc_filter.
      rewrite E, Hsnoc. by rewrite filter_absent.
  - rewrite (add_stacks_shape p) by done.
    destruct (is_prime c) eqn:E.
    + rewrite add_stacks_shape; cbn; auto using NoDup_snoc_filter.
      by rewrite E, Hsnoc.
    + rewrite add_stacks_shape; cbn; auto using NoDup_snoc_filter.
      by rewrite E, Hsnoc.
Qed.

(** ** Playable cards and the division by zero *)

(** [find_playable_cards] raises [ZeroDivisionError] exactly when one of the
    two cards is 0; otherwise it returns at most five values, and the two
    orders of the pair give the same values, each as many times. *)
Theorem find_playable_cards_pair (n c1 c2 : Z) :
  (find_playable_cards n c1 c2 = Err ZeroDivisionError ↔ c1 = 0 ∨ c2 = 0)
  ∧ (∀ l, find_playable_cards n c1 c2 = Ok l →
          (length l ≤ 5)%nat
          ∧ ∃ l', find_playable_cards n c2 c1 = Ok l' ∧ l' ≡ₚ l).
Proof using.
  clear is_prime iter iter_perm.
  split.
  - split; [|apply find_playable_cards_error].
    intros E. destruct (decide (c1 = 0)) as [|H1]; [by left|].
    destruct (decide (c2 = 0)) as [|H2]; [by right|].
    destruct (find_playable_cards_ok n c1 c2 H1 H2) as [l El]. congruence.
  - unfold find_playable_cards, floordiv.
    destruct (decide (c2 = 0)) as [|_]; [done|].
    destruct (decide (c1 = 0)) as [|_]; [done|].
    cbn [mbind result_bind]. intros l.
    match goal with
    | |- Ok ?t = Ok l → _ => intros E; assert (l = t) as -> by congruence
    end.
    clear E.
    replace (c2 + c1) with (c1 + c2) by lia.
    replace (Z.abs (c2 - c1)) with (Z.abs (c1 - c2)) by lia.
    replace (c2 * c1) with (c1 * c2) by lia.
    generalize (c1 + c2) (Z.abs (c1 - c2)) (c1 * c2) (c1 / c2) (c2 / c1)
      (c1 `mod` c2) (c2 `mod` c1).
    intros s d m q1 q2 r1 r2.
    generalize ((1 <? s) && (s <? n + 2)) ((1 <? d) && (d <? n + 2))
      ((1 <? m) && (m <? n + 2))
      ((1 <? q1) && (q1 <? n + 2) && (r1 =? 0))
      ((1 <? q2) && (q2 <? n + 2) && (r2 =? 0)).
    intros b1 b2 b3 b4 b5. split.
    + destruct b1, b2, b3, b4, b5; cbn; lia.
    + eexists. split; [reflexivity|].
      destruct b1, b2, b3, b4, b5; cbn; solve_Permutation.
Qed.

Lemma foldM_error_elem {S T : Type} (f : S → T → result S) (l : list T)
    (s : S) (e : error) :
  foldM f s l = Err e → ∃ s' x, x ∈ l ∧ f s' x = Err e.
Proof.
  revert s. induction l as [|x l IH]; intros s; cbn [foldM]; [done|].
  destruct (f s x) as [s1|e1] eqn:E; cbn [mbind result_bind].
  - intros (s' & y & Hy & Ey)%IH. exists s', y. split; [by right|done].
  - intros [= <-]. exists s, x. split; [left|done].
Qed.

Lemma foldM_fails {S T : Type} (f : S → T → result S) (l : list T) (s : S)
    (e : error) (x : T) :
  x ∈ l → (∀ s', f s' x = Err e) →
  (∀ s' y e', f s' y = Err e' → e' = e) →
  foldM f s l = Err e.
Proof.
  intros Hx Hfx Hall. revert s.
  induction l as [|y l IH]; intros s; cbn [foldM]; [by apply elem_of_nil in Hx|].
  destruct (f s y) as [s1|e1] eqn:E; cbn [mbind result_bind].
  - apply IH. apply elem_of_cons in Hx as [->|Hx]; [|done].
    by rewrite Hfx in E.
  - by rewrite (Hall _ _ _ E).
Qed.

Lemma index_pairs_with (l : list Z) (x : Z) :
  x ∈ l → (2 ≤ length l)%nat →
  ∃ y, (x, y) ∈ index_pairs l ∨ (y, x) ∈ index_pairs l.
Proof.
  induction l as [|a l IH]; [by intros ?%elem_of_nil|].
  intros Hx Hlen. cbn [index_pairs].
  destruct l as [|b l]; [cbn in Hlen; lia|].
  apply elem_of_cons in Hx as [->|Hx].
  - exists b. left. apply elem_of_app. left.
    apply list_elem_of_fmap. exists b. split; [done|left].
  - exists a. right. apply elem_of_app. left.
    apply list_elem_of_fmap. by exists x.
Qed.

Lemma index_pairs_length (l : list Z) (cc : Z * Z) :
  cc ∈ index_pairs l → (2 ≤ length l)%nat.
Proof.
  induction l as [|a l IH]; cbn [index_pairs]; [by intros ?%elem_of_nil|].
  intros [Hc|Hc]%elem_of_app.
  - destruct l; [by apply elem_of_nil in Hc|cbn; lia].
  - apply IH in Hc. cbn. lia.
Qed.

(** [find_playable_sets] can only raise [ZeroDivisionError], and does so
    exactly when the table holds the card 0 and one more card. *)
Theorem find_playable_sets_fails (g : Game) :
  (find_playable_sets g = Err ZeroDivisionError
   ↔ 0 ∈ table g ∧ (2 ≤ size (table g))%nat)
  ∧ (∀ e, find_playable_sets g = Err e → e = ZeroDivisionError).
Proof.
  split; [|intros e; apply find_playable_sets_error].
  assert (Herr : ∀ d (cc : Z * Z) e,
    (let '(c1, c2) := cc in
     playable_cards ← find_playable_cards (num_cards g) c1 c2;
     Ok (foldl (add_playable g c1 c2) d playable_cards)) = Err e →
    e = ZeroDivisionError ∧ (cc.1 = 0 ∨ cc.2 = 0)).
  { intros d [c1 c2] e. cbn [fst snd].
    destruct (decide (c1 = 0 ∨ c2 = 0)) as [H0|H0].
    - rewrite find_playable_cards_error by done.
      cbn [mbind result_bind]. by intros [= <-].
    - destruct (find_playable_cards_ok (num_cards g) c1 c2) as [l ->];
        [tauto..|]. done. }
  unfold find_playable_sets. rewrite <- iter_length, <- iter_elem_of. split.
  - destruct (foldM _ _ _) as [d|e] eqn:E; cbn [mbind result_bind]; [done|].
    intros _. apply foldM_error_elem in E as (d & [c1 c2] & Hin & E).
    apply (Herr d (c1, c2)) in E as [_ H0]. cbn [fst snd] in H0.
    split; [|by eapply index_pairs_length].
    apply index_pairs_elem_of in Hin as [H1 H2]. by destruct H0 as [<-| <-].
  - intros [H0 Hlen].
    destruct (index_pairs_with _ 0 H0 Hlen) as [y Hy].
    match goal with
    | |- context [foldM ?f ?s ?l] =>
        assert (foldM f s l = Err ZeroDivisionError) as ->; [|done]
    end.
    destruct Hy as [Hy|Hy];
      (eapply foldM_fails; [exact Hy| |]);
      try (intros d; cbn beta iota;
           rewrite find_playable_cards_error by auto; done);
      intros d cc e He; by apply (Herr d cc) in He as [-> _].
Qed.

(** ** The deal and the first player *)

(** What [reset] builds, card by card. *)
Lemma reset_shape (shuffle : list Z → list Z) (g0 g : Game) :
  reset shuffle g0 = Ok g →
  ∃ rest la lb f,
    shuffle (py_range 2 (num_cards g0 + 2)) ≡ₚ rest ++ la ++ lb
    ∧ length la = Z.to_nat (num_hand g0) ∧ length lb = Z.to_nat (num_hand g0)
    ∧ g = mkGame (num_cards g0) (num_hand g0) (num_table g0)
            (change_first g0) (depth g0) 1 0
            (mkPlayer (list_to_set la) [] []) (mkPlayer (list_to_set lb) [] [])
            (list_to_set rest) [] f f (playable_sets g)
    ∧ (if change_first g0
       then ∃ a b, min_hand (mkPlayer (list_to_set la) [] []) = Ok a
                   ∧ min_hand (mkPlayer (list_to_set lb) [] []) = Ok b
                   ∧ f = (if a <? b then A else B)
       else f = A).
Proof.
  unfold reset, deal_cards.
  cbn [num_cards num_hand player playerA playerB].
  destruct (deal_loop _ _ _ _) as [[[pa pb] rest]|] eqn:Edeal;
    cbn [mbind result_bind]; [|done].
  apply deal_loop_inv in Edeal as (la & lb & Hperm & Hla & Hlb & -> & ->).
  cbn [hand primes composites Player_init].
  rewrite !union_empty_r_L.
  unfold find_first_player.
  cbn [change_first set_table set_player player playerA playerB num_cards
         num_hand num_table depth turn u table turn_payoffs playable_sets].
  destruct (change_first g0).
  - destruct (min_hand (mkPlayer (list_to_set la) [] [])) as [a|] eqn:Ea;
      cbn [mbind result_bind]; [|done].
    destruct (min_hand (mkPlayer (list_to_set lb) [] [])) as [b|] eqn:Eb;
      cbn [mbind result_bind]; [|done].
    intros E. apply find_playable_sets_frame in E.
    exists rest, la, lb, (if a <? b then A else B).
    split_and!; try done. by exists a, b.
  - cbn [mbind result_bind].
    intros E. apply find_playable_sets_frame in E.
    by exists rest, la, lb, A.
Qed.

(** A new game, for [num_hand >= 0]: each hand holds [num_hand] cards and
    the table [num_table]; the hands and the table are pairwise disjoint and
    together they are the cards from 2 to [num_cards + 1]; the stacks are
    empty, no payoff is recorded, and the game is at turn 1 with [u = 0]. *)
Theorem new_game_dealt (shuffle : list Z → list Z) (nc nh nt : Z) (cf : bool)
    (d : Z) (g : Game) :
  shuffle (py_range 2 (nc + 2)) ≡ₚ py_range 2 (nc + 2) → 0 ≤ nh →
  Game_init shuffle nc nh nt cf d = Ok g →
  size (hand (playerA g)) = Z.to_nat nh
  ∧ size (hand (playerB g)) = Z.to_nat nh
  ∧ size (table g) = Z.to_nat nt
  ∧ hand (playerA g) ## hand (playerB g)
  ∧ hand (playerA g) ## table g ∧ hand (playerB g) ## table g
  ∧ (∀ x, x ∈ hand (playerA g) ∪ hand (playerB g) ∪ table g
          ↔ 2 ≤ x ≤ nc + 1)
  ∧ primes (playerA g) = [] ∧ composites (playerA g) = []
  ∧ primes (playerB g) = [] ∧ composites (playerB g) = []
  ∧ turn g = 1 ∧ u g = 0 ∧ turn_payoffs g = [] ∧ current g = first g
  ∧ (num_cards g, num_hand g, num_table g, change_first g, depth g)
    = (nc, nh, nt, cf, d).
Proof.
  intros Hsh Hnh [Heq E]%Game_init_reset.
  apply reset_shape in E as (rest & la & lb & f & Hperm & Hla & Hlb & -> & _).
  cbn [num_cards num_hand] in *. rewrite Hsh in Hperm.
  assert (Hnd : NoDup (rest ++ la ++ lb))
    by (rewrite <- Hperm; apply NoDup_py_range).
  assert (Hlen : length (rest ++ la ++ lb) = Z.to_nat nc)
    by (rewrite <- Hperm, length_py_range; f_equal; lia).
  rewrite !length_app in Hlen.
  apply NoDup_app in Hnd as (Hr & Hd1 & (Ha & Hd2 & Hb)%NoDup_app).
  cbn [playerA playerB table hand primes composites turn u turn_payoffs
         current first num_table change_first depth].
  rewrite !size_list_to_set by done.
  split_and!; try done.
  - lia.
  - intros x. rewrite !elem_of_list_to_set. intros ??. by apply (Hd2 x).
  - intros x. rewrite !elem_of_list_to_set. intros ??.
    apply (Hd1 x); [done|]. apply elem_of_app. by left.
  - intros x. rewrite !elem_of_list_to_set. intros ??.
    apply (Hd1 x); [done|]. apply elem_of_app. by right.
  - intros x. rewrite !elem_of_union, !elem_of_list_to_set.
    assert (x ∈ py_range 2 (nc + 2) ↔ 2 ≤ x ≤ nc + 1) as <-
      by (rewrite elem_of_py_range; lia).
    rewrite Hperm, !elem_of_app. tauto.
Qed.

(** With [change_first] the player who moves first is the one who holds the
    lowest card of the two hands; without it, A moves first. *)
Theorem first_player_lowest (shuffle : list Z → list Z) (nc nh nt : Z)
    (cf : bool) (d : Z) (g : Game) :
  Game_init shuffle nc nh nt cf d = Ok g →
  current g = first g
  ∧ (cf = false → first g = A)
  ∧ (cf = true →
     ∃ m, m ∈ hand (player g (first g))
          ∧ ∀ c, c ∈ hand (playerA g) ∪ hand (playerB g) → m ≤ c).
Proof.
  intros [Heq E]%Game_init_reset.
  apply reset_shape in E as (rest & la & lb & f & _ & _ & _ & -> & Hf).
  cbn [change_first current first playerA playerB player] in *.
  split_and!; [done|by intros ->|]. intros ->.
  destruct Hf as (a & b & Ea & Eb & ->).
  pose proof (min_hand_empty (mkPlayer (list_to_set la) [] [])) as Ha0.
  pose proof (min_hand_ok (mkPlayer (list_to_set la) [] [])) as Ha1.
  pose proof (min_hand_empty (mkPlayer (list_to_set lb) [] [])) as Hb0.
  pose proof (min_hand_ok (mkPlayer (list_to_set lb) [] [])) as Hb1.
  cbn [hand] in *.
  destruct (decide (list_to_set la = (∅ : gset Z))) as [Ha|Ha];
    [by rewrite Ha0 in Ea|].
  destruct (decide (list_to_set lb = (∅ : gset Z))) as [Hb|Hb];
    [by rewrite Hb0 in Eb|].
  destruct (Ha1 Ha) as (a' & Ea' & Hain & Hale).
  destruct (Hb1 Hb) as (b' & Eb' & Hbin & Hble).
  rewrite Ea in Ea'. rewrite Eb in Eb'.
  injection Ea' as <-. injection Eb' as <-.
  destruct (a <? b) eqn:Hab; cbn [player playerA playerB hand].
  - apply Z.ltb_lt in Hab. exists a. split; [done|].
    intros c [Hc|Hc]%elem_of_union; [by apply Hale|].
    apply Hble in Hc. lia.
  - apply Z.ltb_ge in Hab. exists b. split; [done|].
    intros c [Hc|Hc]%elem_of_union; [|by apply Hble].
    apply Hale in Hc. lia.
Qed.

(** ** Where the cards go *)

Lemma mover_after_elem (k : gset Z) (p : Player) (x : Z) :
  (x ∈ primes (mover_after k p) ↔
   x ∈ primes p ∧ ((size k =? 3)%nat = true → x ∉ k)
   ∨ (size k =? 3)%nat = true ∧ x ∈ k ∧ is_prime x = true)
  ∧ (x ∈ composites (mover_after k p) ↔
     x ∈ composites p ∧ ((size k =? 3)%nat = true → x ∉ k)
     ∨ (size k =? 3)%nat = true ∧ x ∈ k ∧ is_prime x = false).
Proof.
  unfold mover_after. destruct (_ =? _)%nat; cbn.
  - rewrite !elem_of_app, !elem_of_keep_out, !list_elem_of_filter,
      !iter_elem_of. tauto.
  - split; (split; [intros ?; left; by split|intros [[? _]|[? _]]; done]).
Qed.

Lemma other_after_elem (k : gset Z) (p : Player) (x : Z) :
  (x ∈ primes (other_after k p) ↔
   x ∈ primes p ∧ ((size k =? 3)%nat = true → x ∉ k))
  ∧ (x ∈ composites (other_after k p) ↔
     x ∈ composites p ∧ ((size k =? 3)%nat = true → x ∉ k)).
Proof.
  unfold other_after. destruct (_ =? _)%nat; cbn.
  - rewrite !elem_of_keep_out. tauto.
  - split; (split; [intros ?; by split|by intros [? _]]).
Qed.

Lemma elem_of_table_after (k : gset Z) (p1 p2 : Player) (t : gset Z)
    (x : Z) :
  x ∈ table_after k p1 p2 t ↔
  (x ∈ t ∧ (x ∉ last_set (primes p1)) ∧ (x ∉ last_set (composites p1))
   ∧ ((size k =? 3)%nat = true → x ∉ k))
  ∨ ((size k =? 3)%nat = false ∧ x ∈ k)
  ∨ x ∈ last_set (primes (mover_after k p1))
  ∨ x ∈ last_set (composites (mover_after k p1))
  ∨ x ∈ last_set (primes (other_after k p2))
  ∨ x ∈ last_set (composites (other_after k p2)).
Proof.
  unfold table_after. cbn zeta. rewrite !elem_of_union.
  destruct (size k =? 3)%nat;
    rewrite ?elem_of_union, !elem_of_difference; intuition congruence.
Qed.

(** No card is lost and none is made by a move. *)
Lemma in_position_step (k : gset Z) (p1 p2 : Player) (t : gset Z) (x : Z) :
  move_ok k p1 t →
  in_position (mover_after k p1) (other_after k p2) (table_after k p1 p2 t) x
  ↔ in_position p1 p2 t x.
Proof.
  intros Hmove. unfold in_position.
  pose proof (last_set_elem_of (primes (mover_after k p1)) x) as L1.
  pose proof (last_set_elem_of (composites (mover_after k p1)) x) as L2.
  pose proof (last_set_elem_of (primes (other_after k p2)) x) as L3.
  pose proof (last_set_elem_of (composites (other_after k p2)) x) as L4.
  pose proof (last_set_elem_of (primes p1) x) as L5.
  pose proof (last_set_elem_of (composites p1) x) as L6.
  destruct (decide (x ∈ k)) as [DK|DK];
    destruct (decide (x ∈ last_set (primes p1))) as [D1|D1];
    destruct (decide (x ∈ last_set (composites p1))) as [D2|D2];
    destruct (decide (is_prime x = true)) as [DP|DP].
  all: revert L1 L2 L3 L4.
  all: unfold table_after, move_ok in *.
  all: unfold mover_after, other_after.
  all: destruct (size k =? 3)%nat; cbn [hand primes composites].
  all: try (destruct Hmove as (c3 & _ & Hc3 & Hsub);
            assert (Hk : x ∈ k → x ∈ hand p1 ∨ x ∈ t)
              by (intros Hx; destruct (decide (x = c3)) as [->|Hne];
                  [by left|right; apply Hsub, elem_of_difference;
                           by rewrite elem_of_singleton]);
            clear Hsub Hc3).
  all: rewrite ?elem_of_union, ?elem_of_difference, ?elem_of_union,
         ?elem_of_app, ?elem_of_keep_out, ?list_elem_of_filter,
         ?iter_elem_of, <- ?not_true_iff_false.
  all: try (assert (Hk : x ∈ k → x ∈ hand p1) by apply Hmove; clear Hmove).
  all: tauto.
Qed.

Lemma in_position_sym (p1 p2 : Player) (t : gset Z) (x : Z) :
  in_position p1 p2 t x ↔ in_position p2 p1 t x.
Proof. unfold in_position. tauto. Qed.

Lemma tops_on_table_sym (p1 p2 : Player) (t : gset Z) :
  tops_on_table p1 p2 t → tops_on_table p2 p1 t.
Proof. unfold tops_on_table. tauto. Qed.

Lemma tops_on_table_step (k : gset Z) (p1 p2 : Player) (t : gset Z) :
  tops_on_table (mover_after k p1) (other_after k p2) (table_after k p1 p2 t).
Proof.
  unfold tops_on_table.
  split_and!; intros x Hx; apply elem_of_table_after; tauto.
Qed.

(** The position after [update] with a legal move, read for A and B. *)
Lemma update_position (P : Player → Player → gset Z → Prop) (g g' : Game)
    (k : gset Z) (v : Z) :
  (∀ p1 p2 t, P p1 p2 t → P p2 p1 t) →
  game_inv g → legal_move g k → update g k v = Ok g' →
  P (mover_after k (player g (current g)))
    (other_after k (player g (other (current g))))
    (table_after k (player g (current g)) (player g (other (current g)))
       (table g)) →
  P (playerA g') (playerB g') (table g').
Proof.
  intros Hsym Hg Hk E.
  destruct (update_shape g g' k v Hg Hk E) as (E1 & E2 & E3 & _).
  rewrite <- E1, <- E2, <- E3.
  destruct (current g); cbn [player other]; [done|apply Hsym].
Qed.

(** A round of [simulate] is [update] with a legal move, and the payoff
    recorded. *)
Lemma simulate_turn_update (r : nat) (strategies : list string) (g g' : Game)
    (prev prev' : option (gset Z * Z)) :
  game_inv g → known_strategies strategies →
  simulate_turn r strategies g prev = Ok (g', prev') →
  ∃ k v g1, legal_move g k ∧ update g k v = Ok g1
            ∧ g' = set_turn_payoffs g1 (turn_payoffs g ++ [u g1])
            ∧ prev' = Some (k, v).
Proof.
  intros Hg Hs E.
  destruct (simulate_turn_known _ _ _ _ _ _ Hg Hs E) as (k & v & Hk & Ep & ->).
  rewrite play_move_update in Ep.
  destruct (update g k v) as [g1|] eqn:Eu; cbn [mbind result_bind] in Ep;
    [|done].
  injection Ep as <-. by exists k, v, g1.
Qed.

Lemma update_in_game (g g' : Game) (k : gset Z) (v : Z) (x : Z) :
  game_inv g → legal_move g k → update g k v = Ok g' →
  in_game g' x ↔ in_game g x.
Proof.
  intros Hg Hk E. unfold in_game.
  destruct (legal_move_ok g k Hg Hk) as [Hmove _].
  transitivity (in_position (player g (current g))
                  (player g (other (current g))) (table g) x).
  - refine (update_position
      (λ p1 p2 t, in_position p1 p2 t x
                  ↔ in_position (player g (current g))
                      (player g (other (current g))) (table g) x)
      g g' k v _ Hg Hk E _).
    + intros p1 p2 t <-. apply in_position_sym.
    + by apply in_position_step.
  - destruct (current g); cbn [player other]; [done|apply in_position_sym].
Qed.

Lemma reset_in_game (shuffle : list Z → list Z) (g0 g : Game) (x : Z) :
  shuffle (py_range 2 (num_cards g0 + 2)) ≡ₚ py_range 2 (num_cards g0 + 2) →
  reset shuffle g0 = Ok g →
  (in_game g x ↔ 2 ≤ x ≤ num_cards g + 1)
  ∧ tops_on_table (playerA g) (playerB g) (table g).
Proof.
  intros Hsh E.
  apply reset_shape in E as (rest & la & lb & f & Hperm & _ & _ & -> & _).
  unfold in_game, in_position, tops_on_table.
  cbn [playerA playerB table hand primes composites num_cards last_set last].
  split; [|split_and!; apply empty_subseteq].
  rewrite !elem_of_list_to_set, !elem_of_nil.
  assert (x ∈ py_range 2 (num_cards g0 + 2) ↔ 2 ≤ x ≤ num_cards g0 + 1) as <-
    by (rewrite elem_of_py_range; lia).
  rewrite <- Hsh, Hperm, !elem_of_app. tauto.
Qed.

Lemma reachable_in_game (g : Game) :
  reachable g → ∀ x, in_game g x ↔ 2 ≤ x ≤ num_cards g + 1.
Proof.
  induction 1 as [shuffle nc nh nt cf d g Hsh E|shuffle g g' _ IH Hsh E
                  |g k v g' Hr IH Hk E|r strategies g prev g' prev' Hr IH Hs E];
    intros x.
  - apply Game_init_reset in E as [_ E].
    by destruct ((λ H, reset_in_game shuffle _ g x H E) Hsh) as [? _].
  - by destruct ((λ H, reset_in_game shuffle _ g' x H E) Hsh) as [? _].
  - apply reachable_inv in Hr.
    rewrite (update_in_game g g' k v x Hr Hk E), IH.
    apply update_config in E. injection E as -> _. done.
  - apply reachable_inv in Hr.
    destruct (simulate_turn_update _ _ _ _ _ _ Hr Hs E)
      as (k & v & g1 & Hk & Eu & -> & _).
    change (in_game g1 x ↔ 2 ≤ x ≤ num_cards g1 + 1).
    rewrite (update_in_game g g1 k v x Hr Hk Eu), IH.
    apply update_config in Eu. injection Eu as -> _. done.
Qed.

Lemma reachable_tops (g : Game) :
  reachable g → tops_on_table (playerA g) (playerB g) (table g).
Proof.
  destruct 1 as [shuffle nc nh nt cf d g Hsh E|shuffle g g' _ Hsh E
                 |g k v g' Hr Hk E|r strategies g prev g' prev' Hr Hs E].
  - apply Game_init_reset in E as [_ E].
    by destruct ((λ H, reset_in_game shuffle _ g 0 H E) Hsh) as [_ ?].
  - by destruct ((λ H, reset_in_game shuffle _ g' 0 H E) Hsh) as [_ ?].
  - apply reachable_inv in Hr.
    refine (update_position tops_on_table g g' k v _ Hr Hk E _).
    + apply tops_on_table_sym.
    + apply tops_on_table_step.
  - apply reachable_inv in Hr.
    destruct (simulate_turn_update _ _ _ _ _ _ Hr Hs E)
      as (k & v & g1 & Hk & Eu & -> & _).
    change (tops_on_table (playerA g1) (playerB g1) (table g1)).
    refine (update_position tops_on_table g g1 k v _ Hr Hk Eu _).
    + apply tops_on_table_sym.
    + apply tops_on_table_step.
Qed.

(** In every game that play can reach, every card from 2 to
    [num_cards + 1] is in a hand, on the table or in a capture stack, and
    nothing else is: no move loses a card or makes one. *)
Theorem reachable_cards_kept (g : Game) :
  reachable g →
  ∀ x, 2 ≤ x ≤ num_cards g + 1 ↔
       x ∈ hand (playerA g) ∨ x ∈ hand (playerB g) ∨ x ∈ table g
       ∨ x ∈ primes (playerA g) ∨ x ∈ composites (playerA g)
       ∨ x ∈ primes (playerB g) ∨ x ∈ composites (playerB g).
Proof. intros Hr x. symmetry. by apply reachable_in_game. Qed.

(** In every game that play can reach, the last card of each capture stack
    lies on the table, and it is the only card of that stack on the table;
    a prime stack holds primes and a composite stack holds composites. *)
Theorem reachable_stack_tops (g : Game) (i : idx) :
  reachable g →
  (∀ c, last (primes (player g i)) = Some c → c ∈ table g)
  ∧ (∀ c, last (composites (player g i)) = Some c → c ∈ table g)
  ∧ (∀ c, c ∈ primes (player g i) →
          is_prime c = true ∧ (c ∈ table g ↔ last (primes (player g i)) = Some c))
  ∧ (∀ c, c ∈ composites (player g i) →
          is_prime c = false
          ∧ (c ∈ table g ↔ last (composites (player g i)) = Some c)).
Proof.
  intros Hr. pose proof (reachable_tops g Hr) as (L1 & L2 & L3 & L4).
  apply reachable_inv in Hr as (_ & Hpos & _).
  destruct Hpos
    as (_ & _ & _ & _ & T1 & T2 & _ & _ & Tp1 & Tc1 & Tp2 & Tc2).
  assert (Hlast : ∀ l c, last_set l ⊆ table g → last l = Some c → c ∈ table g).
  { intros l c Hl E. apply Hl. by apply elem_of_last_set. }
  destruct T1 as (P1 & C1 & _), T2 as (P2 & C2 & _).
  rewrite Forall_forall in P1, C1, P2, C2.
  destruct i; cbn [player]; split_and!; eauto;
    intros c Hc; (split; [auto|]); split; eauto.
Qed.

(** ** The playable-move table, exactly *)

Lemma dict_set_elem_of (k : gset Z) (v : Z) (d : dict) (kv : gset Z * Z) :
  kv ∈ dict_set k v d → kv = (k, v) ∨ kv ∈ d.
Proof.
  induction d as [|[k' v'] d IH]; cbn [dict_set].
  - intros ->%list_elem_of_singleton. by left.
  - destruct (decide (k' = k)) as [->|Hne].
    + intros [->|H]%elem_of_cons; [by left|right; by right].
    + intros [->|H]%elem_of_cons; [right; left|].
      destruct (IH H); [by left|right; by right].
Qed.

Lemma dict_set_at (k : gset Z) (v : Z) (d : dict) : (k, v) ∈ dict_set k v d.
Proof.
  induction d as [|[k' v'] d IH]; cbn [dict_set]; [left|].
  destruct (decide (k' = k)) as [->|Hne]; [left|by right].
Qed.

Lemma dict_set_keeps (k k' : gset Z) (v v' : Z) (d : dict) :
  (k', v') ∈ d → k' ≠ k → (k', v') ∈ dict_set k v d.
Proof.
  intros Hin Hne. induction d as [|[k1 v1] d IH]; cbn [dict_set].
  - by apply elem_of_nil in Hin.
  - apply elem_of_cons in Hin as [[= <- <-]|Hin].
    + destruct (decide (k' = k)); [done|left].
    + destruct (decide (k1 = k)); right; auto.
Qed.

Lemma dict_set_keys (k : gset Z) (v : Z) (d : dict) :
  (dict_set k v d).*1 = if decide (k ∈ d.*1) then d.*1 else d.*1 ++ [k].
Proof.
  induction d as [|[k' v'] d IH]; cbn [dict_set fmap list_fmap fst].
  - destruct (decide (k ∈ [])) as [H|_]; [by apply elem_of_nil in H|done].
  - destruct (decide (k' = k)) as [->|Hne]; cbn [fmap list_fmap fst].
    + destruct (decide (k ∈ k :: d.*1)) as [_|H]; [done|].
      destruct H. left.
    + fold (fmap (M := list) (@fst (gset Z) Z)). rewrite IH.
      destruct (decide (k ∈ d.*1)) as [H|H];
        destruct (decide (k ∈ k' :: d.*1)) as [H'|H']; try done.
      * destruct H'. by right.
      * apply elem_of_cons in H' as [->|]; done.
Qed.

Lemma dict_set_NoDup (k : gset Z) (v : Z) (d : dict) :
  NoDup d.*1 → NoDup (dict_set k v d).*1.
Proof.
  intros Hd. rewrite dict_set_keys. destruct (decide _) as [|Hk]; [done|].
  apply NoDup_app. split_and!; [done| |apply NoDup_singleton].
  by intros x Hx ->%list_elem_of_singleton.
Qed.

(** An entry whose value is a function of its key survives the assignment
    of such a value to any key. *)
Lemma dict_set_present (val : gset Z → Z) (k k' : gset Z) (d : dict) :
  (k, val k) ∈ d → (k, val k) ∈ dict_set k' (val k') d.
Proof.
  intros Hin. destruct (decide (k = k')) as [->|Hne].
  - apply dict_set_at.
  - by apply dict_set_keeps.
Qed.

Lemma foldl_reaches {S T : Type} (Q : S → Prop) (f : S → T → S) (l : list T)
    (s : S) (x0 : T) :
  x0 ∈ l → (∀ s, Q (f s x0)) → (∀ s x, Q s → Q (f s x)) → Q (foldl f s l).
Proof.
  intros Hx H0 Hkeep. revert s.
  induction l as [|x l IH]; intros s; [by apply elem_of_nil in Hx|].
  cbn [foldl]. apply elem_of_cons in Hx as [<-|Hx]; [|by apply IH].
  apply foldl_invariant; [apply H0|]. intros s' y Hs' _. by apply Hkeep.
Qed.

Lemma foldM_reaches {S T : Type} (Q : S → Prop) (f : S → T → result S)
    (l : list T) (s s' : S) (x0 : T) :
  x0 ∈ l → (∀ s s', f s x0 = Ok s' → Q s') →
  (∀ s x s', Q s → f s x = Ok s' → Q s') →
  foldM f s l = Ok s' → Q s'.
Proof.
  intros Hx H0 Hkeep. revert s.
  induction l as [|x l IH]; intros s; [by apply elem_of_nil in Hx|].
  cbn [foldM]. destruct (f s x) as [s1|] eqn:E; cbn [mbind result_bind];
    [|done].
  apply elem_of_cons in Hx as [<-|Hx]; [|by apply IH].
  apply foldM_invariant; [by eapply H0|].
  intros s2 y s3 Hs2 _. by apply Hkeep.
Qed.

Lemma index_pairs_both (l : list Z) (x y : Z) :
  x ∈ l → y ∈ l → x ≠ y → (x, y) ∈ index_pairs l ∨ (y, x) ∈ index_pairs l.
Proof.
  induction l as [|a l IH]; [by intros ?%elem_of_nil|].
  intros Hx Hy Hne. cbn [index_pairs]. rewrite !elem_of_app, !list_elem_of_fmap.
  apply elem_of_cons in Hx as [->|Hx], Hy as [->|Hy].
  - done.
  - left. left. by exists y.
  - right. left. by exists x.
  - destruct (IH Hx Hy Hne); tauto.
Qed.

(** The playable cards of a pair do not depend on the order of the pair. *)
Lemma find_playable_cards_comm (n c1 c2 : Z) (l : list Z) :
  find_playable_cards n c1 c2 = Ok l →
  ∃ l', find_playable_cards n c2 c1 = Ok l' ∧ ∀ v, v ∈ l' ↔ v ∈ l.
Proof using.
  clear is_prime iter iter_perm.
  intros E.
  assert (H1 : c1 ≠ 0)
    by (intros ->; by rewrite find_playable_cards_error in E by auto).
  assert (H2 : c2 ≠ 0)
    by (intros ->; by rewrite find_playable_cards_error in E by auto).
  destruct (find_playable_cards_ok n c2 c1 H2 H1) as [l' E'].
  exists l'. split; [done|]. intros v.
  rewrite (find_playable_cards_elem n c1 c2 l v E),
    (find_playable_cards_elem n c2 c1 l' v E').
  replace (c2 + c1) with (c1 + c2) by lia.
  replace (Z.abs (c2 - c1)) with (Z.abs (c1 - c2)) by lia.
  replace (c2 * c1) with (c1 * c2) by lia.
  tauto.
Qed.

(** The set {c1, c2, c3} made by a pair of table cards and a card they
    give, with the payoff of the set. *)
Lemma playable_sets_sound (g g' : Game) (k : gset Z) (v : Z) :
  find_playable_sets g = Ok g' → (k, v) ∈ playable_sets g' →
  (∃ c1 c2 c3 l,
      c1 ∈ table g ∧ c2 ∈ table g
      ∧ find_playable_cards (num_cards g) c1 c2 = Ok l ∧ c3 ∈ l
      ∧ size ({[c1; c2; c3]} : gset Z) = 3%nat
      ∧ k = {[c1; c2; c3]} ∧ v = calculate_move_payoff g k)
  ∨ (∃ c, c ∈ hand (player g (current g)) ∧ k = {[c]} ∧ v = 0).
Proof.
  intros E Hkv. revert E. unfold find_playable_sets.
  destruct (foldM _ _ _) as [d|e] eqn:E; cbn [mbind result_bind]; [|done].
  intros [= <-]. cbn [set_playable_sets playable_sets] in Hkv.
  revert k v Hkv.
  match goal with
  | |- ∀ k v, (k, v) ∈ ?d → ?P =>
      enough (Forall (λ kv : gset Z * Z, let k := kv.1 in let v := kv.2 in P) d)
        as HF by (rewrite Forall_forall in HF; intros k v; apply (HF (k, v)))
  end.
  apply foldl_invariant.
  - revert E. apply foldM_invariant; [constructor|].
    intros d1 [c1 c2] d2 Hd1 Hc.
    apply index_pairs_elem_of in Hc as [Hc1 Hc2].
    apply iter_elem_of in Hc1, Hc2.
    destruct (find_playable_cards _ _ _) as [pc|] eqn:Epc;
      cbn [mbind result_bind]; [|done].
    intros [= <-]. apply foldl_invariant; [done|].
    intros d3 c3 Hd3 Hc3. unfold add_playable.
    destruct (_ =? _)%nat eqn:E3; [|done].
    apply Nat.eqb_eq in E3.
    apply dict_set_Forall; [|done].
    left. by exists c1, c2, c3, pc.
  - intros d1 c Hd1 Hc. apply dict_set_Forall; [|done].
    right. exists c. split; [|done]. by apply iter_elem_of.
Qed.

Lemma playable_sets_values (g g' : Game) :
  find_playable_sets g = Ok g' →
  Forall (λ kv : gset Z * Z,
            kv.2 = if (size kv.1 =? 3)%nat
                   then calculate_move_payoff g kv.1 else 0)
    (playable_sets g').
Proof.
  intros E. apply Forall_forall. intros [k v] Hkv. cbn [fst snd].
  destruct (playable_sets_sound g g' k v E Hkv)
    as [(c1 & c2 & c3 & l & _ & _ & _ & _ & E3 & -> & ->)|(c & _ & -> & ->)].
  - by rewrite E3.
  - by rewrite size_singleton.
Qed.

Lemma playable_sets_complete (g g' : Game) (k : gset Z) (v : Z) :
  find_playable_sets g = Ok g' →
  (∃ c1 c2 c3 l,
      c1 ∈ table g ∧ c2 ∈ table g
      ∧ find_playable_cards (num_cards g) c1 c2 = Ok l ∧ c3 ∈ l
      ∧ size ({[c1; c2; c3]} : gset Z) = 3%nat
      ∧ k = {[c1; c2; c3]} ∧ v = calculate_move_payoff g k)
  ∨ (∃ c, c ∈ hand (player g (current g)) ∧ k = {[c]} ∧ v = 0) →
  (k, v) ∈ playable_sets g'.
Proof.
  set (val := λ k : gset Z,
         if (size k =? 3)%nat then calculate_move_payoff g k else 0).
  intros E Hk.
  assert (Hv : v = val k).
  { unfold val.
    destruct Hk as [(c1 & c2 & c3 & l & _ & _ & _ & _ & E3 & -> & ->)
                   |(c & _ & -> & ->)];
      [by rewrite E3|by rewrite size_singleton]. }
  subst v.
  assert (Hstep : ∀ c1 c2 c3 d,
            (k, val k) ∈ d → (k, val k) ∈ add_playable g c1 c2 d c3).
  { intros c1 c2 c3 d Hd. unfold add_playable.
    destruct (_ =? _)%nat eqn:E3; [|done].
    pose proof (dict_set_present val k {[c1; c2; c3]} d Hd) as H.
    unfold val at 2 in H. by rewrite E3 in H. }
  assert (Hhand : ∀ c d, (k, val k) ∈ d → (k, val k) ∈ dict_set {[c]} 0 d).
  { intros c d Hd.
    pose proof (dict_set_present val k {[c]} d Hd) as H.
    unfold val at 2 in H. by rewrite size_singleton in H. }
  revert E. unfold find_playable_sets.
  destruct (foldM _ _ _) as [d|e] eqn:E; cbn [mbind result_bind]; [|done].
  intros [= <-]. cbn [set_playable_sets playable_sets].
  destruct Hk as [(c1 & c2 & c3 & l & H1 & H2 & El & H3 & E3 & Hk & _)
                 |(c & Hc & -> & _)].
  - apply foldl_invariant; [|by intros; apply Hhand].
    assert (Hne : c1 ≠ c2).
    { intros ->. revert E3.
      replace ({[c2; c2; c3]} : gset Z) with ({[c2; c3]} : gset Z)
        by (apply set_eq; intros y;
            rewrite !elem_of_union, !elem_of_singleton; tauto).
      destruct (decide (c2 = c3)) as [->|Hne].
      - replace ({[c3; c3]} : gset Z) with ({[c3]} : gset Z)
          by (apply set_eq; intros y;
              rewrite !elem_of_union, !elem_of_singleton; tauto).
        by rewrite size_singleton.
      - rewrite size_union, !size_singleton; [done|].
        intros y ->%elem_of_singleton ->%elem_of_singleton. done. }
    assert (Hpair : ∃ a b la,
              (a, b) ∈ index_pairs (iter (table g))
              ∧ find_playable_cards (num_cards g) a b = Ok la ∧ c3 ∈ la
              ∧ ({[a; b; c3]} : gset Z) = k).
    { apply iter_elem_of in H1, H2.
      destruct (index_pairs_both _ c1 c2 H1 H2 Hne) as [Hp|Hp].
      - by exists c1, c2, l.
      - destruct (find_playable_cards_comm _ _ _ _ El) as (l' & El' & Hl').
        exists c2, c1, l'. split_and!; [done|done|by apply Hl'|].
        rewrite Hk. apply set_eq. intros y.
        rewrite !elem_of_union, !elem_of_singleton. tauto. }
    destruct Hpair as (a & b & la & Hp & Ela & Hc3 & Hab).
    revert E. apply (foldM_reaches _ _ _ _ _ (a, b) Hp).
    + intros d1 d2. rewrite Ela. cbn [mbind result_bind]. intros [= <-].
      apply (foldl_reaches _ _ _ _ c3 Hc3); [|by intros; apply Hstep].
      intros d3. unfold add_playable. rewrite Hab, Hk, E3. cbn [Nat.eqb].
      rewrite <- Hk. unfold val. rewrite Hk, E3. cbn [Nat.eqb].
      apply dict_set_at.
    + intros d1 [a' b'] d2 Hd1.
      destruct (find_playable_cards _ a' b') as [pc|];
        cbn [mbind result_bind]; [|done].
      intros [= <-]. apply foldl_invariant; [done|].
      intros; by apply Hstep.
  - apply iter_elem_of in Hc.
    apply (foldl_reaches _ _ _ _ c Hc); [|by intros; apply Hhand].
    intros d3. unfold val. rewrite size_singleton. apply dict_set_at.
Qed.

Lemma playable_sets_NoDup (g g' : Game) :
  find_playable_sets g = Ok g' → NoDup (playable_sets g').*1.
Proof.
  unfold find_playable_sets.
  destruct (foldM _ _ _) as [d|e] eqn:E; cbn [mbind result_bind]; [|done].
  intros [= <-]. cbn [set_playable_sets playable_sets].
  apply (foldl_invariant (λ d : dict, NoDup d.*1));
    [|by intros; apply dict_set_NoDup].
  revert E. apply (foldM_invariant (λ d : dict, NoDup d.*1)); [constructor|].
  intros d1 [c1 c2] d2 Hd1 _.
  destruct (find_playable_cards _ _ _) as [pc|]; cbn [mbind result_bind];
    [|done].
  intros [= <-]. apply (foldl_invariant (λ d : dict, NoDup d.*1)); [done|].
  intros d3 c3 Hd3 _. unfold add_playable.
  destruct (_ =? _)%nat; [by apply dict_set_NoDup|done].
Qed.

(** The table that [find_playable_sets] builds holds, once each, exactly:
    the sets of three different cards made of two table cards and a card
    that [find_playable_cards] gives for them, each with the payoff of the
    set; and the singleton of each card of the active hand, with payoff 0. *)
Theorem find_playable_sets_exact (g g' : Game) :
  find_playable_sets g = Ok g' →
  NoDup (playable_sets g').*1
  ∧ ∀ k v,
      (k, v) ∈ playable_sets g' ↔
      (∃ c1 c2 c3 l,
          c1 ∈ table g ∧ c2 ∈ table g
          ∧ find_playable_cards (num_cards g) c1 c2 = Ok l ∧ c3 ∈ l
          ∧ size ({[c1; c2; c3]} : gset Z) = 3%nat
          ∧ k = {[c1; c2; c3]} ∧ v = calculate_move_payoff g k)
      ∨ (∃ c, c ∈ hand (player g (current g)) ∧ k = {[c]} ∧ v = 0).
Proof.
  intros E. split; [by eapply playable_sets_NoDup|].
  intros k v. split.
  - by apply playable_sets_sound.
  - by apply playable_sets_complete.
Qed.

(** ** What a move does to a reachable game *)

Lemma reachable_current (g : Game) :
  reachable g →
  game_inv g
  ∧ position_inv (player g (current g)) (player g (other (current g)))
      (table g)
  ∧ tops_on_table (player g (current g)) (player g (other (current g)))
      (table g).
Proof.
  intros Hr. pose proof (reachable_tops g Hr) as Ht.
  apply reachable_inv in Hr. split_and!; [done|apply position_inv_current, Hr|].
  destruct (current g); cbn [player other]; [done|by apply tops_on_table_sym].
Qed.

(** Discarding a card of the active hand in a reachable game: [update]
    returns; the card leaves the hand and lies on the table, which keeps all
    its cards; the stacks and the other player are unchanged; the turn
    passes and [u] moves by the payoff given, with the sign of the mover. *)
Theorem discard_effect (g : Game) (c v : Z) :
  reachable g → c ∈ hand (player g (current g)) →
  ∃ g', update g {[c]} v = Ok g'
        ∧ hand (player g' (current g)) = hand (player g (current g)) ∖ {[c]}
        ∧ primes (player g' (current g)) = primes (player g (current g))
        ∧ composites (player g' (current g))
          = composites (player g (current g))
        ∧ player g' (other (current g)) = player g (other (current g))
        ∧ table g' = {[c]} ∪ table g
        ∧ current g' = other (current g) ∧ turn g' = turn g + 1
        ∧ u g' = u g + (if decide (first g = current g) then 1 else -1) * v
        ∧ config g' = config g.
Proof.
  intros (Hg & Hpos & Ht1 & Ht2 & Ht3 & Ht4)%reachable_current Hc.
  assert (Hk : legal_move g {[c]}) by (right; left; by exists c).
  destruct (legal_move_ok g _ Hg Hk) as [_ Hkr].
  destruct (update_ok g {[c]} v) as [g' E].
  { by apply game_inv_nonzero. }
  { intros x Hx. apply Hkr in Hx. lia. }
  exists g'. split; [done|].
  destruct (update_shape g g' _ v Hg Hk E) as (E1 & E2 & E3 & E4 & E5 & E6).
  rewrite E1, E2, E3. unfold table_after, mover_after, other_after.
  rewrite size_singleton. cbn [Nat.eqb hand primes composites].
  split_and!; try done.
  - apply set_eq. intros x.
    rewrite !elem_of_union, !elem_of_difference.
    destruct (decide (x ∈ last_set (primes (player g (current g)))));
      destruct (decide (x ∈ last_set (composites (player g (current g)))));
      pose proof (Ht1 x); pose proof (Ht2 x); pose proof (Ht3 x);
      pose proof (Ht4 x); tauto.
  - by eapply update_config.
Qed.

(** Playing a combination of the playable-move table in a reachable game:
    [update] returns; the combination is one card of the active hand and two
    cards of the table, and its value in the table is its payoff; the hand
    card leaves the hand; every card of the combination is afterwards in the
    mover's stack of its kind and in no stack of the other player; every
    other card stays in the stacks it was in. *)
Theorem capture_effect (g : Game) (k : gset Z) (v : Z) :
  reachable g → (k, v) ∈ playable_sets g →
  can_play_move (player g (current g)) k = true → size k = 3%nat →
  ∃ g' c3,
    update g k v = Ok g'
    ∧ c3 ∈ k ∧ c3 ∈ hand (player g (current g)) ∧ k ∖ {[c3]} ⊆ table g
    ∧ v = calculate_move_payoff g k
    ∧ hand (player g' (current g)) = hand (player g (current g)) ∖ {[c3]}
    ∧ hand (player g' (other (current g)))
      = hand (player g (other (current g)))
    ∧ (∀ x, x ∈ k →
            (x ∈ primes (player g' (current g)) ↔ is_prime x = true)
            ∧ (x ∈ composites (player g' (current g)) ↔ is_prime x = false)
            ∧ (x ∉ primes (player g' (other (current g))))
            ∧ (x ∉ composites (player g' (other (current g))))
            ∧ (x ∉ table g' ∖ last_set (primes (player g' (current g)))
                   ∖ last_set (composites (player g' (current g)))))
    ∧ (∀ x i, x ∉ k →
              (x ∈ primes (player g' i) ↔ x ∈ primes (player g i))
              ∧ (x ∈ composites (player g' i) ↔ x ∈ composites (player g i)))
    ∧ current g' = other (current g) ∧ turn g' = turn g + 1
    ∧ u g' = u g + (if decide (first g = current g) then 1 else -1) * v
    ∧ config g' = config g.
Proof.
  intros (Hg & Hpos & _)%reachable_current Hkv Hplay E3.
  assert (Hk : legal_move g k) by (right; right; by exists v).
  destruct (legal_move_ok g _ Hg Hk) as [Hmove Hkr].
  destruct (update_ok g k v) as [g' E].
  { by apply game_inv_nonzero. }
  { intros x Hx. apply Hkr in Hx. lia. }
  unfold move_ok in Hmove. rewrite E3 in Hmove. cbn [Nat.eqb] in Hmove.
  destruct Hmove as (c3 & Hc3 & Hc3h & Hsub).
  exists g', c3. split_and!; try done.
  - destruct Hg as (_ & _ & Hm).
    pose proof (playable_sets_values g g Hm) as HF.
    rewrite Forall_forall in HF. specialize (HF (k, v) Hkv).
    cbn [fst snd] in HF. by rewrite E3 in HF.
  - destruct (update_shape g g' _ v Hg Hk E) as (E1 & _).
    rewrite E1, hand_mover_after. apply set_eq. intros x.
    rewrite !elem_of_difference, elem_of_singleton. split.
    + intros [Hx Hn]. split; [done|]. by intros ->.
    + intros [Hx Hn]. split; [done|]. intros Hxk.
      destruct Hpos as (_ & Ht & _). apply (Ht x); [|done].
      apply Hsub. apply elem_of_difference. by rewrite elem_of_singleton.
  - destruct (update_shape g g' _ v Hg Hk E) as (_ & E2 & _).
    by rewrite E2, hand_other_after.
  - intros x Hx.
    destruct (update_shape g g' _ v Hg Hk E) as (E1 & E2 & E3' & _).
    rewrite E1, E2, E3'.
    destruct (mover_after_elem k (player g (current g)) x) as [M1 M2].
    destruct (other_after_elem k (player g (other (current g))) x)
      as [O1 O2].
    rewrite M1, M2, O1, O2, E3. cbn [Nat.eqb].
    rewrite !elem_of_difference, elem_of_table_after, E3. cbn [Nat.eqb].
    pose proof (last_set_elem_of
      (primes (other_after k (player g (other (current g))))) x) as L3.
    pose proof (last_set_elem_of
      (composites (other_after k (player g (other (current g))))) x) as L4.
    rewrite O1 in L3. rewrite O2 in L4. rewrite E3 in L3, L4.
    destruct (is_prime x); split_and!; try tauto; try (intuition congruence).
  - intros x i Hx.
    destruct (update_shape g g' _ v Hg Hk E) as (E1 & E2 & _).
    destruct (mover_after_elem k (player g (current g)) x) as [M1 M2].
    destruct (other_after_elem k (player g (other (current g))) x)
      as [O1 O2].
    rewrite <- E1 in M1, M2. rewrite <- E2 in O1, O2.
    destruct (current g), i; cbn [other] in *; tauto.
  - by destruct (update_shape g g' _ v Hg Hk E) as (_ & _ & _ & ? & _).
  - by destruct (update_shape g g' _ v Hg Hk E) as (_ & _ & _ & _ & ? & _).
  - by destruct (update_shape g g' _ v Hg Hk E) as (_ & _ & _ & _ & _ & ?).
  - by eapply update_config.
Qed.

(** ** The strategies *)

Lemma foldl_greedy (p : Player) (items : dict) (m0 : gset Z) (v0 : Z) :
  let res :=
    foldl (λ '(max_move, max_payoff) '(k, v),
             if can_play_move p k && (max_payoff <? v) then (k, v)
             else (max_move, max_payoff))
          (m0, v0) items in
  v0 ≤ res.2
  ∧ (∀ k v, (k, v) ∈ items → can_play_move p k = true → v ≤ res.2)
  ∧ (res = (m0, v0)
     ∨ (v0 < res.2 ∧ res ∈ items ∧ can_play_move p res.1 = true)).
Proof.
  revert m0 v0. induction items as [|[k v] items IH]; intros m0 v0;
    cbn [foldl].
  - split_and!; [cbn; lia|by intros k v ?%elem_of_nil|by left].
  - cbn zeta in IH.
    destruct (can_play_move p k) eqn:Hplay; cbn [andb].
    + destruct (v0 <? v) eqn:Hlt.
      * apply Z.ltb_lt in Hlt.
        destruct (IH k v) as (H1 & H2 & H3). split_and!.
        -- lia.
        -- intros k' v' [[= -> ->]|Hin]%elem_of_cons ?; [done|eauto].
        -- right. destruct H3 as [->|(? & ? & ?)]; cbn [fst snd].
           ++ split_and!; [done|left|done].
           ++ split_and!; [lia|by right|done].
      * apply Z.ltb_ge in Hlt.
        destruct (IH m0 v0) as (H1 & H2 & H3). split_and!.
        -- done.
        -- intros k' v' [[= -> ->]|Hin]%elem_of_cons ?; [lia|eauto].
        -- destruct H3 as [->|(? & ? & ?)]; [by left|right].
           split_and!; [done|by right|done].
    + destruct (IH m0 v0) as (H1 & H2 & H3). split_and!.
      * done.
      * intros k' v' [[= -> ->]|Hin]%elem_of_cons ?; [congruence|eauto].
      * destruct H3 as [->|(? & ? & ?)]; [by left|right].
        split_and!; [done|by right|done].
Qed.

(** [greedy_play] raises [IndexError] exactly on an empty hand.  Otherwise
    the payoff it returns is the highest value of the playable-move table
    among the sets the active player can play, or 0 if none is higher: the
    move is then a set of the table with that value, playable by the active
    player, or, at payoff 0, a single card of the hand. *)
Theorem greedy_play_best (r : nat) (g : Game) :
  (greedy_play r g = Err IndexError ↔ hand (player g (current g)) = ∅)
  ∧ (hand (player g (current g)) ≠ ∅ →
     ∃ k v,
       greedy_play r g = Ok (k, v) ∧ 0 ≤ v
       ∧ (∀ k' v', (k', v') ∈ playable_sets g →
                   can_play_move (player g (current g)) k' = true → v' ≤ v)
       ∧ ((v = 0 ∧ ∃ c, c ∈ hand (player g (current g)) ∧ k = {[c]})
          ∨ (0 < v ∧ (k, v) ∈ playable_sets g
             ∧ can_play_move (player g (current g)) k = true))).
Proof.
  unfold greedy_play, get_random_card. split.
  - split.
    + intros E. destruct (decide (hand (player g (current g)) = ∅)) as [|Hne];
        [done|].
      destruct (choice_ok r (iter (hand (player g (current g))))) as [c Ec];
        [by rewrite iter_nil|].
      by rewrite Ec in E.
    + intros H%iter_nil. by rewrite H.
  - intros Hne.
    destruct (choice_ok r (iter (hand (player g (current g))))) as [c Ec];
      [by rewrite iter_nil|].
    rewrite Ec. cbn [mbind result_bind].
    apply choice_elem_of, iter_elem_of in Ec.
    pose proof (foldl_greedy (player g (current g)) (playable_sets g)
                  {[c]} 0) as H.
    cbn zeta in H. destruct (foldl _ _ _) as [k v].
    cbn [fst snd] in H. destruct H as (H1 & H2 & H3).
    exists k, v. split_and!; [done|done|done|].
    destruct H3 as [[= -> ->]|(? & ? & ?)]; [left|by right].
    split; [done|by exists c].
Qed.

Lemma random_play_ok (r : nat) (g : Game) :
  hand (player g (current g)) ≠ ∅ → ∃ mv, random_play r g = Ok mv.
Proof.
  intros Hne. unfold random_play, get_random_card.
  destruct (choice_ok r (iter (hand (player g (current g))))) as [c ->];
    [by rewrite iter_nil|].
  cbn [mbind result_bind].
  destruct (List.find _ _) as [[k v]|]; by eexists.
Qed.

Lemma random_play_nonempty (r : nat) (g : Game) (k : gset Z) (v : Z) :
  random_play r g = Ok (k, v) → k ≠ ∅.
Proof.
  unfold random_play.
  destruct (get_random_card _ _) as [card|]; cbn [mbind result_bind]; [|done].
  destruct (List.find _ _) as [[k' v']|] eqn:Ef.
  - intros [= <- <-]. apply find_some in Ef as [_ Hc].
    apply bool_decide_eq_true in Hc. intros ->. by apply elem_of_empty in Hc.
  - intros [= <- <-] H. apply (f_equal size) in H.
    by rewrite size_singleton, size_empty in H.
Qed.

(** [random_play] raises [IndexError] exactly on an empty hand.  In a
    reachable game with a card in the active hand it returns an entry of the
    playable-move table that holds a card of the active hand, with its
    value in the table; any card of the hand can be the one drawn. *)
Theorem random_play_entry (g : Game) :
  reachable g →
  (∀ r, random_play r g = Err IndexError ↔ hand (player g (current g)) = ∅)
  ∧ (hand (player g (current g)) ≠ ∅ →
     ∀ r, ∃ k v c,
       random_play r g = Ok (k, v) ∧ (k, v) ∈ playable_sets g
       ∧ c ∈ hand (player g (current g)) ∧ c ∈ k
       ∧ v = calculate_move_payoff g k)
  ∧ (∀ c, c ∈ hand (player g (current g)) →
          ∃ r k v, random_play r g = Ok (k, v) ∧ c ∈ k).
Proof.
  intros (_ & _ & Hm)%reachable_inv.
  assert (Hsingle : ∀ c, c ∈ hand (player g (current g)) →
            ({[c]}, 0) ∈ playable_sets g).
  { intros c Hc. apply (playable_sets_complete g g _ _ Hm).
    right. by exists c. }
  assert (Hfound : ∀ c, c ∈ hand (player g (current g)) →
            ∃ k v, List.find (λ '(k, v), bool_decide (c ∈ k)) (playable_sets g)
                   = Some (k, v) ∧ (k, v) ∈ playable_sets g ∧ c ∈ k).
  { intros c Hc.
    destruct (List.find _ _) as [[k v]|] eqn:Ef.
    - exists k, v. apply find_some in Ef as [Hin Hk].
      apply bool_decide_eq_true in Hk. by rewrite list_elem_of_In.
    - eapply find_none in Ef; [|apply list_elem_of_In, (Hsingle c Hc)].
      cbn in Ef. apply bool_decide_eq_false in Ef. destruct Ef.
      by apply elem_of_singleton. }
  assert (Hval : ∀ k v, (k, v) ∈ playable_sets g →
            v = calculate_move_payoff g k).
  { intros k v Hkv. pose proof (playable_sets_values g g Hm) as HF.
    rewrite Forall_forall in HF. specialize (HF (k, v) Hkv).
    cbn [fst snd] in HF.
    destruct (size k =? 3)%nat eqn:E3; [done|].
    rewrite HF. unfold calculate_move_payoff. by rewrite E3. }
  unfold random_play, get_random_card. split_and!.
  - intros r. split.
    + intros E. destruct (decide (hand (player g (current g)) = ∅)) as [|Hne];
        [done|].
      destruct (choice_ok r (iter (hand (player g (current g))))) as [c Ec];
        [by rewrite iter_nil|].
      rewrite Ec in E. cbn [mbind result_bind] in E.
      by destruct (List.find _ _) as [[k v]|].
    + intros H%iter_nil. by rewrite H.
  - intros Hne r.
    destruct (choice_ok r (iter (hand (player g (current g))))) as [c Ec];
      [by rewrite iter_nil|].
    rewrite Ec. cbn [mbind result_bind].
    apply choice_elem_of, iter_elem_of in Ec.
    destruct (Hfound c Ec) as (k & v & -> & Hkv & Hck).
    exists k, v, c. split_and!; try done. by apply Hval.
  - intros c Hc. pose proof Hc as Hc'. apply iter_elem_of in Hc.
    apply list_elem_of_lookup_1 in Hc as [i Hi].
    exists i. unfold choice.
    rewrite Nat.mod_small by (by eapply lookup_lt_Some). rewrite Hi.
    cbn [mbind result_bind].
    destruct (Hfound c Hc') as (k & v & -> & _ & Hck). by exists k, v.
Qed.

(** ** The move of the search *)

Lemma max_loop_nonempty rec (g : Game) (l : list GameState) (items : dict) :
  cards_all (λ c, c ≠ 0) g → restoring rec g (S (length l)) →
  Forall (λ kv : gset Z * Z,
            set_Forall (λ c, c ≠ 0) kv.1 ∧ fits_double kv.2 = true) items →
  ∀ a b mm mp out,
    max_loop rec items g l a b mm mp = Ok out →
    mm ≠ ∅
    ∨ Exists (λ kv : gset Z * Z,
                can_play_move (player g (current g)) kv.1 = true) items →
    out.2.1 ≠ ∅.
Proof.
  intros Hg Hrec. induction 1 as [|[k v] items [Hk Hv] Hitems IH];
    intros a b mm mp out; cbn [max_loop].
  { intros [= <-] [H|H]; [done|by apply Exists_nil in H]. }
  cbn [fst snd] in Hk, Hv.
  destruct (can_play_move _ k) eqn:Hplay.
  - destruct (round_restores rec g l k v a b Hg Hrec Hk)
      as (g1 & [nm np] & -> & E2 & E3).
    cbn [mbind result_bind]. rewrite E2. cbn [mbind result_bind].
    rewrite (num_add_fits np v Hv). cbn [mbind result_bind].
    rewrite states_pop_snoc. cbn [mbind result_bind]. rewrite E3.
    assert (Hkne : k ≠ ∅).
    { apply can_play_move_true in Hplay as (x & _ & Hx). intros ->.
      by apply elem_of_empty in Hx. }
    set (mm0 := if (size mm =? 0)%nat then k else mm).
    assert (Hmm0 : mm0 ≠ ∅).
    { subst mm0. destruct (size mm =? 0)%nat eqn:Es; [done|].
      intros ->. by rewrite size_empty in Es. }
    intros E _. revert E.
    destruct (num_ltb mp (num_plus np v)); destruct (num_leb b _);
      first [by intros [= <-] | intros E; eapply IH; [exact E|by left]].
  - intros E [H|H]; (eapply IH; [exact E|]); [by left|right].
    apply Exists_cons in H as [H|H]; [cbn [fst] in H; congruence|done].
Qed.

Lemma min_loop_nonempty rec (g : Game) (l : list GameState) (items : dict) :
  cards_all (λ c, c ≠ 0) g → restoring rec g (S (length l)) →
  Forall (λ kv : gset Z * Z,
            set_Forall (λ c, c ≠ 0) kv.1 ∧ fits_double kv.2 = true) items →
  ∀ a b mm mp out,
    min_loop rec items g l a b mm mp = Ok out →
    mm ≠ ∅
    ∨ Exists (λ kv : gset Z * Z,
                can_play_move (player g (current g)) kv.1 = true) items →
    out.2.1 ≠ ∅.
Proof.
  intros Hg Hrec. induction 1 as [|[k v] items [Hk Hv] Hitems IH];
    intros a b mm mp out; cbn [min_loop].
  { intros [= <-] [H|H]; [done|by apply Exists_nil in H]. }
  cbn [fst snd] in Hk, Hv.
  destruct (can_play_move _ k) eqn:Hplay.
  - destruct (round_restores rec g l k v a b Hg Hrec Hk)
      as (g1 & [nm np] & -> & E2 & E3).
    cbn [mbind result_bind]. rewrite E2. cbn [mbind result_bind].
    rewrite (num_sub_fits np v Hv). cbn [mbind result_bind].
    rewrite states_pop_snoc. cbn [mbind result_bind]. rewrite E3.
    assert (Hkne : k ≠ ∅).
    { apply can_play_move_true in Hplay as (x & _ & Hx). intros ->.
      by apply elem_of_empty in Hx. }
    set (mm0 := if (size mm =? 0)%nat then k else mm).
    assert (Hmm0 : mm0 ≠ ∅).
    { subst mm0. destruct (size mm =? 0)%nat eqn:Es; [done|].
      intros ->. by rewrite size_empty in Es. }
    intros E _. revert E.
    destruct (num_ltb (num_minus np v) mp); destruct (num_leb _ a);
      first [by intros [= <-] | intros E; eapply IH; [exact E|by left]].
  - intros E [H|H]; (eapply IH; [exact E|]); [by left|right].
    apply Exists_cons in H as [H|H]; [cbn [fst] in H; congruence|done].
Qed.

Lemma playable_value (g : Game) (k : gset Z) (v : Z) :
  find_playable_sets g = Ok g → (k, v) ∈ playable_sets g →
  v = calculate_move_payoff g k.
Proof.
  intros Hm Hkv. pose proof (playable_sets_values g g Hm) as HF.
  rewrite Forall_forall in HF. specialize (HF (k, v) Hkv).
  cbn [fst snd] in HF.
  destruct (size k =? 3)%nat eqn:E3; [done|].
  rewrite HF. unfold calculate_move_payoff. by rewrite E3.
Qed.

Lemma is_over_current (g : Game) :
  hand (player g (current g)) ≠ ∅ → is_over g = false.
Proof.
  intros Hne. destruct (is_over g) eqn:E; [|done].
  apply is_over_hands in E as [HA HB]. by destruct (current g).
Qed.

Lemma minimax_play_some (g : Game) :
  game_inv g → 1 ≤ depth g → hand (player g (current g)) ≠ ∅ →
  ∃ k v, minimax_play g = Ok (g, (k, v))
         ∧ (k, v) ∈ playable_sets g
         ∧ can_play_move (player g (current g)) k = true.
Proof.
  intros Hinv Hd Hne. pose proof (game_inv_nonzero g Hinv) as Hg.
  pose proof (game_inv_fit g Hinv) as Hf.
  destruct Hinv as (_ & _ & Hm).
  assert (Hex : Exists (λ kv : gset Z * Z,
                   can_play_move (player g (current g)) kv.1 = true)
                  (playable_sets g)).
  { apply set_choose_L in Hne as [c Hc]. apply Exists_exists.
    exists ({[c]}, 0). split.
    - apply (playable_sets_complete g g _ _ Hm). right. by exists c.
    - apply can_play_move_true. exists c. split; [done|].
      by apply elem_of_singleton. }
  assert (Hrec : restoring (minimax_fuel (Z.to_nat (depth g))) g 1).
  { intros g1 l1 a1 b1 Hl1 Hc Hg1 Hf1.
    assert (depth g1 = depth g) as Hdepth by (by injection Hc).
    destruct (minimax_fuel_restores (Z.to_nat (depth g)) g1 l1 a1 b1)
      as (mm & mp & -> & _); [lia|done|done|by eexists]. }
  pose proof (search_items g Hg Hf) as Hkeys.
  assert (Hloop : ∃ mm mp,
            minimax g [] NegInf PosInf = Ok (g, [], (mm, mp))
            ∧ chosen_from g (playable_sets g) ∅ mm ∧ mm ≠ ∅).
  { unfold minimax, search_fuel. cbn [length].
    replace (depth g - Z.of_nat 0) with (depth g) by lia.
    cbn [minimax_fuel]. rewrite (is_over_current g Hne).
    unfold depth_reached. cbn [length orb].
    destruct (depth g <=? Z.of_nat 0) eqn:Ed; [apply Z.leb_le in Ed; lia|].
    destruct (_ =? _).
    - destruct (max_loop_restores _ g [] (playable_sets g) Hg Hrec Hkeys
                  NegInf PosInf ∅ NegInf) as (mm & mp & E & Hch).
      exists mm, mp. split_and!; [done|done|].
      apply (max_loop_nonempty _ g [] (playable_sets g) Hg Hrec Hkeys
               _ _ _ _ _ E). by right.
    - destruct (min_loop_restores _ g [] (playable_sets g) Hg Hrec Hkeys
                  NegInf PosInf ∅ PosInf) as (mm & mp & E & Hch).
      exists mm, mp. split_and!; [done|done|].
      apply (min_loop_nonempty _ g [] (playable_sets g) Hg Hrec Hkeys
               _ _ _ _ _ E). by right. }
  destruct Hloop as (mm & mp & E & [->|(v & Hv & Hp)] & Hmm); [done|].
  exists mm, v. unfold minimax_play. rewrite E. cbn [mbind result_bind].
  split_and!; [|done|done].
  by rewrite <- (playable_value g mm v Hm Hv).
Qed.

Lemma minimax_play_zero (g : Game) :
  depth g ≤ 0 ∨ is_over g = true → minimax_play g = Ok (g, (∅, 0)).
Proof.
  intros H. unfold minimax_play, minimax, search_fuel. cbn [minimax_fuel].
  assert (is_over g || depth_reached g [] = true) as ->.
  { apply orb_true_iff. destruct H as [H| ->]; [right|by left].
    unfold depth_reached. cbn [length]. apply Z.leb_le. lia. }
  cbn [mbind result_bind]. unfold calculate_move_payoff.
  by rewrite size_empty.
Qed.

(** The move of [minimax_play] in a reachable game.  With a depth of 0 or
    less, or when the game is over, it is the empty move at payoff 0, and the
    game is untouched.  With a depth of at least 1 and a card in the active
    hand it is a set of the playable-move table that the active player can
    play, with its value in the table, and the game is left as it was. *)
Theorem minimax_play_move (g : Game) :
  reachable g →
  (depth g ≤ 0 ∨ is_over g = true → minimax_play g = Ok (g, (∅, 0)))
  ∧ (1 ≤ depth g → hand (player g (current g)) ≠ ∅ →
     ∃ k v, minimax_play g = Ok (g, (k, v))
            ∧ (k, v) ∈ playable_sets g
            ∧ can_play_move (player g (current g)) k = true).
Proof.
  intros Hg%reachable_inv. split.
  - apply minimax_play_zero.
  - by apply minimax_play_some.
Qed.

(** ** Every simulation ends *)

Lemma strategy_of_pair (sA sB : string) (i : idx) :
  strategy_of [sA; sB] i = Ok (match i with A => sA | B => sB end).
Proof. by destruct i. Qed.

Lemma play_move_last (g g' : Game) (k : gset Z) (v : Z) :
  play_move g k v = Ok g' →
  last (turn_payoffs g') = Some (u g') ∧ depth g' = depth g
  ∧ (num_cards g', num_hand g', num_table g', change_first g')
    = (num_cards g, num_hand g, num_table g, change_first g).
Proof.
  rewrite play_move_update.
  destruct (update g k v) as [g1|] eqn:E; cbn [mbind result_bind]; [|done].
  intros [= <-].
  cbn [set_turn_payoffs turn_payoffs u depth num_cards num_hand num_table
         change_first].
  apply update_config in E. injection E as -> -> -> -> -> _ _.
  split_and!; [apply last_snoc|done|done].
Qed.

(** A round of [simulate] in a game that is not over. *)
Lemma simulate_turn_round (r : nat) (sA sB : string) (g : Game)
    (prev : option (gset Z * Z)) :
  game_inv g → balanced g → is_over g = false →
  known_strategies [sA; sB] →
  (MINIMAX ∈ [sA; sB] → 1 ≤ depth g) →
  ∃ g' mv, simulate_turn r [sA; sB] g prev = Ok (g', Some mv)
           ∧ game_inv g' ∧ balanced g'
           ∧ S (cards_in_hand g') = cards_in_hand g
           ∧ turn g' = turn g + 1
           ∧ length (turn_payoffs g') = S (length (turn_payoffs g))
           ∧ first g' = first g
           ∧ last (turn_payoffs g') = Some (u g') ∧ depth g' = depth g
           ∧ (num_cards g', num_hand g', num_table g', change_first g')
             = (num_cards g, num_hand g, num_table g, change_first g).
Proof.
  intros Hg Hbal Hover Hs Hd.
  pose proof (balanced_current_hand g Hbal Hover) as Hhand.
  set (s := match current g with A => sA | B => sB end).
  assert (Hin : s ∈ [sA; sB])
    by (subst s; destruct (current g); [left|right; left]).
  assert (Hknown : s = RANDOM ∨ s = GREEDY ∨ s = MINIMAX).
  { unfold known_strategies in Hs. rewrite Forall_forall in Hs. by apply Hs. }
  rewrite (simulate_turn_cases r _ g prev s (strategy_of_pair sA sB _) Hknown).
  destruct strategy_names as (E1 & E2 & E3 & E4 & E5 & E6 & E7 & E8 & E9).
  assert (Hmove : ∃ k v,
            (if String.eqb s RANDOM then mv ← random_play r g; Ok (g, mv)
             else if String.eqb s GREEDY then mv ← greedy_play r g; Ok (g, mv)
                  else minimax_play g) = Ok (g, (k, v))
            ∧ legal_move g k ∧ k ≠ ∅).
  { destruct Hknown as [Es|[Es|Es]]; rewrite Es in *.
    - rewrite E1. destruct (random_play_ok r g Hhand) as [[k v] E].
      rewrite E. exists k, v. split_and!; [done| |].
      + by eapply random_play_legal.
      + by eapply random_play_nonempty.
    - rewrite E2, E4. destruct (greedy_play_ok r g Hhand) as [[k v] E].
      rewrite E. exists k, v. split; [done|]. by eapply greedy_play_legal.
    - rewrite E3, E6.
      destruct (minimax_play_some g Hg (Hd Hin) Hhand)
        as (k & v & E & Hkv & Hp).
      exists k, v. split_and!; [done| |].
      + right; right. by exists v.
      + apply can_play_move_true in Hp as (x & _ & Hx). intros ->.
        by apply elem_of_empty in Hx. }
  destruct Hmove as (k & v & -> & Hk & Hne).
  cbn [mbind result_bind fst snd].
  destruct (play_move_round g k v Hg Hk Hne Hbal Hhand)
    as (g1 & E & Hg1 & Hbal1 & Hn1 & Ht1 & Hl1 & Hf1).
  rewrite E. cbn [mbind result_bind].
  exists g1, (k, v). apply play_move_last in E as (? & ? & ?).
  split_and!; done.
Qed.

Lemma simulate_known (n : nat) (sA sB : string) :
  known_strategies [sA; sB] →
  ∀ fuel rnd g prev,
    game_inv g → balanced g → cards_in_hand g = n → (n ≤ fuel)%nat →
    (MINIMAX ∈ [sA; sB] → 1 ≤ depth g) →
    ∃ g', simulate_fuel fuel rnd [sA; sB] g prev
          = Ok (g', (idx_Z (first g'), get_winner g', u g'))
          ∧ is_over g' = true
          ∧ turn g' = turn g + Z.of_nat n
          ∧ length (turn_payoffs g') = (length (turn_payoffs g) + n)%nat
          ∧ first g' = first g
          ∧ (n ≠ 0%nat → last (turn_payoffs g') = Some (u g'))
          ∧ (num_cards g', num_hand g', num_table g', change_first g',
             depth g')
            = (num_cards g, num_hand g, num_table g, change_first g, depth g).
Proof.
  intros Hs.
  induction n as [|n IH]; intros fuel rnd g prev Hg Hbal Hn Hfuel Hd.
  - apply is_over_cards_in_hand in Hn. exists g.
    destruct fuel; cbn [simulate_fuel]; rewrite Hn; cbn [negb];
      (split_and!; [done|done|lia|lia|done|done|done]).
  - destruct fuel as [|fuel]; [lia|]. cbn [simulate_fuel].
    assert (Hover : is_over g = false).
    { destruct (is_over g) eqn:E; [|done].
      apply is_over_cards_in_hand in E. lia. }
    rewrite Hover. cbn [negb].
    destruct (simulate_turn_round (rnd O) sA sB g prev Hg Hbal Hover Hs Hd)
      as (g1 & mv & -> & Hg1 & Hbal1 & Hn1 & Ht1 & Hl1 & Hf1 & Hlast & Hd1
          & Hc1).
    cbn [mbind result_bind].
    destruct (IH fuel (λ i, rnd (S i)) g1 (Some mv) Hg1 Hbal1)
      as (g' & E' & ? & Ht & Hl & Hf & Hlast' & Hc');
      [lia|lia|by rewrite Hd1|].
    rewrite E'.
    exists g'. split_and!; [done|done|lia|lia|congruence| |].
    2: { rewrite Hc'. injection Hc1 as -> -> -> ->. by rewrite Hd1. }
    intros _. destruct n as [|n]; [|by apply Hlast'].
    assert (is_over g1 = true) as Hov1
      by (apply is_over_cards_in_hand; lia).
    assert (g' = g1) as ->; [|done].
    destruct fuel; cbn [simulate_fuel] in E'; rewrite Hov1 in E';
      cbn [negb] in E'; congruence.
Qed.

(** Every simulation of a new game ends.  For [num_hand >= 1], two
    strategies among random, greedy and minimax, and a depth of at least 1
    where minimax plays: [simulate] returns after exactly [2 * num_hand]
    rounds, with both hands empty, one payoff recorded for each round, the
    last of them being the final [u]; the winner is the first player when
    [u > 0], the other player when [u < 0], and -1 when [u = 0]. *)
Theorem simulate_terminates (shuffle : list Z → list Z) (nc nh nt : Z)
    (cf : bool) (d : Z) (rnd : nat → nat) (fuel : nat) (sA sB : string)
    (g : Game) :
  shuffle (py_range 2 (nc + 2)) ≡ₚ py_range 2 (nc + 2) → 1 ≤ nh →
  known_strategies [sA; sB] → (MINIMAX ∈ [sA; sB] → 1 ≤ d) →
  (2 * Z.to_nat nh ≤ fuel)%nat →
  Game_init shuffle nc nh nt cf d = Ok g →
  ∃ g' w,
    simulate fuel rnd [sA; sB] g = Ok (g', (idx_Z (first g), w, u g'))
    ∧ hand (playerA g') = ∅ ∧ hand (playerB g') = ∅
    ∧ turn g' = 2 * nh + 1
    ∧ length (turn_payoffs g') = (2 * Z.to_nat nh)%nat
    ∧ last (turn_payoffs g') = Some (u g')
    ∧ (0 < u g' → w = idx_Z (first g))
    ∧ (u g' < 0 → w = idx_Z (other (first g)))
    ∧ (u g' = 0 → w = -1).
Proof.
  intros Hsh Hnh Hs Hd Hfuel [Heq E0]%Game_init_reset.
  pose proof ((λ H, reset_inv shuffle _ g H E0) Hsh)
    as (Hg0 & HA & HB & Ht0 & _ & Hl0 & Hcur & Hcfg).
  cbn [num_hand num_cards depth] in HA, HB, Hcfg.
  assert (depth g = d) as Hdepth by (by injection Hcfg).
  destruct (simulate_known (2 * Z.to_nat nh) sA sB Hs fuel rnd g None Hg0)
    as (g' & E & Hover & Ht & Hl & Hf & Hlast & _).
  { unfold balanced.
    destruct (current g); cbn [other player]; rewrite HA, HB; lia. }
  { unfold cards_in_hand. rewrite HA, HB. lia. }
  { done. }
  { by rewrite Hdepth. }
  exists g', (get_winner g').
  apply is_over_hands in Hover as [? ?].
  unfold simulate. rewrite E, Hf, Ht, Hl, Ht0, Hl0.
  split_and!; try done.
  - lia.
  - apply Hlast. lia.
  - intros Hu. unfold get_winner. rewrite Hf.
    by destruct (0 <? u g') eqn:E1; [|apply Z.ltb_ge in E1; lia].
  - intros Hu. unfold get_winner. rewrite Hf.
    destruct (0 <? u g') eqn:E1; [apply Z.ltb_lt in E1; lia|].
    destruct (u g' <? 0) eqn:E2; [|apply Z.ltb_ge in E2; lia].
    by destruct (first g).
  - intros Hu. unfold get_winner. rewrite Hu. done.
Qed.

Lemma play_move_empty (g : Game) :
  game_inv g →
  ∃ g', play_move g ∅ 0 = Ok g' ∧ game_inv g'
        ∧ hand (playerA g') = hand (playerA g)
        ∧ hand (playerB g') = hand (playerB g)
        ∧ depth g' = depth g.
Proof.
  intros Hg.
  assert (Hk : legal_move g ∅) by (by left).
  destruct (update_ok g ∅ 0) as [g1 E].
  { by apply game_inv_nonzero. }
  { by intros x Hx%elem_of_empty. }
  exists (set_turn_payoffs g1 (turn_payoffs g ++ [u g1])).
  rewrite play_move_update, E. cbn [mbind result_bind].
  destruct (update_shape g g1 ∅ 0 Hg Hk E) as (E1 & E2 & _).
  apply (f_equal hand) in E1, E2.
  rewrite hand_mover_after, difference_empty_L in E1.
  rewrite hand_other_after in E2.
  split_and!.
  - done.
  - apply game_inv_turn_payoffs. by eapply update_inv.
  - change (hand (player g1 A) = hand (player g A)).
    destruct (current g); cbn [other] in *; done.
  - change (hand (player g1 B) = hand (player g B)).
    destruct (current g); cbn [other] in *; done.
  - apply update_config in E. by injection E.
Qed.

Lemma simulate_minimax_zero (fuel : nat) :
  ∀ rnd g prev,
    game_inv g → depth g ≤ 0 → is_over g = false →
    simulate_fuel fuel rnd [MINIMAX; MINIMAX] g prev = Err OutOfFuel.
Proof.
  induction fuel as [|fuel IH]; intros rnd g prev Hg Hd Hover;
    cbn [simulate_fuel]; rewrite Hover; cbn [negb]; [done|].
  assert (Es : strategy_of [MINIMAX; MINIMAX] (current g) = Ok MINIMAX)
    by (by destruct (current g)).
  rewrite (simulate_turn_cases _ _ g prev MINIMAX Es) by auto.
  destruct strategy_names as (_ & _ & -> & _ & _ & -> & _).
  rewrite minimax_play_zero by (by left).
  cbn [mbind result_bind fst snd].
  destruct (play_move_empty g Hg) as (g1 & -> & Hg1 & HA & HB & Hd1).
  cbn [mbind result_bind]. apply IH; [done|lia|].
  destruct (is_over g1) eqn:E; [|done].
  apply is_over_hands in E as [EA EB]. rewrite HA in EA. rewrite HB in EB.
  assert (is_over g = true) by (by apply is_over_hands). congruence.
Qed.

(** With a depth of 0 or less, minimax against minimax never ends a game
    that is not over: every round plays the empty move, which takes no card
    from a hand, so [simulate] is still in its loop after any number of
    rounds. *)
Theorem minimax_depth_zero_loops (g : Game) (fuel : nat) (rnd : nat → nat) :
  reachable g → depth g ≤ 0 → is_over g = false →
  simulate fuel rnd [MINIMAX; MINIMAX] g = Err OutOfFuel.
Proof.
  intros Hg%reachable_inv Hd Hover. by apply simulate_minimax_zero.
Qed.

(** ** The statistics *)

Lemma py_index_lt {T : Type} (l : list T) (i : Z) (j : nat) :
  py_index l i = Ok j → (j < length l)%nat.
Proof using.
  clear is_prime iter iter_perm. unfold py_index.
  destruct ((0 <=? i) && (i <? Z.of_nat (length l))) eqn:E1.
  - apply andb_true_iff in E1 as [?%Z.leb_le ?%Z.ltb_lt]. intros [= <-]. lia.
  - destruct ((- Z.of_nat (length l) <=? i) && (i <? 0)) eqn:E2; [|done].
    apply andb_true_iff in E2 as [?%Z.leb_le ?%Z.ltb_lt]. intros [= <-]. lia.
Qed.

Lemma py_index_ok {T : Type} (l : list T) (i : Z) :
  - Z.of_nat (length l) ≤ i < Z.of_nat (length l) → ∃ j, py_index l i = Ok j.
Proof using.
  clear is_prime iter iter_perm. intros Hi. unfold py_index.
  destruct ((0 <=? i) && (i <? Z.of_nat (length l))) eqn:E1; [by eexists|].
  destruct ((- Z.of_nat (length l) <=? i) && (i <? 0)) eqn:E2; [by eexists|].
  apply andb_false_iff in E1, E2.
  rewrite !Z.leb_gt, !Z.ltb_ge in *. lia.
Qed.

Lemma py_index_error {T : Type} (l : list T) (i : Z) :
  ¬ (- Z.of_nat (length l) ≤ i < Z.of_nat (length l)) →
  py_index l i = Err IndexError.
Proof using.
  clear is_prime iter iter_perm. intros Hi. unfold py_index.
  destruct ((0 <=? i) && (i <? Z.of_nat (length l))) eqn:E1.
  { apply andb_true_iff in E1 as [?%Z.leb_le ?%Z.ltb_lt]. lia. }
  destruct ((- Z.of_nat (length l) <=? i) && (i <? 0)) eqn:E2; [|done].
  apply andb_true_iff in E2 as [?%Z.leb_le ?%Z.ltb_lt]. lia.
Qed.

Lemma sum_insert (l : list Z) (j : nat) (x y : Z) :
  l !! j = Some x →
  foldr Z.add 0 (<[j := y]> l) = foldr Z.add 0 l - x + y.
Proof using.
  clear is_prime iter iter_perm.
  revert j. induction l as [|a l IH]; intros [|j] H; try done.
  - injection H as ->. cbn. lia.
  - change (a + foldr Z.add 0 (<[j := y]> l) = a + foldr Z.add 0 l - x + y).
    rewrite (IH j H). lia.
Qed.

Lemma incr_cases (l : list Z) (i : Z) :
  (- Z.of_nat (length l) ≤ i < Z.of_nat (length l)
   ∧ ∃ l', Statistics.incr l i = Ok l' ∧ length l' = length l
           ∧ foldr Z.add 0 l' = foldr Z.add 0 l + 1)
  ∨ (¬ (- Z.of_nat (length l) ≤ i < Z.of_nat (length l))
     ∧ Statistics.incr l i = Err IndexError).
Proof using.
  clear is_prime iter iter_perm. unfold Statistics.incr.
  destruct (decide (- Z.of_nat (length l) ≤ i < Z.of_nat (length l)))
    as [Hi|Hi].
  - left. split; [done|].
    destruct (py_index_ok l i Hi) as [j Ej]. rewrite Ej.
    cbn [mbind result_bind].
    apply py_index_lt in Ej.
    destruct (lookup_lt_is_Some_2 l j Ej) as [x Ex]. rewrite Ex.
    eexists. split_and!; [done|by rewrite length_insert|].
    rewrite (sum_insert l j x _ Ex). lia.
  - right. split; [done|]. by rewrite py_index_error.
Qed.

(** The loop of [add_turns] from index [k] on. *)
Lemma add_turns_loop (pt : list Z) (m : nat) :
  ∀ (k : nat) (a : list Z),
    (k + m ≤ length pt)%nat →
    match foldM (λ a i,
                   match a !! i, pt !! i with
                   | Some x, Some y => Ok (<[i := x + y]> a)
                   | _, _ => Err IndexError
                   end) a (seq k m) with
    | Ok a' =>
        (m = 0%nat ∨ (k + m ≤ length a)%nat) ∧ length a' = length a
        ∧ ∀ i, a' !! i
               = if decide (k ≤ i < k + m)%nat
                 then match a !! i, pt !! i with
                      | Some x, Some y => Some (x + y)
                      | o, _ => o
                      end
                 else a !! i
    | Err e => e = IndexError ∧ (length a < k + m)%nat
    end.
Proof using.
  clear is_prime iter iter_perm.
  induction m as [|m IH]; intros k a Hpt; cbn [seq foldM].
  - split_and!; [by left|done|]. intros i. destruct (decide _); [lia|done].
  - destruct (lookup_lt_is_Some_2 pt k) as [y Ey]; [lia|]. rewrite Ey.
    destruct (a !! k) as [x|] eqn:Ex; cbn [mbind result_bind].
    + pose proof (lookup_lt_Some _ _ _ Ex) as Hk.
      specialize (IH (S k) (<[k := x + y]> a)).
      destruct (foldM _ _ _) as [a'|e].
      * destruct IH as (Hm & Hlen & Hlook); [lia|].
        rewrite length_insert in Hm, Hlen.
        split_and!; [right; lia|done|].
        intros i. rewrite Hlook.
        destruct (decide (i = k)) as [->|Hne].
        -- rewrite list_lookup_insert_eq by done.
           destruct (decide (S k ≤ k < S k + m)%nat); [lia|].
           destruct (decide (k ≤ k < k + S m)%nat); [|lia].
           by rewrite Ex, Ey.
        -- rewrite list_lookup_insert_ne by done.
           destruct (decide (S k ≤ i < S k + m)%nat);
             destruct (decide (k ≤ i < k + S m)%nat); try done; lia.
      * destruct IH as (-> & Hlen); [lia|].
        rewrite length_insert in Hlen. split; [done|lia].
    + apply lookup_ge_None in Ex. split; [done|lia].
Qed.

Lemma add_turns_spec (a pt : list Z) :
  match Statistics.add_turns a pt with
  | Ok a' =>
      (length pt ≤ length a)%nat ∧ length a' = length a
      ∧ ∀ i, a' !! i = match a !! i, pt !! i with
                       | Some x, Some y => Some (x + y)
                       | o, _ => o
                       end
  | Err e => e = IndexError ∧ (length a < length pt)%nat
  end.
Proof using.
  clear is_prime iter iter_perm.
  unfold Statistics.add_turns.
  pose proof (add_turns_loop pt (length pt) 0 a) as H.
  destruct (foldM _ _ _) as [a'|e].
  - destruct H as (Hm & Hlen & Hlook); [lia|].
    split_and!; [lia|done|]. intros i. rewrite Hlook.
    destruct (decide _) as [|Hi]; [done|].
    rewrite (lookup_ge_None_2 pt i) by lia. by destruct (a !! i).
  - destruct H as (-> & Hlen); [lia|]. split; [done|lia].
Qed.

Lemma init_consistent : Statistics.consistent Statistics.init.
Proof using.
  clear is_prime iter iter_perm.
  unfold Statistics.consistent. cbn. split_and!; done.
Qed.

Lemma update_keeps_consistent (s s' : Statistics.t) (f w p : Z)
    (pt : list Z) :
  Statistics.consistent s → Statistics.update s f w p pt = Ok s' →
  Statistics.consistent s'
  ∧ Statistics.n s' = Statistics.n s + 1
  ∧ Statistics.payoffs s' = Statistics.payoffs s ++ [p]
  ∧ Statistics.ties s'
    = (if w =? -1 then Statistics.ties s + 1 else Statistics.ties s)
  ∧ foldr Z.add 0 (Statistics.wins s')
    = (if w =? -1 then foldr Z.add 0 (Statistics.wins s)
       else foldr Z.add 0 (Statistics.wins s) + 1).
Proof using.
  clear is_prime iter iter_perm.
  intros (Hf & Hw & Hn & Hsf & Hsw). unfold Statistics.update.
  destruct (incr_cases (Statistics.first_moves s) f)
    as [(_ & l1 & -> & L1 & S1)|(_ & ->)]; cbn [mbind result_bind]; [|done].
  assert (Hwins : ∀ T (k : list Z * Z → result T) (r : T),
            ('(wins, ties) ←
               (if w =? -1
                then Ok (Statistics.wins s, Statistics.ties s + 1)
                else wins ← Statistics.incr (Statistics.wins s) w;
                     Ok (wins, Statistics.ties s));
             k (wins, ties)) = Ok r →
            ∃ l2 t2, k (l2, t2) = Ok r ∧ length l2 = 2%nat
                     ∧ t2 = (if w =? -1 then Statistics.ties s + 1
                             else Statistics.ties s)
                     ∧ foldr Z.add 0 l2
                       = (if w =? -1 then foldr Z.add 0 (Statistics.wins s)
                          else foldr Z.add 0 (Statistics.wins s) + 1)).
  { intros T k r. destruct (w =? -1); cbn [mbind result_bind].
    - intros E. by exists (Statistics.wins s), (Statistics.ties s + 1).
    - destruct (incr_cases (Statistics.wins s) w)
        as [(_ & l2 & -> & L2 & S2)|(_ & ->)]; cbn [mbind result_bind];
        [|done].
      intros E. exists l2, (Statistics.ties s). split_and!; [done|lia|done|done]. }
  intros E.
  apply (Hwins _ (λ wt, average_advantage_turn ←
                          (if (length (Statistics.average_advantage_turn s)
                               =? 0)%nat
                           then Ok pt
                           else Statistics.add_turns
                                  (Statistics.average_advantage_turn s) pt);
                        Ok (Statistics.mk (Statistics.n s + 1)
                              (Statistics.payoffs s ++ [p])
                              average_advantage_turn l1 wt.1 wt.2)))
    in E as (l2 & t2 & E & L2 & Ht2 & S2).
  cbn [fst snd] in E.
  destruct (if (length _ =? 0)%nat then _ else _) as [a'|];
    cbn [mbind result_bind] in E; [|done].
  injection E as <-. unfold Statistics.consistent.
  cbn [Statistics.n Statistics.payoffs Statistics.first_moves Statistics.wins
         Statistics.ties].
  rewrite length_app. cbn [length].
  split_and!; try done; try lia.
  destruct (w =? -1); lia.
Qed.

(** The counters of [Statistics] agree after construction, and [update]
    keeps them so: the number of games, the number of recorded payoffs, the
    number of first moves and the number of wins and ties are one and the
    same number.  Each [update] that returns adds 1 to it, appends the
    payoff, and counts a tie when the winner is -1 and a win otherwise. *)
Theorem Statistics_update_consistent :
  Statistics.consistent Statistics.init
  ∧ ∀ s first winner payoff payoffs_turn s',
      Statistics.consistent s →
      Statistics.update s first winner payoff payoffs_turn = Ok s' →
      Statistics.consistent s'
      ∧ Statistics.n s' = Statistics.n s + 1
      ∧ Statistics.payoffs s' = Statistics.payoffs s ++ [payoff]
      ∧ Statistics.ties s'
        = (if winner =? -1 then Statistics.ties s + 1 else Statistics.ties s)
      ∧ foldr Z.add 0 (Statistics.wins s')
        = (if winner =? -1 then foldr Z.add 0 (Statistics.wins s)
           else foldr Z.add 0 (Statistics.wins s) + 1).
Proof using.
  clear is_prime iter iter_perm.
  split; [apply init_consistent|].
  intros s f w p pt s'. apply update_keeps_consistent.
Qed.

Lemma update_error_cases (s : Statistics.t) (first winner payoff : Z)
    (payoffs_turn : list Z) :
  Statistics.consistent s →
  (Statistics.update s first winner payoff payoffs_turn = Err IndexError
   ↔ ¬ (-2 ≤ first ≤ 1) ∨ ¬ (-2 ≤ winner ≤ 1)
     ∨ (Statistics.average_advantage_turn s ≠ []
        ∧ (length (Statistics.average_advantage_turn s)
           < length payoffs_turn)%nat))
  ∧ (∀ e, Statistics.update s first winner payoff payoffs_turn = Err e →
          e = IndexError).
Proof using.
  clear is_prime iter iter_perm.
  intros (Hf & Hw & _). unfold Statistics.update.
  destruct (incr_cases (Statistics.first_moves s) first)
    as [(Hfr & l1 & -> & _)|(Hfr & ->)]; cbn [mbind result_bind];
    rewrite Hf in Hfr; [|split; [split; [left; lia|done]|by intros e [= <-]]].
  assert (Hwr : (winner =? -1) = true ∨ (winner =? -1) = false)
    by (destruct (winner =? -1); auto).
  destruct Hwr as [Ew|Ew]; rewrite Ew; cbn [mbind result_bind].
  - apply Z.eqb_eq in Ew.
    pose proof (add_turns_spec (Statistics.average_advantage_turn s)
                  payoffs_turn) as Ha.
    destruct (Statistics.average_advantage_turn s) as [|x a] eqn:Ea;
      cbn [length Nat.eqb mbind result_bind].
    + split; [|done]. split; [done|]. intros [?|[?|[? _]]]; [lia|lia|done].
    + destruct (Statistics.add_turns _ _) as [a'|e];
        cbn [mbind result_bind].
      * destruct Ha as (Hlen & _). cbn [length] in Hlen.
        split; [|done]. split; [done|].
        intros [?|[?|[_ ?]]]; [lia|lia|cbn [length] in *; lia].
      * destruct Ha as (-> & Hlen). split; [|by intros e [= <-]].
        split; [|done]. intros _. right; right. split; [done|].
        cbn [length] in *. lia.
  - apply Z.eqb_neq in Ew.
    destruct (incr_cases (Statistics.wins s) winner)
      as [(Hwi & l2 & -> & _)|(Hwi & ->)]; cbn [mbind result_bind];
      rewrite Hw in Hwi;
      [|split; [split; [right; left; lia|done]|by intros e [= <-]]].
    pose proof (add_turns_spec (Statistics.average_advantage_turn s)
                  payoffs_turn) as Ha.
    destruct (Statistics.average_advantage_turn s) as [|x a] eqn:Ea;
      cbn [length Nat.eqb mbind result_bind].
    + split; [|done]. split; [done|]. intros [?|[?|[? _]]]; [lia|lia|done].
    + destruct (Statistics.add_turns _ _) as [a'|e];
        cbn [mbind result_bind].
      * destruct Ha as (Hlen & _). cbn [length] in Hlen.
        split; [|done]. split; [done|].
        intros [?|[?|[_ ?]]]; [lia|lia|cbn [length] in *; lia].
      * destruct Ha as (-> & Hlen). split; [|by intros e [= <-]].
        split; [|done]. intros _. right; right. split; [done|].
        cbn [length] in *. lia.
Qed.

(** [update] raises nothing but [IndexError], and raises it exactly when
    [first] or [winner] is not an index of a list of two (from -2 to 1), or
    when turns have been recorded and [payoffs_turn] is longer than the
    recorded list. *)
Theorem Statistics_update_fails (s : Statistics.t) (first winner payoff : Z)
    (payoffs_turn : list Z) :
  Statistics.consistent s →
  (Statistics.update s first winner payoff payoffs_turn = Err IndexError
   ↔ ¬ (-2 ≤ first ≤ 1) ∨ ¬ (-2 ≤ winner ≤ 1)
     ∨ (Statistics.average_advantage_turn s ≠ []
        ∧ (length (Statistics.average_advantage_turn s)
           < length payoffs_turn)%nat))
  ∧ (∀ e, Statistics.update s first winner payoff payoffs_turn = Err e →
          e = IndexError).
Proof using. clear is_prime iter iter_perm. apply update_error_cases. Qed.

Lemma update_turn_sums (s s' : Statistics.t)
    (first winner payoff : Z) (payoffs_turn : list Z) :
  Statistics.update s first winner payoff payoffs_turn = Ok s' →
  (Statistics.average_advantage_turn s = [] →
   Statistics.average_advantage_turn s' = payoffs_turn)
  ∧ (Statistics.average_advantage_turn s ≠ [] →
     (length payoffs_turn ≤ length (Statistics.average_advantage_turn s))%nat
     ∧ length (Statistics.average_advantage_turn s')
       = length (Statistics.average_advantage_turn s)
     ∧ ∀ i, Statistics.average_advantage_turn s' !! i
            = match Statistics.average_advantage_turn s !! i,
                    payoffs_turn !! i with
              | Some x, Some y => Some (x + y)
              | o, _ => o
              end).
Proof using.
  clear is_prime iter iter_perm.
  unfold Statistics.update.
  destruct (Statistics.incr (Statistics.first_moves s) first) as [l1|];
    cbn [mbind result_bind]; [|done].
  destruct (if winner =? -1 then _ else _) as [[l2 t2]|];
    cbn [mbind result_bind]; [|done].
  pose proof (add_turns_spec (Statistics.average_advantage_turn s)
                payoffs_turn) as Ha.
  destruct (Statistics.average_advantage_turn s) as [|x a] eqn:Ea;
    cbn [length Nat.eqb mbind result_bind].
  - intros [= <-]. by split.
  - destruct (Statistics.add_turns _ _) as [a'|e]; cbn [mbind result_bind];
      [|done].
    intros [= <-]. split; [done|]. intros _. exact Ha.
Qed.

(** The turns recorded by [update]: the first list of payoffs as it is;
    after that each list is added to the recorded one element by element,
    is not longer than it, and leaves the elements beyond its end alone. *)
Theorem Statistics_update_turns (s s' : Statistics.t)
    (first winner payoff : Z) (payoffs_turn : list Z) :
  Statistics.update s first winner payoff payoffs_turn = Ok s' →
  (Statistics.average_advantage_turn s = [] →
   Statistics.average_advantage_turn s' = payoffs_turn)
  ∧ (Statistics.average_advantage_turn s ≠ [] →
     (length payoffs_turn ≤ length (Statistics.average_advantage_turn s))%nat
     ∧ length (Statistics.average_advantage_turn s')
       = length (Statistics.average_advantage_turn s)
     ∧ ∀ i, Statistics.average_advantage_turn s' !! i
            = match Statistics.average_advantage_turn s !! i,
                    payoffs_turn !! i with
              | Some x, Some y => Some (x + y)
              | o, _ => o
              end).
Proof using. clear is_prime iter iter_perm. apply update_turn_sums. Qed.

(** ** Many simulations *)

(** [update] with the result of a simulation. *)
Lemma Statistics_update_step (s : Statistics.t) (f w p : Z) (pt : list Z) :
  Statistics.consistent s → -2 ≤ f ≤ 1 → -2 ≤ w ≤ 1 →
  Statistics.average_advantage_turn s = []
  ∨ (length pt ≤ length (Statistics.average_advantage_turn s))%nat →
  ∃ s', Statistics.update s f w p pt = Ok s'
        ∧ Statistics.consistent s'
        ∧ Statistics.n s' = Statistics.n s + 1
        ∧ Statistics.payoffs s' = Statistics.payoffs s ++ [p]
        ∧ (Statistics.average_advantage_turn s = [] →
           Statistics.average_advantage_turn s' = pt)
        ∧ (Statistics.average_advantage_turn s ≠ [] →
           length (Statistics.average_advantage_turn s')
           = length (Statistics.average_advantage_turn s)).
Proof using.
  clear is_prime iter iter_perm.
  intros Hcons Hf Hw Ha.
  destruct (Statistics.update s f w p pt) as [s'|e] eqn:E.
  - exists s'.
    destruct (update_keeps_consistent s s' f w p pt Hcons E)
      as (? & ? & ? & _).
    destruct (update_turn_sums s s' f w p pt E) as [Hfst Hnxt].
    split_and!; try done. intros Hne. by destruct (Hnxt Hne) as (_ & ? & _).
  - destruct (update_error_cases s f w p pt Hcons) as [Hiff Honly].
    rewrite (Honly e E) in E. apply Hiff in E as [?|[?|[Hne Hlen]]];
      [lia|lia|]. destruct Ha as [?|?]; [done|lia].
Qed.

Lemma multiple_simulate_runs (n : nat) (sA sB : string) (nc nh d : Z) :
  known_strategies [sA; sB] → (MINIMAX ∈ [sA; sB] → 1 ≤ d) →
  1 ≤ nh → nh * 2 ≤ nc →
  ∀ fuel shuffles rnds g s,
    (∀ i, shuffles i (py_range 2 (nc + 2)) ≡ₚ py_range 2 (nc + 2)) →
    (2 * Z.to_nat nh ≤ fuel)%nat →
    game_inv g →
    size (hand (playerA g)) = Z.to_nat nh →
    size (hand (playerB g)) = Z.to_nat nh →
    turn_payoffs g = [] →
    (num_cards g, num_hand g, depth g) = (nc, nh, d) →
    Statistics.consistent s →
    (Statistics.average_advantage_turn s = []
     ∨ length (Statistics.average_advantage_turn s) = (2 * Z.to_nat nh)%nat) →
    ∃ g' s',
      multiple_simulate_loop n fuel shuffles rnds [sA; sB] g s = Ok (g', s')
      ∧ Statistics.consistent s'
      ∧ Statistics.n s' = Statistics.n s + Z.of_nat n
      ∧ length (Statistics.payoffs s')
        = (length (Statistics.payoffs s) + n)%nat
      ∧ (n ≠ 0%nat
         ∨ length (Statistics.average_advantage_turn s)
           = (2 * Z.to_nat nh)%nat →
         length (Statistics.average_advantage_turn s')
         = (2 * Z.to_nat nh)%nat)
      ∧ (n ≠ 0%nat ∨ (turn g = 1 ∧ u g = 0) → turn g' = 1 ∧ u g' = 0)
      ∧ game_inv g'
      ∧ size (hand (playerA g')) = Z.to_nat nh
      ∧ size (hand (playerB g')) = Z.to_nat nh
      ∧ turn_payoffs g' = []
      ∧ (num_cards g', num_hand g', num_table g', change_first g', depth g')
        = (num_cards g, num_hand g, num_table g, change_first g, depth g).
Proof.
  intros Hs Hd Hnh Hnc.
  induction n as [|n IH];
    intros fuel shuffles rnds g s Hsh Hfuel Hg HA HB Htp Hcfg Hcons Haat;
    cbn [multiple_simulate_loop].
  { exists g, s. split_and!; try done; try lia; by intros [?|?]. }
  assert (num_cards g = nc ∧ num_hand g = nh ∧ depth g = d)
    as (Hc1 & Hc2 & Hc3) by (by injection Hcfg).
  unfold simulate.
  destruct (simulate_known (2 * Z.to_nat nh) sA sB Hs fuel (rnds O) g None Hg)
    as (g1 & -> & Hover & Ht1 & Hl1 & Hf1 & Hlast1 & Hcfg1).
  { unfold balanced.
    destruct (current g); cbn [other player]; rewrite HA, HB; lia. }
  { unfold cards_in_hand. rewrite HA, HB. lia. }
  { done. }
  { by rewrite Hc3. }
  cbn [mbind result_bind].
  rewrite Htp in Hl1. cbn [length] in Hl1.
  destruct (Statistics_update_step s (idx_Z (first g1)) (get_winner g1) (u g1)
              (turn_payoffs g1) Hcons)
    as (s1 & -> & Hcons1 & Hn1 & Hp1 & Ha1 & Ha2).
  { destruct (first g1); cbn; lia. }
  { destruct (get_winner_range g1) as [->|[->| ->]]; lia. }
  { destruct Haat as [?|?]; [by left|right; lia]. }
  cbn [mbind result_bind].
  assert (Hcfg1' : num_cards g1 = nc ∧ num_hand g1 = nh ∧ depth g1 = d).
  { injection Hcfg1 as -> -> _ _ ->. done. }
  destruct Hcfg1' as (Hd1 & Hd2 & Hd3).
  assert (Hsh1 : shuffles O (py_range 2 (num_cards g1 + 2))
                 ≡ₚ py_range 2 (num_cards g1 + 2))
    by (rewrite Hd1; apply Hsh).
  destruct (reset_ok (shuffles O) g1 Hsh1) as [g2 E2]; [lia|lia|].
  rewrite E2. cbn [mbind result_bind].
  pose proof (reset_inv (shuffles O) g1 g2 Hsh1 E2)
    as (Hg2 & HA2 & HB2 & Ht2 & Hu2 & Htp2 & Hcur2 & Hcfg2).
  rewrite Hd2 in HA2, HB2.
  assert (Hlen1 : length (Statistics.average_advantage_turn s1)
                  = (2 * Z.to_nat nh)%nat).
  { destruct Haat as [Ha|Ha].
    - rewrite (Ha1 Ha). lia.
    - rewrite Ha2; [done|]. intros Hnil. rewrite Hnil in Ha. cbn in Ha. lia. }
  destruct (IH fuel (λ i, shuffles (S i)) (λ i, rnds (S i)) g2 s1
              (λ i, Hsh (S i)) Hfuel Hg2 HA2 HB2 Htp2)
    as (g' & s' & -> & Hcons' & Hn' & Hp' & Haat' & Hfresh' & Hg' & HA' & HB'
        & Htp' & Hcfg').
  { injection Hcfg2 as -> -> _ _ ->. by rewrite Hd1, Hd2, Hd3. }
  { done. }
  { by right. }
  exists g', s'. split_and!; try done.
  - lia.
  - rewrite Hp', Hp1, length_app. cbn. lia.
  - intros _. apply Haat'. by right.
  - intros _. apply Hfresh'. by right.
  - rewrite Hcfg', Hcfg2. done.
Qed.

(** [multiple_simulate], up to the call of [calculate].  For a constructed
    game with [num_hand >= 1] and [num_table >= 0], two strategies among
    random, greedy and minimax (with a depth of at least 1 where minimax
    plays), whatever the shuffles and the random draws: the [n] simulations
    and resets all return, and no [update] of the statistics raises.  The
    statistics then count [n] games, with [n] payoffs, and their counters
    agree; the recorded turns, if any game was played, are the
    [2 * num_hand] turns of a game; and the game is left freshly dealt, in
    the configuration it was built with. *)
Theorem multiple_simulate_counts (n : nat) (shuffle : list Z → list Z)
    (shuffles : nat → list Z → list Z) (rnds : nat → nat → nat) (fuel : nat)
    (nc nh nt : Z) (cf : bool) (d : Z) (sA sB : string) (g : Game) :
  shuffle (py_range 2 (nc + 2)) ≡ₚ py_range 2 (nc + 2) →
  (∀ i, shuffles i (py_range 2 (nc + 2)) ≡ₚ py_range 2 (nc + 2)) →
  1 ≤ nh → 0 ≤ nt →
  known_strategies [sA; sB] → (MINIMAX ∈ [sA; sB] → 1 ≤ d) →
  (2 * Z.to_nat nh ≤ fuel)%nat →
  Game_init shuffle nc nh nt cf d = Ok g →
  ∃ g' s',
    multiple_simulate_loop n fuel shuffles rnds [sA; sB] g Statistics.init
    = Ok (g', s')
    ∧ Statistics.n s' = Z.of_nat n
    ∧ length (Statistics.payoffs s') = n
    ∧ Statistics.consistent s'
    ∧ (n ≠ 0%nat →
       length (Statistics.average_advantage_turn s') = (2 * Z.to_nat nh)%nat)
    ∧ size (hand (playerA g')) = Z.to_nat nh
    ∧ size (hand (playerB g')) = Z.to_nat nh
    ∧ turn g' = 1 ∧ u g' = 0 ∧ turn_payoffs g' = []
    ∧ (num_cards g', num_hand g', num_table g', change_first g', depth g')
      = (nc, nh, nt, cf, d).
Proof.
  intros Hsh Hshs Hnh Hnt Hs Hd Hfuel [Heq E0]%Game_init_reset.
  pose proof ((λ H, reset_inv shuffle _ g H E0) Hsh)
    as (Hg0 & HA & HB & Ht0 & Hu0 & Hl0 & Hcur & Hcfg).
  cbn [num_hand num_cards num_table change_first depth] in HA, HB, Hcfg.
  destruct (multiple_simulate_runs n sA sB nc nh d Hs Hd Hnh ltac:(lia)
              fuel shuffles rnds g Statistics.init Hshs Hfuel Hg0 HA HB Hl0)
    as (g' & s' & E & Hcons & Hn & Hp & Haat & Hfresh & _ & HA' & HB' & Htp'
        & Hcfg').
  { by injection Hcfg as -> -> _ _ ->. }
  { apply init_consistent. }
  { by left. }
  destruct (Hfresh (or_intror (conj Ht0 Hu0))) as [Ht' Hu'].
  exists g', s'.
  split_and!; try done; try (by rewrite Hcfg', Hcfg);
    try (by intros; apply Haat; left).
  all: rewrite ?Hn, ?Hp; cbn; lia.
Qed.

(** ** Whose turn it is *)

Lemma turn_parity_step (t : Z) (c f : idx) :
  1 ≤ t → (c = f ↔ t `mod` 2 = 1) →
  1 ≤ t + 1 ∧ (other c = f ↔ (t + 1) `mod` 2 = 1).
Proof using.
  clear is_prime iter iter_perm.
  intros Ht Hc. split; [lia|].
  assert (c = f ∨ c ≠ f) as [Heq|Hne] by (destruct c, f; auto; by right).
  - assert (t `mod` 2 = 1) by (by apply Hc).
    split; [destruct c, f; done|].
    intros. exfalso. Z.div_mod_to_equations. lia.
  - assert (t `mod` 2 ≠ 1) by (by rewrite <- Hc).
    split; [intros _; Z.div_mod_to_equations; lia|].
    intros _. by destruct c, f.
Qed.

(** In every state that play can reach the turn counter is at least 1, and
    the player to move is the first player exactly on odd turns: the
    maximizing layer of the search, [turn % 2 == 0], is always the player
    who did not move first. *)
Theorem reachable_turn_parity (g : Game) :
  reachable g →
  1 ≤ turn g ∧ (current g = first g ↔ turn g `mod` 2 = 1).
Proof.
  induction 1 as [shuffle nc nh nt cf d g Hsh E|shuffle g g' _ IH Hsh E
                  |g k v g' Hr IH Hk E|r strategies g prev g' prev' Hr IH Hs E].
  - apply Game_init_reset in E as [_ E].
    destruct ((λ H, reset_inv shuffle _ g H E) Hsh)
      as (_ & _ & _ & -> & _ & _ & -> & _). done.
  - destruct (reset_inv shuffle g g' Hsh E)
      as (_ & _ & _ & -> & _ & _ & -> & _). done.
  - apply reachable_inv in Hr.
    destruct (update_shape g g' k v Hr Hk E) as (_ & _ & _ & -> & -> & _).
    apply update_config in E.
    assert (first g' = first g) as -> by (by injection E).
    destruct IH as [IH1 IH2]. by apply turn_parity_step.
  - apply reachable_inv in Hr.
    destruct (simulate_turn_update _ _ _ _ _ _ Hr Hs E)
      as (k & v & g1 & Hk & Eu & -> & _).
    cbn [set_turn_payoffs turn current first].
    destruct (update_shape g g1 k v Hr Hk Eu) as (_ & _ & _ & -> & -> & _).
    apply update_config in Eu.
    assert (first g1 = first g) as -> by (by injection Eu).
    destruct IH as [IH1 IH2]. by apply turn_parity_step.
Qed.

(** ** The empty move *)

(** In a reachable state [update] with the empty move, the move of a search
    that found nothing, is a pass: both players and the table are as
    before, the turn passes, and [u] moves by the payoff given. *)
Theorem empty_move_passes (g : Game) (v : Z) :
  reachable g →
  ∃ g', update g ∅ v = Ok g'
        ∧ playerA g' = playerA g ∧ playerB g' = playerB g
        ∧ table g' = table g
        ∧ turn g' = turn g + 1 ∧ current g' = other (current g)
        ∧ u g' = u g + (if decide (first g = current g) then 1 else -1) * v
        ∧ config g' = config g.
Proof.
  intros (Hg & Hpos & Ht1 & Ht2 & Ht3 & Ht4)%reachable_current.
  assert (Hk : legal_move g ∅) by (by left).
  destruct (update_ok g ∅ v) as [g' E].
  { by apply game_inv_nonzero. }
  { by intros x Hx%elem_of_empty. }
  exists g'. split; [done|].
  destruct (update_shape g g' _ v Hg Hk E) as (E1 & E2 & E3 & E4 & E5 & E6).
  assert (H1 : player g' (current g) = player g (current g)).
  { rewrite E1. unfold mover_after. rewrite size_empty. cbn [Nat.eqb].
    rewrite difference_empty_L. by destruct (player g (current g)). }
  assert (H2 : player g' (other (current g)) = player g (other (current g))).
  { rewrite E2. unfold other_after. by rewrite size_empty. }
  split_and!; try done.
  - change (player g' A = player g A).
    destruct (current g); cbn [other] in *; done.
  - change (player g' B = player g B).
    destruct (current g); cbn [other] in *; done.
  - rewrite E3. unfold table_after, mover_after, other_after.
    rewrite size_empty. cbn [Nat.eqb hand primes composites].
    apply set_eq. intros x.
    rewrite !elem_of_union, !elem_of_difference.
    destruct (decide (x ∈ last_set (primes (player g (current g)))));
      destruct (decide (x ∈ last_set (composites (player g (current g)))));
      pose proof (Ht1 x); pose proof (Ht2 x); pose proof (Ht3 x);
      pose proof (Ht4 x); pose proof (not_elem_of_empty (C := gset Z) x);
      tauto.
  - by eapply update_config.
Qed.

(** ** Construction outside the valid configurations *)

Lemma list_pop_cases (l : list Z) :
  (l = [] ∧ list_pop l = Err IndexError)
  ∨ ∃ c l', l = l' ++ [c] ∧ list_pop l = Ok (c, l').
Proof using.
  clear is_prime iter iter_perm. unfold list_pop.
  destruct (last l) as [c|] eqn:E.
  - right. apply last_Some in E as [l' ->]. exists c, l'.
    by rewrite removelast_last.
  - left. by apply last_None in E.
Qed.

Lemma deal_loop_short (n : nat) :
  ∀ pa pb cards, (length cards < 2 * n)%nat →
                 deal_loop n pa pb cards = Err IndexError.
Proof using.
  clear is_prime iter iter_perm.
  induction n as [|n IH]; intros pa pb cards Hlen; [lia|].
  cbn [deal_loop].
  destruct (list_pop_cases cards) as [[_ ->]|(c & l1 & -> & ->)];
    cbn [mbind result_bind]; [done|].
  destruct (list_pop_cases l1) as [[_ ->]|(c' & l2 & -> & ->)];
    cbn [mbind result_bind]; [done|].
  apply IH. rewrite !length_app in Hlen. cbn in Hlen. lia.
Qed.

(** When the three numbers agree but the configuration is not a valid one:
    with a negative [num_table] (and [num_hand >= 1]) construction ends in
    the [IndexError] of [pop] on an empty list; with [num_hand <= 0] it ends
    in the [ValueError] of [min] when [change_first] is set, and otherwise
    builds a game that is over from the start: both hands are empty, all the
    cards lie on the table, and A is first. *)
Theorem construction_outcomes (shuffle : list Z → list Z) (nc nh nt : Z)
    (cf : bool) (d : Z) :
  shuffle (py_range 2 (nc + 2)) ≡ₚ py_range 2 (nc + 2) →
  nc = nh * 2 + nt →
  (1 ≤ nh → nt < 0 → Game_init shuffle nc nh nt cf d = Err IndexError)
  ∧ (nh ≤ 0 → cf = true → Game_init shuffle nc nh nt cf d = Err ValueError)
  ∧ (nh ≤ 0 → cf = false →
     ∃ g, Game_init shuffle nc nh nt cf d = Ok g
          ∧ is_over g = true
          ∧ hand (playerA g) = ∅ ∧ hand (playerB g) = ∅
          ∧ (∀ x, x ∈ table g ↔ 2 ≤ x ≤ nc + 1)
          ∧ first g = A ∧ current g = A).
Proof.
  intros Hsh Heq. rewrite (Game_init_ok shuffle nc nh nt cf d Heq).
  unfold reset, deal_cards. cbn [num_cards num_hand player playerA playerB].
  split_and!.
  - intros Hnh Hnt. rewrite deal_loop_short; [done|].
    rewrite Hsh, length_py_range. lia.
  - intros Hnh ->. replace (Z.to_nat nh) with 0%nat by lia.
    cbn [deal_loop mbind result_bind]. unfold find_first_player.
    cbn [change_first set_table set_player player playerA playerB].
    unfold min_hand. cbn [hand Player_init].
    by rewrite (proj2 (iter_nil ∅) eq_refl).
  - intros Hnh ->. replace (Z.to_nat nh) with 0%nat by lia.
    cbn [deal_loop mbind result_bind]. unfold find_first_player.
    cbn [change_first set_table set_player player playerA playerB
           mbind result_bind num_cards num_hand num_table depth turn u table
           turn_payoffs playable_sets].
    match goal with
    | |- ∃ g, find_playable_sets ?g0 = Ok g ∧ _ =>
        destruct (find_playable_sets_ok g0) as [g E]
    end.
    { cbn [table]. rewrite elem_of_list_to_set, Hsh, elem_of_py_range. lia. }
    exists g. split; [done|].
    apply find_playable_sets_frame in E. rewrite E.
    cbn [set_playable_sets playerA playerB table first current hand
           Player_init].
    split_and!; try done.
    intros x. rewrite elem_of_list_to_set, Hsh, elem_of_py_range. lia.
Qed.

(** ** The search at depth 1 *)

Lemma num_leb_refl (x : num) : num_leb x x = true.
Proof using.
  clear is_prime iter iter_perm.
  unfold num_leb. destruct x; cbn; [done| |done]. by rewrite Z.ltb_irrefl.
Qed.

Lemma num_ltb_leb (x y : num) : num_ltb x y = true → num_leb x y = true.
Proof using.
  clear is_prime iter iter_perm.
  unfold num_leb. destruct x, y; cbn; try done.
  rewrite negb_true_iff, Z.ltb_lt, Z.ltb_ge. lia.
Qed.

Lemma num_leb_trans (x y z : num) :
  num_leb x y = true → num_leb y z = true → num_leb x z = true.
Proof using.
  clear is_prime iter iter_perm.
  unfold num_leb. destruct x, y, z; cbn; try done.
  rewrite !negb_true_iff, !Z.ltb_ge. lia.
Qed.

Lemma num_ltb_leb_trans (x y z : num) :
  num_ltb x y = true → num_leb y z = true → num_ltb x z = true.
Proof using.
  clear is_prime iter iter_perm.
  unfold num_leb. destruct x, y, z; cbn; try done.
  rewrite !negb_true_iff, !Z.ltb_lt, !Z.ltb_ge. lia.
Qed.

Lemma num_leb_ltb_trans (x y z : num) :
  num_leb x y = true → num_ltb y z = true → num_ltb x z = true.
Proof using.
  clear is_prime iter iter_perm.
  unfold num_leb. destruct x, y, z; cbn; try done.
  rewrite !negb_true_iff, !Z.ltb_lt, !Z.ltb_ge. lia.
Qed.

Lemma at_depth_restoring rec (g : Game) (n : nat) :
  at_depth rec g n → restoring rec g n.
Proof using.
  clear is_prime iter iter_perm.
  intros H g1 l a b Hl Hc _ _. eexists. by apply H.
Qed.

(** One round of either loop when the recursive call has reached the
    depth. *)
Lemma round_at_depth rec (g : Game) (l : list GameState) (k : gset Z) (v : Z)
    (a b : num) :
  cards_all (λ c, c ≠ 0) g → at_depth rec g (S (length l)) →
  set_Forall (λ c, c ≠ 0) k →
  ∃ g1, update g k v = Ok g1
        ∧ rec g1 (l ++ [GameState_init g k v]) a b
          = Ok (g1, l ++ [GameState_init g k v], (∅, Int 0))
        ∧ rollback g1 (GameState_init g k v) = g.
Proof.
  intros Hg Hrec Hk.
  destruct (update_ok g k v Hg Hk) as [g1 E1].
  pose proof (update_config g g1 k v E1) as Hc.
  exists g1. split_and!; [done| |by apply rollback_snapshot].
  apply Hrec; [|done]. rewrite length_app. cbn. lia.
Qed.

(** The maximizing loop over a recursive call that has reached the depth
    keeps the first playable key of the highest value. *)
Lemma max_loop_at_depth rec (g : Game) (l : list GameState) (items : dict) :
  cards_all (λ c, c ≠ 0) g → at_depth rec g (S (length l)) →
  Forall (λ kv : gset Z * Z, set_Forall (λ c, c ≠ 0) kv.1) items →
  ∀ a mm mp, a ≠ PosInf → mp ≠ PosInf →
    ∃ mm' mp',
      max_loop rec items g l a PosInf mm mp = Ok (g, l, (mm', mp'))
      ∧ mp' ≠ PosInf ∧ num_leb mp mp' = true
      ∧ (∀ k v, (k, v) ∈ items →
                can_play_move (player g (current g)) k = true →
                num_leb (Int v) mp' = true)
      ∧ ((mp' = mp
          ∧ (mm' = mm
             ∨ (size mm = 0%nat
                ∧ ∃ v, (mm', v) ∈ items
                       ∧ can_play_move (player g (current g)) mm' = true)))
         ∨ (∃ v, mp' = Int v ∧ (mm', v) ∈ items
                 ∧ can_play_move (player g (current g)) mm' = true
                 ∧ num_ltb mp (Int v) = true)).
Proof.
  intros Hg Hrec. induction 1 as [|[k v] items Hk Hitems IH];
    intros a mm mp Ha Hmp; cbn [max_loop].
  { exists mm, mp. split_and!; [done|done|apply num_leb_refl| |by left; split; [|left]].
    by intros k v ?%elem_of_nil. }
  destruct (can_play_move _ k) eqn:Hplay.
  - destruct (round_at_depth rec g l k v a PosInf Hg Hrec Hk)
      as (g1 & -> & E2 & E3).
    cbn [mbind result_bind]. rewrite E2. cbn [mbind result_bind num_add].
    rewrite states_pop_snoc. cbn [mbind result_bind]. rewrite E3.
    replace (0 + v) with v by lia.
    set (mm0 := if (size mm =? 0)%nat then k else mm).
    destruct (num_ltb mp (Int v)) eqn:Hlt.
    + assert (Hbrk : num_leb PosInf (num_max a (Int v)) = false)
        by (unfold num_max; destruct a; cbn; try done;
            by destruct (_ <? _)).
      rewrite Hbrk.
      destruct (IH (num_max a (Int v)) k (Int v))
        as (mm' & mp' & -> & Hp' & Hle & Hall & Hres).
      { unfold num_max. destruct (num_ltb a (Int v)); done. }
      { done. }
      exists mm', mp'. split_and!; [done|done| | |].
      * apply num_ltb_leb. by eapply num_ltb_leb_trans.
      * intros k' v' [[= -> ->]|Hin]%elem_of_cons Hp; [done|by eapply Hall].
      * right. destruct Hres as [[-> Hmm]|(v' & -> & Hin & Hp & Hlt')].
        -- exists v. destruct Hmm as [->|[Hsz _]].
           ++ split_and!; [done|left|done|done].
           ++ apply can_play_move_true in Hplay as (x & _ & Hx).
              apply size_empty_iff in Hsz. apply Hsz in Hx.
              by apply elem_of_empty in Hx.
        -- exists v'. split_and!; [done|by right|done|].
           eapply num_ltb_leb_trans; [exact Hlt|]. by apply num_ltb_leb.
    + assert (Hbrk : num_leb PosInf (num_max a mp) = false)
        by (unfold num_max; destruct (num_ltb a mp);
            [by destruct mp|by destruct a]).
      rewrite Hbrk.
      destruct (IH (num_max a mp) mm0 mp)
        as (mm' & mp' & -> & Hp' & Hle & Hall & Hres).
      { unfold num_max. destruct (num_ltb a mp); done. }
      { done. }
      exists mm', mp'. split_and!; [done|done|done| |].
      * intros k' v' [[= -> ->]|Hin]%elem_of_cons Hp; [|by eapply Hall].
        eapply num_leb_trans; [|exact Hle]. unfold num_leb. by rewrite Hlt.
      * destruct Hres as [[-> Hmm]|(v' & -> & Hin & Hp & Hlt')].
        -- left. split; [done|]. subst mm0.
           destruct (size mm =? 0)%nat eqn:Hsz.
           ++ apply Nat.eqb_eq in Hsz. right. split; [done|].
              destruct Hmm as [->|[_ (v' & Hin & Hp)]].
              ** exists v. split; [left|done].
              ** exists v'. split; [by right|done].
           ++ destruct Hmm as [->|[Hsz' _]]; [by left|].
              apply Nat.eqb_neq in Hsz. done.
        -- right. exists v'. split_and!; [done|by right|done|done].
  - destruct (IH a mm mp Ha Hmp) as (mm' & mp' & -> & Hp' & Hle & Hall & Hres).
    exists mm', mp'. split_and!; [done|done|done| |].
    + intros k' v' [[= -> ->]|Hin]%elem_of_cons Hp; [congruence|by eapply Hall].
    + destruct Hres as [[-> [->|[Hsz (v' & Hin & Hp)]]]
                       |(v' & -> & Hin & Hp & Hlt')].
      * left. split; [done|by left].
      * left. split; [done|]. right. split; [done|].
        exists v'. split; [by right|done].
      * right. exists v'. split_and!; [done|by right|done|done].
Qed.

(** The minimizing loop over a recursive call that has reached the depth
    keeps the first playable key of the highest value, too: its payoff is
    the negated value. *)
Lemma min_loop_at_depth rec (g : Game) (l : list GameState) (items : dict) :
  cards_all (λ c, c ≠ 0) g → at_depth rec g (S (length l)) →
  Forall (λ kv : gset Z * Z, set_Forall (λ c, c ≠ 0) kv.1) items →
  ∀ b mm mp, b ≠ NegInf → mp ≠ NegInf →
    ∃ mm' mp',
      min_loop rec items g l NegInf b mm mp = Ok (g, l, (mm', mp'))
      ∧ mp' ≠ NegInf ∧ num_leb mp' mp = true
      ∧ (∀ k v, (k, v) ∈ items →
                can_play_move (player g (current g)) k = true →
                num_leb mp' (Int (0 - v)) = true)
      ∧ ((mp' = mp
          ∧ (mm' = mm
             ∨ (size mm = 0%nat
                ∧ ∃ v, (mm', v) ∈ items
                       ∧ can_play_move (player g (current g)) mm' = true)))
         ∨ (∃ v, mp' = Int (0 - v) ∧ (mm', v) ∈ items
                 ∧ can_play_move (player g (current g)) mm' = true
                 ∧ num_ltb (Int (0 - v)) mp = true)).
Proof.
  intros Hg Hrec. induction 1 as [|[k v] items Hk Hitems IH];
    intros b mm mp Hb Hmp; cbn [min_loop].
  { exists mm, mp. split_and!; [done|done|apply num_leb_refl| |by left; split; [|left]].
    by intros k v ?%elem_of_nil. }
  destruct (can_play_move _ k) eqn:Hplay.
  - destruct (round_at_depth rec g l k v NegInf b Hg Hrec Hk)
      as (g1 & -> & E2 & E3).
    cbn [mbind result_bind]. rewrite E2. cbn [mbind result_bind num_sub].
    rewrite states_pop_snoc. cbn [mbind result_bind]. rewrite E3.
    set (mm0 := if (size mm =? 0)%nat then k else mm).
    destruct (num_ltb (Int (0 - v)) mp) eqn:Hlt.
    + assert (Hbrk : num_leb (num_min b (Int (0 - v))) NegInf = false)
        by (unfold num_min; destruct (num_ltb (Int (0 - v)) b);
            [done|by destruct b]).
      rewrite Hbrk.
      destruct (IH (num_min b (Int (0 - v))) k (Int (0 - v)))
        as (mm' & mp' & -> & Hp' & Hle & Hall & Hres).
      { unfold num_min. destruct (num_ltb (Int (0 - v)) b); done. }
      { done. }
      exists mm', mp'. split_and!; [done|done| | |].
      * apply num_ltb_leb. by eapply num_leb_ltb_trans.
      * intros k' v' [[= -> ->]|Hin]%elem_of_cons Hp; [done|by eapply Hall].
      * right. destruct Hres as [[-> Hmm]|(v' & -> & Hin & Hp & Hlt')].
        -- exists v. destruct Hmm as [->|[Hsz _]].
           ++ split_and!; [done|left|done|done].
           ++ apply can_play_move_true in Hplay as (x & _ & Hx).
              apply size_empty_iff in Hsz. apply Hsz in Hx.
              by apply elem_of_empty in Hx.
        -- exists v'. split_and!; [done|by right|done|].
           eapply num_ltb_leb_trans; [exact Hlt'|]. by apply num_ltb_leb.
    + assert (Hbrk : num_leb (num_min b mp) NegInf = false)
        by (unfold num_min; destruct (num_ltb mp b);
            [by destruct mp|by destruct b]).
      rewrite Hbrk.
      destruct (IH (num_min b mp) mm0 mp)
        as (mm' & mp' & -> & Hp' & Hle & Hall & Hres).
      { unfold num_min. destruct (num_ltb mp b); done. }
      { done. }
      exists mm', mp'. split_and!; [done|done|done| |].
      * intros k' v' [[= -> ->]|Hin]%elem_of_cons Hp; [|by eapply Hall].
        eapply num_leb_trans; [exact Hle|]. unfold num_leb. by rewrite Hlt.
      * destruct Hres as [[-> Hmm]|(v' & -> & Hin & Hp & Hlt')].
        -- left. split; [done|]. subst mm0.
           destruct (size mm =? 0)%nat eqn:Hsz.
           ++ apply Nat.eqb_eq in Hsz. right. split; [done|].
              destruct Hmm as [->|[_ (v' & Hin & Hp)]].
              ** exists v. split; [left|done].
              ** exists v'. split; [by right|done].
           ++ destruct Hmm as [->|[Hsz' _]]; [by left|].
              apply Nat.eqb_neq in Hsz. done.
        -- right. exists v'. split_and!; [done|by right|done|done].
  - destruct (IH b mm mp Hb Hmp) as (mm' & mp' & -> & Hp' & Hle & Hall & Hres).
    exists mm', mp'. split_and!; [done|done|done| |].
    + intros k' v' [[= -> ->]|Hin]%elem_of_cons Hp; [congruence|by eapply Hall].
    + destruct Hres as [[-> [->|[Hsz (v' & Hin & Hp)]]]
                       |(v' & -> & Hin & Hp & Hlt')].
      * left. split; [done|by left].
      * left. split; [done|]. right. split; [done|].
        exists v'. split; [by right|done].
      * right. exists v'. split_and!; [done|by right|done|done].
Qed.

(** With the default depth of 1 the search is greedy.  In a reachable state
    with a card in the active hand, [minimax_play] returns a set of the
    playable-move table that the active player can play, at its value in
    the table, and no set that the active player can play has a higher
    value; the game is left as it was. *)
Theorem minimax_depth_one (g : Game) :
  reachable g → depth g = 1 → hand (player g (current g)) ≠ ∅ →
  ∃ k v,
    minimax_play g = Ok (g, (k, v))
    ∧ (k, v) ∈ playable_sets g
    ∧ can_play_move (player g (current g)) k = true
    ∧ ∀ k' v', (k', v') ∈ playable_sets g →
               can_play_move (player g (current g)) k' = true → v' ≤ v.
Proof.
  intros Hinv%reachable_inv Hd Hne.
  pose proof (game_inv_nonzero g Hinv) as Hg.
  destruct Hinv as (_ & _ & Hm).
  assert (Hsingle : ∃ c, ({[c]}, 0) ∈ playable_sets g
                         ∧ can_play_move (player g (current g)) {[c]} = true).
  { apply set_choose_L in Hne as [c Hc]. exists c. split.
    - apply (playable_sets_complete g g _ _ Hm). right. by exists c.
    - apply can_play_move_true. exists c. split; [done|].
      by apply elem_of_singleton. }
  assert (Hrec : at_depth (minimax_fuel 1) g 1).
  { intros g1 l a b Hl Hc. cbn [minimax_fuel]. unfold depth_reached.
    assert (depth g1 = 1) as -> by (rewrite <- Hd; by injection Hc).
    rewrite Hl. by rewrite orb_true_r. }
  assert (Hkeys : Forall (λ kv : gset Z * Z, set_Forall (λ c, c ≠ 0) kv.1)
                    (playable_sets g)) by apply Hg.
  assert (Hfuel : search_fuel g [] = 2%nat)
    by (unfold search_fuel; by rewrite Hd).
  assert (Hloop : ∃ k v,
            minimax g [] NegInf PosInf
            = Ok (g, [], (k, if turn g `mod` 2 =? 0 then Int v
                             else Int (0 - v)))
            ∧ (k, v) ∈ playable_sets g
            ∧ can_play_move (player g (current g)) k = true
            ∧ ∀ k' v', (k', v') ∈ playable_sets g →
                       can_play_move (player g (current g)) k' = true →
                       v' ≤ v).
  { unfold minimax. rewrite Hfuel. cbn [minimax_fuel].
    rewrite (is_over_current g Hne). unfold depth_reached. rewrite Hd.
    cbn [length orb Z.of_nat Z.leb Z.compare].
    destruct Hsingle as (c & Hc1 & Hc2).
    destruct (_ =? _).
    - destruct (max_loop_at_depth _ g [] (playable_sets g) Hg Hrec Hkeys
                  NegInf ∅ NegInf) as (mm & mp & E & _ & _ & Hall & Hres);
        [done|done|].
      destruct Hres as [[-> _]|(v & -> & Hin & Hp & _)].
      { by specialize (Hall _ _ Hc1 Hc2). }
      exists mm, v. split_and!; [done|done|done|].
      intros k' v' Hin' Hp'. specialize (Hall _ _ Hin' Hp').
      unfold num_leb in Hall. cbn in Hall.
      apply negb_true_iff, Z.ltb_ge in Hall. lia.
    - destruct (min_loop_at_depth _ g [] (playable_sets g) Hg Hrec Hkeys
                  PosInf ∅ PosInf) as (mm & mp & E & _ & _ & Hall & Hres);
        [done|done|].
      destruct Hres as [[-> _]|(v & -> & Hin & Hp & _)].
      { by specialize (Hall _ _ Hc1 Hc2). }
      exists mm, v. split_and!; [done|done|done|].
      intros k' v' Hin' Hp'. specialize (Hall _ _ Hin' Hp').
      unfold num_leb in Hall. cbn [num_ltb] in Hall.
      apply negb_true_iff, Z.ltb_ge in Hall. lia. }
  destruct Hloop as (k & v & E & Hin & Hp & Hbest).
  exists k, v. unfold minimax_play. rewrite E. cbn [mbind result_bind].
  split_and!; [|done|done|done].
  by rewrite <- (playable_value g k v Hm Hin).
Qed.

End Engine.

(** * The model at concrete parameters *)

Lemma iter_sorted_perm (s : gset Z) : iter_sorted s ≡ₚ elements s.
Proof. unfold iter_sorted. apply merge_sort_Permutation. Qed.

(** ** Alpha-beta against plain minimax on the four-card game *)




(** ** The theorems at the example games *)

Lemma example_game_dealt :
  Game_init is_prime_std iter_sorted (λ l, l) 4 1 2 true 2 = Ok example_game.
Proof. vm_compute. reflexivity. Qed.

Lemma example_game_A_dealt :
  Game_init is_prime_std iter_sorted (λ l, l) 4 1 2 false 2
  = Ok example_game_A.
Proof. vm_compute. reflexivity. Qed.

Lemma example_stuck_table :
  find_playable_sets is_prime_std iter_sorted example_stuck = Ok example_stuck.
Proof. vm_compute. reflexivity. Qed.

Lemma snapshot_update_rollback_witness :
  ∃ g', update is_prime_std iter_sorted example_game {[4]} 0 = Ok g'
        ∧ rollback g' (GameState_init example_game {[4]} 0) = example_game.
Proof.
  apply (snapshot_update_rollback is_prime_std iter_sorted iter_sorted_perm
           example_game {[4]} 0).
  - vm_compute. reflexivity.
  - right. left.
Defined.

Lemma minimax_restores_witness :
  ∃ mv, minimax is_prime_std iter_sorted example_game [] NegInf PosInf
        = Ok (example_game, [], mv).
Proof.
  apply (minimax_restores is_prime_std iter_sorted iter_sorted_perm
           example_game [] NegInf PosInf).
  - vm_compute. reflexivity.
  - vm_compute. reflexivity.
Defined.

(** Without the assumption on the values of the table the search can
    raise: in [example_overflow] no card is 0, B discards 4, the call for A
    returns plus infinity with the empty move, and adding the value of the
    discard to it raises [OverflowError], after [update] and before the
    rollback. *)
Lemma minimax_overflow :
  cards_nonzero example_overflow = true
  ∧ payoffs_fit example_overflow = false
  ∧ minimax is_prime_std iter_sorted example_overflow [] NegInf PosInf
    = Err OverflowError.
Proof. split_and!; vm_compute; reflexivity. Qed.

Lemma minimax_nothing_playable_witness :
  minimax is_prime_std iter_sorted example_stuck [] NegInf PosInf
  = Ok (example_stuck, [], (∅, NegInf)).
Proof.
  apply (minimax_nothing_playable is_prime_std iter_sorted example_stuck []
           NegInf PosInf).
  - vm_compute. reflexivity.
  - vm_compute. reflexivity.
  - repeat constructor.
Defined.

(** C3, as the specification has it, fails: in [example_stuck] the game is
    not over, the depth is not reached, B can play no key, and [minimax]
    returns minus infinity with the empty move, not 0. *)
Lemma minimax_nothing_playable_not_zero :
  is_over example_stuck = false
  ∧ depth_reached example_stuck [] = false
  ∧ Forall (λ kv : gset Z * Z,
              can_play_move (player example_stuck (current example_stuck))
                kv.1 = false)
           (playable_sets example_stuck)
  ∧ minimax is_prime_std iter_sorted example_stuck [] NegInf PosInf
    = Ok (example_stuck, [], (∅, NegInf))
  ∧ minimax is_prime_std iter_sorted example_stuck [] NegInf PosInf
    ≠ Ok (example_stuck, [], (∅, Int 0)).
Proof.
  split_and!.
  - vm_compute. reflexivity.
  - vm_compute. reflexivity.
  - repeat constructor.
  - vm_compute. reflexivity.
  - vm_compute. discriminate.
Qed.

Lemma reachable_cards_disjoint_witness :
  hand (playerA example_game) ## hand (playerB example_game)
  ∧ (∀ i, table example_game ## hand (player example_game i))
  ∧ (∀ i j c, c ∈ hand (player example_game i) →
              (c ∉ primes (player example_game j))
              ∧ (c ∉ composites (player example_game j)))
  ∧ (∀ c, (c ∈ primes (playerA example_game) →
           c ∉ primes (playerB example_game))
          ∧ (c ∈ composites (playerA example_game) →
             c ∉ composites (playerB example_game)))
  ∧ (∀ i j c, c ∈ primes (player example_game i) →
              c ∉ composites (player example_game j))
  ∧ (∀ i c, c ∈ table example_game →
            (c ∈ primes (player example_game i) →
             last (primes (player example_game i)) = Some c)
            ∧ (c ∈ composites (player example_game i) →
               last (composites (player example_game i)) = Some c)).
Proof.
  apply (reachable_cards_disjoint is_prime_std iter_sorted iter_sorted_perm
           example_game).
  eapply (reach_new _ _ (λ l, l) 4 1 2 true 2); [reflexivity|].
  vm_compute. reflexivity.
Defined.

(** C4, as the specification has it, fails: after A captures 2, 3 and 5 in
    [example_game_A], a card of A's prime stack lies on the table. *)
Lemma capture_top_on_table :
  ∃ g c, reachable is_prime_std iter_sorted g
         ∧ c ∈ table g ∧ c ∈ primes (playerA g).
Proof.
  destruct (update is_prime_std iter_sorted example_game_A {[2; 3; 5]} 6)
    as [g|] eqn:E; [|by vm_compute in E].
  exists g, 5. split_and!.
  - eapply (reach_update _ _ example_game_A {[2; 3; 5]} 6 g); [| |exact E].
    + eapply (reach_new _ _ (λ l, l)); [reflexivity|].
      apply example_game_A_dealt.
    + right; right. exists 6. split; [left|]. vm_compute. reflexivity.
  - vm_compute in E. injection E as <-. vm_compute. set_solver.
  - vm_compute in E. injection E as <-. vm_compute. set_solver.
Qed.

Lemma calculate_move_payoff_spec_witness :
  calculate_move_payoff is_prime_std iter_sorted example_game {[2; 3; 5]}
  = payoff_spec is_prime_std example_game {[2; 3; 5]}.
Proof.
  apply (calculate_move_payoff_spec is_prime_std iter_sorted
           iter_sorted_perm).
Defined.

Lemma find_playable_cards_exact_witness :
  ∃ l, find_playable_cards 10 6 3 = Ok l ∧
       ∀ v, v ∈ l ↔
            (2 ≤ v ≤ 10 + 1 ∧
             (v = 6 + 3 ∨ v = Z.abs (6 - 3) ∨ v = 6 * 3 ∨
              (6 `mod` 3 = 0 ∧ v = 6 / 3) ∨ (3 `mod` 6 = 0 ∧ v = 3 / 6))).
Proof. apply (find_playable_cards_exact 10 6 3); lia. Defined.


Lemma greedy_simulation_witness :
  ∃ g0 g w,
    Game_init is_prime_std iter_sorted (λ l, l) 10 4 2 true 1 = Ok g0
    ∧ simulate is_prime_std iter_sorted 8 (λ i, i) [GREEDY; GREEDY] g0
      = Ok (g, (idx_Z (first g0), w, u g))
    ∧ hand (playerA g) = ∅ ∧ hand (playerB g) = ∅
    ∧ turn g = 9 ∧ length (turn_payoffs g) = 8%nat
    ∧ (w = -1 ∨ w = 0 ∨ w = 1).
Proof.
  apply (greedy_simulation is_prime_std iter_sorted iter_sorted_perm
           (λ l, l) true 1 (λ i, i) 8); [reflexivity|lia].
Defined.

Lemma construction_witness :
  (Game_init is_prime_std iter_sorted (λ l, l) 4 1 2 true 2 = Err SystemExit
   ↔ 4 ≠ 1 * 2 + 2)
  ∧ ((λ l, l) (py_range 2 (4 + 2)) ≡ₚ py_range 2 (4 + 2) →
     4 = 1 * 2 + 2 → 1 ≤ 1 → 0 ≤ 2 →
     ∃ g, Game_init is_prime_std iter_sorted (λ l, l) 4 1 2 true 2 = Ok g).
Proof.
  apply (construction is_prime_std iter_sorted iter_sorted_perm
           (λ l, l) 4 1 2 true 2).
Defined.

(** C9, as the specification has it, fails: with [num_cards = 2],
    [num_hand = 0], [num_table = 2] the three numbers agree, and
    construction ends in the [ValueError] of [min] on an empty hand. *)
Lemma construction_empty_hand :
  2 = 0 * 2 + 2
  ∧ Game_init is_prime_std iter_sorted (λ l, l) 2 0 2 true 1 = Err ValueError.
Proof. split; [done|]. vm_compute. reflexivity. Qed.

(** The numbers also agree when the table count is negative; two cards
    cannot fill two hands of two, and [pop] raises [IndexError]. *)
Lemma construction_negative_table :
  2 = 2 * 2 + -2
  ∧ Game_init is_prime_std iter_sorted (λ l, l) 2 2 (-2) true 1
    = Err IndexError.
Proof. split; [done|]. vm_compute. reflexivity. Qed.

Lemma payoff_nonnegative_bounded_witness :
  0 ≤ calculate_move_payoff is_prime_std iter_sorted example_game {[2; 3; 5]}
    ≤ 12
  ∧ ∀ g' k v,
      find_playable_sets is_prime_std iter_sorted example_game = Ok g' →
      (k, v) ∈ playable_sets g' → 0 ≤ v ≤ 12.
Proof.
  apply (payoff_nonnegative_bounded is_prime_std iter_sorted
           iter_sorted_perm).
Defined.

(** ** The further properties at the example games *)

Lemma example_game_reachable : reachable is_prime_std iter_sorted example_game.
Proof.
  eapply (reach_new _ _ (λ l, l) 4 1 2 true 2); [reflexivity|].
  apply example_game_dealt.
Qed.

Lemma example_game_A_reachable :
  reachable is_prime_std iter_sorted example_game_A.
Proof.
  eapply (reach_new _ _ (λ l, l) 4 1 2 false 2); [reflexivity|].
  apply example_game_A_dealt.
Qed.

Lemma example_game_shallow_reachable :
  reachable is_prime_std iter_sorted example_game_shallow.
Proof.
  eapply (reach_new _ _ (λ l, l) 4 1 2 true 0); [reflexivity|].
  vm_compute. reflexivity.
Qed.

Lemma example_game_captured_reachable :
  reachable is_prime_std iter_sorted example_game_captured.
Proof.
  eapply (reach_update _ _ example_game_A {[2; 3; 5]} 6).
  - apply example_game_A_reachable.
  - right; right. exists 6. split; [left|]. vm_compute. reflexivity.
  - vm_compute. reflexivity.
Qed.

Lemma min_hand_least_witness :
  (hand (playerA example_game) = ∅ →
   min_hand iter_sorted (playerA example_game) = Err ValueError)
  ∧ (hand (playerA example_game) ≠ ∅ →
     ∃ m, min_hand iter_sorted (playerA example_game) = Ok m
          ∧ m ∈ hand (playerA example_game)
          ∧ ∀ c, c ∈ hand (playerA example_game) → m ≤ c).
Proof.
  apply (min_hand_least iter_sorted iter_sorted_perm (playerA example_game)).
Defined.

Lemma get_random_card_hand_witness :
  (hand (playerA example_game) = ∅ →
   ∀ r, get_random_card iter_sorted r (playerA example_game) = Err IndexError)
  ∧ (hand (playerA example_game) ≠ ∅ →
     ∀ r, ∃ c, get_random_card iter_sorted r (playerA example_game) = Ok c
               ∧ c ∈ hand (playerA example_game))
  ∧ (∀ c, c ∈ hand (playerA example_game) →
          ∃ r, get_random_card iter_sorted r (playerA example_game) = Ok c).
Proof.
  apply (get_random_card_hand iter_sorted iter_sorted_perm
           (playerA example_game)).
Defined.

Lemma add_stacks_last_witness :
  hand (add_stacks is_prime_std (playerA example_game_captured) 3)
  = hand (playerA example_game_captured)
  ∧ NoDup (primes (add_stacks is_prime_std (playerA example_game_captured) 3))
  ∧ NoDup (composites
             (add_stacks is_prime_std (playerA example_game_captured) 3))
  ∧ (is_prime_std 3 = true →
     primes (add_stacks is_prime_std (playerA example_game_captured) 3)
     = filter (λ x, x ≠ 3) (primes (playerA example_game_captured)) ++ [3]
     ∧ composites (add_stacks is_prime_std (playerA example_game_captured) 3)
       = composites (playerA example_game_captured)
     ∧ obtain_last_prime
         (add_stacks is_prime_std (playerA example_game_captured) 3) = 3)
  ∧ (is_prime_std 3 = false →
     composites (add_stacks is_prime_std (playerA example_game_captured) 3)
     = filter (λ x, x ≠ 3) (composites (playerA example_game_captured)) ++ [3]
     ∧ primes (add_stacks is_prime_std (playerA example_game_captured) 3)
       = primes (playerA example_game_captured)
     ∧ obtain_last_composite
         (add_stacks is_prime_std (playerA example_game_captured) 3) = 3).
Proof.
  apply (add_stacks_last is_prime_std (playerA example_game_captured) 3).
  - apply (bool_decide_unpack _). vm_compute. exact I.
  - apply (bool_decide_unpack _). vm_compute. exact I.
Defined.

Lemma remove_stacks_add_stacks_witness :
  (is_prime_std 7 = true →
   prime_contains
     (remove_stacks is_prime_std (playerA example_game_captured) 7) 7 = false)
  ∧ (is_prime_std 7 = false →
     composite_contains
       (remove_stacks is_prime_std (playerA example_game_captured) 7) 7
     = false)
  ∧ (7 ∉ primes (playerA example_game_captured) →
     7 ∉ composites (playerA example_game_captured) →
     remove_stacks is_prime_std
       (add_stacks is_prime_std (playerA example_game_captured) 7) 7
     = playerA example_game_captured)
  ∧ add_stacks is_prime_std
      (add_stacks is_prime_std (playerA example_game_captured) 7) 7
    = add_stacks is_prime_std (playerA example_game_captured) 7.
Proof.
  apply (remove_stacks_add_stacks is_prime_std
           (playerA example_game_captured) 7).
  - apply (bool_decide_unpack _). vm_compute. exact I.
  - apply (bool_decide_unpack _). vm_compute. exact I.
Defined.

Lemma find_playable_sets_fails_witness :
  (find_playable_sets is_prime_std iter_sorted example_game
   = Err ZeroDivisionError
   ↔ 0 ∈ table example_game ∧ (2 ≤ size (table example_game))%nat)
  ∧ (∀ e, find_playable_sets is_prime_std iter_sorted example_game = Err e →
          e = ZeroDivisionError).
Proof.
  apply (find_playable_sets_fails is_prime_std iter_sorted iter_sorted_perm
           example_game).
Defined.

Lemma new_game_dealt_witness :
  size (hand (playerA example_game)) = Z.to_nat 1
  ∧ size (hand (playerB example_game)) = Z.to_nat 1
  ∧ size (table example_game) = Z.to_nat 2
  ∧ hand (playerA example_game) ## hand (playerB example_game)
  ∧ hand (playerA example_game) ## table example_game
  ∧ hand (playerB example_game) ## table example_game
  ∧ (∀ x, x ∈ hand (playerA example_game) ∪ hand (playerB example_game)
              ∪ table example_game
          ↔ 2 ≤ x ≤ 4 + 1)
  ∧ primes (playerA example_game) = []
  ∧ composites (playerA example_game) = []
  ∧ primes (playerB example_game) = []
  ∧ composites (playerB example_game) = []
  ∧ turn example_game = 1 ∧ u example_game = 0
  ∧ turn_payoffs example_game = []
  ∧ current example_game = first example_game
  ∧ (num_cards example_game, num_hand example_game, num_table example_game,
     change_first example_game, depth example_game)
    = (4, 1, 2, true, 2).
Proof.
  apply (new_game_dealt is_prime_std iter_sorted iter_sorted_perm
           (λ l, l) 4 1 2 true 2 example_game).
  - reflexivity.
  - lia.
  - apply example_game_dealt.
Defined.

Lemma first_player_lowest_witness :
  current example_game = first example_game
  ∧ (true = false → first example_game = A)
  ∧ (true = true →
     ∃ m, m ∈ hand (player example_game (first example_game))
          ∧ ∀ c, c ∈ hand (playerA example_game) ∪ hand (playerB example_game)
                 → m ≤ c).
Proof.
  apply (first_player_lowest is_prime_std iter_sorted iter_sorted_perm
           (λ l, l) 4 1 2 true 2 example_game).
  apply example_game_dealt.
Defined.

Lemma reachable_cards_kept_witness :
  2 ≤ 3 ≤ num_cards example_game_captured + 1 ↔
  3 ∈ hand (playerA example_game_captured)
  ∨ 3 ∈ hand (playerB example_game_captured)
  ∨ 3 ∈ table example_game_captured
  ∨ 3 ∈ primes (playerA example_game_captured)
  ∨ 3 ∈ composites (playerA example_game_captured)
  ∨ 3 ∈ primes (playerB example_game_captured)
  ∨ 3 ∈ composites (playerB example_game_captured).
Proof.
  apply (reachable_cards_kept is_prime_std iter_sorted iter_sorted_perm
           example_game_captured).
  apply example_game_captured_reachable.
Defined.

Lemma reachable_stack_tops_witness :
  (∀ c, last (primes (player example_game_captured A)) = Some c →
        c ∈ table example_game_captured)
  ∧ (∀ c, last (composites (player example_game_captured A)) = Some c →
          c ∈ table example_game_captured)
  ∧ (∀ c, c ∈ primes (player example_game_captured A) →
          is_prime_std c = true
          ∧ (c ∈ table example_game_captured
             ↔ last (primes (player example_game_captured A)) = Some c))
  ∧ (∀ c, c ∈ composites (player example_game_captured A) →
          is_prime_std c = false
          ∧ (c ∈ table example_game_captured
             ↔ last (composites (player example_game_captured A)) = Some c)).
Proof.
  apply (reachable_stack_tops is_prime_std iter_sorted iter_sorted_perm
           example_game_captured A).
  apply example_game_captured_reachable.
Defined.

Lemma find_playable_sets_exact_witness :
  NoDup (playable_sets example_game).*1
  ∧ ∀ k v,
      (k, v) ∈ playable_sets example_game ↔
      (∃ c1 c2 c3 l,
          c1 ∈ table example_game ∧ c2 ∈ table example_game
          ∧ find_playable_cards (num_cards example_game) c1 c2 = Ok l
          ∧ c3 ∈ l
          ∧ size ({[c1; c2; c3]} : gset Z) = 3%nat
          ∧ k = {[c1; c2; c3]}
          ∧ v = calculate_move_payoff is_prime_std iter_sorted example_game k)
      ∨ (∃ c, c ∈ hand (player example_game (current example_game))
              ∧ k = {[c]} ∧ v = 0).
Proof.
  apply (find_playable_sets_exact is_prime_std iter_sorted iter_sorted_perm
           example_game example_game).
  vm_compute. reflexivity.
Defined.

Lemma discard_effect_witness :
  ∃ g', update is_prime_std iter_sorted example_game {[4]} 0 = Ok g'
        ∧ hand (player g' (current example_game))
          = hand (player example_game (current example_game)) ∖ {[4]}
        ∧ primes (player g' (current example_game))
          = primes (player example_game (current example_game))
        ∧ composites (player g' (current example_game))
          = composites (player example_game (current example_game))
        ∧ player g' (other (current example_game))
          = player example_game (other (current example_game))
        ∧ table g' = {[4]} ∪ table example_game
        ∧ current g' = other (current example_game)
        ∧ turn g' = turn example_game + 1
        ∧ u g' = u example_game
                 + (if decide (first example_game = current example_game)
                    then 1 else -1) * 0
        ∧ config g' = config example_game.
Proof.
  apply (discard_effect is_prime_std iter_sorted iter_sorted_perm
           example_game 4 0).
  - apply example_game_reachable.
  - vm_compute. reflexivity.
Defined.

Lemma capture_effect_witness :
  ∃ g' c3,
    update is_prime_std iter_sorted example_game_A {[2; 3; 5]} 6 = Ok g'
    ∧ c3 ∈ ({[2; 3; 5]} : gset Z)
    ∧ c3 ∈ hand (player example_game_A (current example_game_A))
    ∧ {[2; 3; 5]} ∖ {[c3]} ⊆ table example_game_A
    ∧ 6 = calculate_move_payoff is_prime_std iter_sorted example_game_A
            {[2; 3; 5]}
    ∧ hand (player g' (current example_game_A))
      = hand (player example_game_A (current example_game_A)) ∖ {[c3]}
    ∧ hand (player g' (other (current example_game_A)))
      = hand (player example_game_A (other (current example_game_A)))
    ∧ (∀ x, x ∈ ({[2; 3; 5]} : gset Z) →
            (x ∈ primes (player g' (current example_game_A))
             ↔ is_prime_std x = true)
            ∧ (x ∈ composites (player g' (current example_game_A))
               ↔ is_prime_std x = false)
            ∧ (x ∉ primes (player g' (other (current example_game_A))))
            ∧ (x ∉ composites (player g' (other (current example_game_A))))
            ∧ (x ∉ table g'
                   ∖ last_set (primes (player g' (current example_game_A)))
                   ∖ last_set
                       (composites (player g' (current example_game_A)))))
    ∧ (∀ x i, x ∉ ({[2; 3; 5]} : gset Z) →
              (x ∈ primes (player g' i) ↔ x ∈ primes (player example_game_A i))
              ∧ (x ∈ composites (player g' i)
                 ↔ x ∈ composites (player example_game_A i)))
    ∧ current g' = other (current example_game_A)
    ∧ turn g' = turn example_game_A + 1
    ∧ u g' = u example_game_A
             + (if decide (first example_game_A = current example_game_A)
                then 1 else -1) * 6
    ∧ config g' = config example_game_A.
Proof.
  apply (capture_effect is_prime_std iter_sorted iter_sorted_perm
           example_game_A {[2; 3; 5]} 6).
  - apply example_game_A_reachable.
  - left.
  - vm_compute. reflexivity.
  - vm_compute. reflexivity.
Defined.

Lemma greedy_play_best_witness :
  (greedy_play iter_sorted 0 example_game_A = Err IndexError
   ↔ hand (player example_game_A (current example_game_A)) = ∅)
  ∧ (hand (player example_game_A (current example_game_A)) ≠ ∅ →
     ∃ k v,
       greedy_play iter_sorted 0 example_game_A = Ok (k, v) ∧ 0 ≤ v
       ∧ (∀ k' v', (k', v') ∈ playable_sets example_game_A →
                   can_play_move
                     (player example_game_A (current example_game_A)) k'
                   = true → v' ≤ v)
       ∧ ((v = 0
           ∧ ∃ c, c ∈ hand (player example_game_A (current example_game_A))
                  ∧ k = {[c]})
          ∨ (0 < v ∧ (k, v) ∈ playable_sets example_game_A
             ∧ can_play_move
                 (player example_game_A (current example_game_A)) k = true))).
Proof.
  apply (greedy_play_best iter_sorted iter_sorted_perm 0%nat example_game_A).
Defined.

Lemma random_play_entry_witness :
  (∀ r, random_play iter_sorted r example_game = Err IndexError
        ↔ hand (player example_game (current example_game)) = ∅)
  ∧ (hand (player example_game (current example_game)) ≠ ∅ →
     ∀ r, ∃ k v c,
       random_play iter_sorted r example_game = Ok (k, v)
       ∧ (k, v) ∈ playable_sets example_game
       ∧ c ∈ hand (player example_game (current example_game)) ∧ c ∈ k
       ∧ v = calculate_move_payoff is_prime_std iter_sorted example_game k)
  ∧ (∀ c, c ∈ hand (player example_game (current example_game)) →
          ∃ r k v, random_play iter_sorted r example_game = Ok (k, v)
                   ∧ c ∈ k).
Proof.
  apply (random_play_entry is_prime_std iter_sorted iter_sorted_perm
           example_game).
  apply example_game_reachable.
Defined.

Lemma minimax_play_move_witness :
  (depth example_game ≤ 0 ∨ is_over example_game = true →
   minimax_play is_prime_std iter_sorted example_game
   = Ok (example_game, (∅, 0)))
  ∧ (1 ≤ depth example_game →
     hand (player example_game (current example_game)) ≠ ∅ →
     ∃ k v, minimax_play is_prime_std iter_sorted example_game
            = Ok (example_game, (k, v))
            ∧ (k, v) ∈ playable_sets example_game
            ∧ can_play_move (player example_game (current example_game)) k
              = true).
Proof.
  apply (minimax_play_move is_prime_std iter_sorted iter_sorted_perm
           example_game).
  apply example_game_reachable.
Defined.

Lemma simulate_terminates_witness :
  ∃ g' w,
    simulate is_prime_std iter_sorted 2 (λ i, i) [GREEDY; MINIMAX] example_game
    = Ok (g', (idx_Z (first example_game), w, u g'))
    ∧ hand (playerA g') = ∅ ∧ hand (playerB g') = ∅
    ∧ turn g' = 2 * 1 + 1
    ∧ length (turn_payoffs g') = (2 * Z.to_nat 1)%nat
    ∧ last (turn_payoffs g') = Some (u g')
    ∧ (0 < u g' → w = idx_Z (first example_game))
    ∧ (u g' < 0 → w = idx_Z (other (first example_game)))
    ∧ (u g' = 0 → w = -1).
Proof.
  apply (simulate_terminates is_prime_std iter_sorted iter_sorted_perm
           (λ l, l) 4 1 2 true 2 (λ i, i) 2%nat GREEDY MINIMAX example_game).
  - reflexivity.
  - lia.
  - apply Forall_cons. split; [by right; left|].
    apply Forall_cons. split; [by right; right|]. constructor.
  - intros _. lia.
  - vm_compute. lia.
  - apply example_game_dealt.
Defined.

Lemma minimax_depth_zero_loops_witness :
  simulate is_prime_std iter_sorted 3 (λ i, i) [MINIMAX; MINIMAX]
    example_game_shallow
  = Err OutOfFuel.
Proof.
  apply (minimax_depth_zero_loops is_prime_std iter_sorted iter_sorted_perm
           example_game_shallow 3%nat (λ i, i)).
  - apply example_game_shallow_reachable.
  - vm_compute. discriminate.
  - vm_compute. reflexivity.
Defined.

Lemma example_game_default_reachable :
  reachable is_prime_std iter_sorted example_game_default.
Proof.
  eapply (reach_new _ _ (λ l, l) 4 1 2 true 1); [reflexivity|].
  vm_compute. reflexivity.
Qed.

Lemma Statistics_update_fails_witness :
  (Statistics.update Statistics.init 0 1 (-3) example_turns = Err IndexError
   ↔ ¬ (-2 ≤ 0 ≤ 1) ∨ ¬ (-2 ≤ 1 ≤ 1)
     ∨ (Statistics.average_advantage_turn Statistics.init ≠ []
        ∧ (length (Statistics.average_advantage_turn Statistics.init)
           < length example_turns)%nat))
  ∧ (∀ e, Statistics.update Statistics.init 0 1 (-3) example_turns = Err e →
          e = IndexError).
Proof.
  apply (Statistics_update_fails Statistics.init 0 1 (-3) example_turns).
  vm_compute. auto.
Defined.

Lemma Statistics_update_turns_witness :
  (Statistics.average_advantage_turn Statistics.init = [] →
   Statistics.average_advantage_turn example_stats = example_turns)
  ∧ (Statistics.average_advantage_turn Statistics.init ≠ [] →
     (length example_turns
      ≤ length (Statistics.average_advantage_turn Statistics.init))%nat
     ∧ length (Statistics.average_advantage_turn example_stats)
       = length (Statistics.average_advantage_turn Statistics.init)
     ∧ ∀ i, Statistics.average_advantage_turn example_stats !! i
            = match Statistics.average_advantage_turn Statistics.init !! i,
                    example_turns !! i with
              | Some x, Some y => Some (x + y)
              | o, _ => o
              end).
Proof.
  apply (Statistics_update_turns Statistics.init example_stats 0 1 (-3)
           example_turns).
  vm_compute. reflexivity.
Defined.

Lemma multiple_simulate_counts_witness :
  ∃ g' s',
    multiple_simulate_loop is_prime_std iter_sorted 2 2 (λ _ l, l) (λ _ i, i)
      [GREEDY; MINIMAX] example_game Statistics.init
    = Ok (g', s')
    ∧ Statistics.n s' = Z.of_nat 2
    ∧ length (Statistics.payoffs s') = 2%nat
    ∧ Statistics.consistent s'
    ∧ (2%nat ≠ 0%nat →
       length (Statistics.average_advantage_turn s') = (2 * Z.to_nat 1)%nat)
    ∧ size (hand (playerA g')) = Z.to_nat 1
    ∧ size (hand (playerB g')) = Z.to_nat 1
    ∧ turn g' = 1 ∧ u g' = 0 ∧ turn_payoffs g' = []
    ∧ (num_cards g', num_hand g', num_table g', change_first g', depth g')
      = (4, 1, 2, true, 2).
Proof.
  apply (multiple_simulate_counts is_prime_std iter_sorted iter_sorted_perm
           2%nat (λ l, l) (λ _ l, l) (λ _ i, i) 2%nat 4 1 2 true 2
           GREEDY MINIMAX example_game).
  - reflexivity.
  - intros _. reflexivity.
  - lia.
  - lia.
  - apply Forall_cons. split; [by right; left|].
    apply Forall_cons. split; [by right; right|]. constructor.
  - intros _. lia.
  - vm_compute. lia.
  - apply example_game_dealt.
Defined.

Lemma reachable_turn_parity_witness :
  1 ≤ turn example_game_captured
  ∧ (current example_game_captured = first example_game_captured
     ↔ turn example_game_captured `mod` 2 = 1).
Proof.
  apply (reachable_turn_parity is_prime_std iter_sorted iter_sorted_perm
           example_game_captured).
  apply example_game_captured_reachable.
Defined.

Lemma empty_move_passes_witness :
  ∃ g', update is_prime_std iter_sorted example_game_captured ∅ 0 = Ok g'
        ∧ playerA g' = playerA example_game_captured
        ∧ playerB g' = playerB example_game_captured
        ∧ table g' = table example_game_captured
        ∧ turn g' = turn example_game_captured + 1
        ∧ current g' = other (current example_game_captured)
        ∧ u g' = u example_game_captured
                 + (if decide (first example_game_captured
                               = current example_game_captured)
                    then 1 else -1) * 0
        ∧ config g' = config example_game_captured.
Proof.
  apply (empty_move_passes is_prime_std iter_sorted iter_sorted_perm
           example_game_captured 0).
  apply example_game_captured_reachable.
Defined.

Lemma construction_outcomes_witness :
  (1 ≤ 2 → -2 < 0 →
   Game_init is_prime_std iter_sorted (λ l, l) 2 2 (-2) true 1
   = Err IndexError)
  ∧ (2 ≤ 0 → true = true →
     Game_init is_prime_std iter_sorted (λ l, l) 2 2 (-2) true 1
     = Err ValueError)
  ∧ (2 ≤ 0 → true = false →
     ∃ g, Game_init is_prime_std iter_sorted (λ l, l) 2 2 (-2) true 1 = Ok g
          ∧ is_over g = true
          ∧ hand (playerA g) = ∅ ∧ hand (playerB g) = ∅
          ∧ (∀ x, x ∈ table g ↔ 2 ≤ x ≤ 2 + 1)
          ∧ first g = A ∧ current g = A).
Proof.
  apply (construction_outcomes is_prime_std iter_sorted iter_sorted_perm
           (λ l, l) 2 2 (-2) true 1).
  - reflexivity.
  - lia.
Defined.

Lemma minimax_depth_one_witness :
  ∃ k v,
    minimax_play is_prime_std iter_sorted example_game_default
    = Ok (example_game_default, (k, v))
    ∧ (k, v) ∈ playable_sets example_game_default
    ∧ can_play_move
        (player example_game_default (current example_game_default)) k = true
    ∧ ∀ k' v', (k', v') ∈ playable_sets example_game_default →
               can_play_move
                 (player example_game_default (current example_game_default))
                 k' = true → v' ≤ v.
Proof.
  apply (minimax_depth_one is_prime_std iter_sorted iter_sorted_perm
           example_game_default).
  - apply example_game_default_reachable.
  - reflexivity.
  - vm_compute. discriminate.
Defined.
